(** * carbonzipper: response mergers, HTTP retry driver and gRPC group client

    A shallow embedding of
      - [zipper/types/response.go]   (find and fetch mergers),
      - [zipper/helper] HttpQuery    (server picker, one attempt, retry driver),
      - [zipper/protocols/grpc/grpc_group.go] (the gRPC group client),
    followed by the properties of the specification that concern them.

    Conventions.
      - Go [int64] values are [Z] with the two's-complement wrap-around
        written out ([wrap64]); [uint64] likewise ([wrapU64]).
      - [float64] samples are the kernel's binary64 floats; [math.IsNaN] is
        [PrimFloat.is_nan] and [math.NaN()] is [PrimFloat.nan].
      - Go maps are [gmap]s, sets-as-maps are [gset]s, slices are lists read
        with [!!]; an index out of range is a run-time panic, modelled by the
        outcome [Panicked].
      - A function that mutates its pointer arguments returns their final
        contents next to its Go result. *)

From Stdlib Require Import ZArith PrimFloat.
From stdpp Require Import gmap strings list.

Open Scope Z_scope.

(** ** Outcomes of a Go call *)

(** A call returns, panics, or (for the one loop of the source whose trip
    count is not bounded by a slice length) is cut off by the model's fuel. *)
Inductive outcome (A : Type) : Type :=
| Returned (a : A)
| Panicked
| OutOfFuel.
Arguments Returned {A} a.
Arguments Panicked {A}.
Arguments OutOfFuel {A}.

Definition obind {A B} (m : outcome A) (k : A → outcome B) : outcome B :=
  match m with
  | Returned a => k a
  | Panicked => Panicked
  | OutOfFuel => OutOfFuel
  end.

Notation "x ←! m ; k" := (obind m (λ x, k))
  (at level 20, m at level 100, k at level 200, only parsing).
Notation "' p ←! m ; k" := (obind m (λ x, let 'p := x in k))
  (at level 20, p pattern, m at level 100, k at level 200, only parsing).

(** ** Machine integers *)

Definition wrap64 (z : Z) : Z := (z + 2 ^ 63) `mod` 2 ^ 64 - 2 ^ 63.
Definition wrapU64 (z : Z) : Z := z `mod` 2 ^ 64.

(** Go's [/] and [%] on [int64]: truncated, panic on a zero divisor. *)
Definition int64_div (x y : Z) : outcome Z :=
  if decide (y = 0) then Panicked else Returned (wrap64 (Z.quot x y)).
Definition int64_rem (x y : Z) : outcome Z :=
  if decide (y = 0) then Panicked else Returned (Z.rem x y).

(** [s[idx]] for a signed index. *)
Definition index {A} (s : list A) (idx : Z) : outcome A :=
  if decide (idx < 0) then Panicked
  else match s !! Z.to_nat idx with
       | Some a => Returned a
       | None => Panicked
       end.

(** [*p] for a pointer that may be nil. *)
Definition deref {A} (p : option A) : outcome A :=
  match p with
  | Some a => Returned a
  | None => Panicked
  end.

(** [for i := from; i < from + n; i++ { body }] over a state [S]. *)
Fixpoint for_range {S} (n : nat) (from : nat)
    (body : nat → S → outcome S) (s : S) : outcome S :=
  match n with
  | O => Returned s
  | Datatypes.S n' => s' ←! body from s; for_range n' (Datatypes.S from) body s'
  end.

(** ** Errors *)

(** The sentinels of package [types] that the sources name, the formatted
    [ErrFailedToFetchFmt] error, and the errors that come out of the
    libraries (a fired cancellation signal or deadline, anything else). *)
Inductive error : Type :=
| ErrResponseLengthMismatch
| ErrResponseStartTimeMismatch
| ErrNotFound
| ErrFailedToFetch (group : string) (status : Z)
| ErrCancelled
| ErrOther (msg : string).

Global Instance error_eq_dec : EqDecision error.
Proof. solve_decision. Defined.

(** ** types.Stats *)

Module Types.

(** Modelled from the spec: [types.Stats] and its [Merge] method are declared
    in the repository outside the files at hand.  The record has the
    counters and the two server lists of the data model; merging sums the
    counters and concatenates the lists. *)
Record Stats : Type := mkStats {
  Servers : list string;
  FailedServers : list string;
  RenderErrors : Z;
  FindErrors : Z;
  MemoryUsage : Z
}.

Definition Stats_Merge (first second : Stats) : Stats :=
  {| Servers := Servers first ++ Servers second;
     FailedServers := FailedServers first ++ FailedServers second;
     RenderErrors := wrap64 (RenderErrors first + RenderErrors second);
     FindErrors := wrap64 (FindErrors first + FindErrors second);
     MemoryUsage := wrap64 (MemoryUsage first + MemoryUsage second) |}.

End Types.

(** ** Fetch merger ([zipper/types/response.go], lines 86-198) *)

Module Fetch.

(** Modelled from the spec: [protov3.FetchResponse] is declared in the
    protocol package, not in the files at hand.  The record has the fields
    of the FetchMetric of the data model, which are the eight fields that
    [swapFetchResponses] exchanges.  [XFilesFactor] is a [float32] in Go; it
    is only moved around. *)
Record FetchResponse : Type := mkFetchResponse {
  Name : string;
  StartTime : Z;
  StopTime : Z;
  StepTime : Z;
  ConsolidationFunc : string;
  XFilesFactor : float;
  Values : list float;
  AppliedFunctions : list string
}.

Definition set_Values (vs : list float) (m : FetchResponse) : FetchResponse :=
  {| Name := Name m; StartTime := StartTime m; StopTime := StopTime m;
     StepTime := StepTime m; ConsolidationFunc := ConsolidationFunc m;
     XFilesFactor := XFilesFactor m; Values := vs;
     AppliedFunctions := AppliedFunctions m |}.

Definition set_grid (step start stop : Z) (m : FetchResponse) : FetchResponse :=
  {| Name := Name m; StartTime := start; StopTime := stop;
     StepTime := step; ConsolidationFunc := ConsolidationFunc m;
     XFilesFactor := XFilesFactor m; Values := Values m;
     AppliedFunctions := AppliedFunctions m |}.

(** [swapFetchResponses]: the eight assignments exchange every field, so the
    two records trade places. *)
Definition swapFetchResponses (m1 m2 : FetchResponse)
    : FetchResponse * FetchResponse :=
  ({| Name := Name m2; StartTime := StartTime m2; StopTime := StopTime m2;
      StepTime := StepTime m2; ConsolidationFunc := ConsolidationFunc m2;
      XFilesFactor := XFilesFactor m2; Values := Values m2;
      AppliedFunctions := AppliedFunctions m2 |},
   {| Name := Name m1; StartTime := StartTime m1; StopTime := StopTime m1;
      StepTime := StepTime m1; ConsolidationFunc := ConsolidationFunc m1;
      XFilesFactor := XFilesFactor m1; Values := Values m1;
      AppliedFunctions := AppliedFunctions m1 |}).

(** The padding loop
    [for i := 0; i < len(m1.Values)-len(m2.Values); i++ { append NaN }].
    The bound is read again on every turn, after [m2.Values] has grown.  The
    loop makes at most [len(m1.Values)] turns, which is the fuel here. *)
Fixpoint padNaN (fuel : nat) (len1 : nat) (i : nat) (v2 : list float)
    : list float :=
  match fuel with
  | O => v2
  | Datatypes.S fuel' =>
      if decide (Z.of_nat i < Z.of_nat len1 - Z.of_nat (length v2))
      then padNaN fuel' len1 (Datatypes.S i) (v2 ++ [nan])
      else v2
  end.

(** The resampling loop
    [for ts := m1.StartTime; ts < m1.StopTime; ts += m1.StepTime]
    that reads [m2.Values[(ts - m1.StartTime) / m2.StepTime]]. *)
Fixpoint resample (fuel : nat) (m1 m2 : FetchResponse) (ts : Z)
    (values : list float) : outcome (list float) :=
  if decide (ts < StopTime m1) then
    match fuel with
    | O => OutOfFuel
    | Datatypes.S fuel' =>
        idx ←! int64_div (wrap64 (ts - StartTime m1)) (StepTime m2);
        v ←! index (Values m2) idx;
        resample fuel' m1 m2 (wrap64 (ts + StepTime m1)) (values ++ [v])
    end
  else Returned values.

(** Length equalization, lines 107-149: everything before the label [out].
    The result carries the error of an early [return], if any, and the two
    metrics as the code leaves them. *)
Definition equalize (fuel : nat) (m1 m2 : FetchResponse)
    : outcome (option error * FetchResponse * FetchResponse) :=
  if decide (length (Values m1) = length (Values m2))
  then Returned (None, m1, m2)
  else
    let '(m1, m2) :=
      if decide (length (Values m1) < length (Values m2))%nat
      then swapFetchResponses m1 m2 else (m1, m2) in
    let interpolate := bool_decide (StepTime m1 < StepTime m2) in
    if negb interpolate && bool_decide (StartTime m1 = StartTime m2)
    then
      (* pad and [goto out] *)
      Returned (None, m1,
                set_Values (padNaN (length (Values m1)) (length (Values m1)) 0
                                   (Values m2)) m2)
    else if negb interpolate then
      Returned (Some ErrResponseLengthMismatch, m1, m2)
    else
      r ←! int64_rem (StopTime m1) (StepTime m2);
      if decide (wrap64 (StopTime m1 - r) ≠ StopTime m2)
      then Returned (Some ErrResponseLengthMismatch, m1, m2)
      else
        values ←! resample fuel m1 m2 (StartTime m1) [];
        Returned (None, m1,
                  set_grid (StepTime m1) (StartTime m1) (StopTime m1)
                           (set_Values values m2)).

(** Gap fill, lines 156-165: one turn of [for i := range m1.Values]. *)
Definition fill_at (v2 : list float) (i : nat) (v1 : list float)
    : outcome (list float) :=
  match v1 !! i with
  | None => Panicked
  | Some x =>
      if negb (is_nan x) then Returned v1
      else
        y ←! index v2 (Z.of_nat i);
        if negb (is_nan y) then Returned (<[i:=y]> v1) else Returned v1
  end.

Definition fillGaps (v1 v2 : list float) : outcome (list float) :=
  for_range (length v1) 0 (fill_at v2) v1.

(** [mergeFetchResponses(m1, m2 *protov3.FetchResponse) error]. *)
Definition mergeFetchResponses (fuel : nat) (m1 m2 : FetchResponse)
    : outcome (option error * FetchResponse * FetchResponse) :=
  '(err, m1, m2) ←! equalize fuel m1 m2;
  match err with
  | Some e => Returned (Some e, m1, m2)
  | None =>
      (* out: *)
      if decide (StartTime m1 ≠ StartTime m2)
      then Returned (Some ErrResponseStartTimeMismatch, m1, m2)
      else
        vs ←! fillGaps (Values m1) (Values m2);
        Returned (None, set_Values vs m1, m2)
  end.

(** The metric that [m1] points to once the lengths have been compared (the
    one with more samples), and the one [m2] points to. *)
Definition longer (m1 m2 : FetchResponse) : FetchResponse :=
  if decide (length (Values m1) < length (Values m2))%nat then m2 else m1.
Definition shorter (m1 m2 : FetchResponse) : FetchResponse :=
  if decide (length (Values m1) < length (Values m2))%nat then m1 else m2.

(** Where the gap-fill loop stands after [i] turns on [v1] against [v2]:
    checked positions hold the first-writer-wins value, the rest is
    untouched. *)
Definition filled_upto (v1 v2 : list float) (i : nat) (vs : list float) : Prop :=
  length vs = length v1 ∧
  (∀ k x, (k < i)%nat → v1 !! k = Some x →
     if is_nan x
     then ∃ y, v2 !! k = Some y ∧ vs !! k = Some (if is_nan y then x else y)
     else vs !! k = Some x) ∧
  (∀ k, (i ≤ k)%nat → vs !! k = v1 !! k).

(** First-writer-wins gap fill of [a] from [b]: [merged] keeps every sample
    of [a] that is not NaN and takes the sample of [b] where [a] has NaN and
    [b] has not. *)
Definition first_writer_wins (a b merged : list float) : Prop :=
  ∀ i x, a !! i = Some x →
    (is_nan x = false → merged !! i = Some x) ∧
    (is_nan x = true →
     ∀ y, b !! i = Some y → is_nan y = false → merged !! i = Some y).

(** The pair-merge leaves other samples in [m2] than it found there. *)
Definition second_replaced (m1 m2 : FetchResponse) : Prop :=
  ∀ fuel err m1' m2',
    mergeFetchResponses fuel m1 m2 = Returned (err, m1', m2') →
    Values m2' ≠ Values m2.

(** The series of [TestMergeValues]. *)
Definition series (start stop step : Z) (vs : list float) : FetchResponse :=
  {| Name := "foo"; StartTime := start; StopTime := stop; StepTime := step;
     ConsolidationFunc := "avg"; XFilesFactor := 0%float; Values := vs;
     AppliedFunctions := [] |}.

Definition one_to_ten : list float :=
  [1; 2; 3; 4; 5; 6; 7; 8; 9; 0]%float.
Definition odd_to_nine : list float := [1; 3; 5; 7; 9]%float.
Definition gaps_a : list float :=
  [1; 2; 3; 4; nan; 6; 7; 8; 9; nan; 11; 12; 13; 14; 15; 16; nan; nan; nan;
   20]%float.
Definition gaps_b : list float :=
  [1; 2; nan; nan; 5; 6; 7; 8; 9; nan; 11; 12; nan; 14; 15; 16; 17; 18; nan;
   20]%float.
Definition gaps_c : list float :=
  [1; nan; 5; 7; 9; 11; 13; 15; 17; 19]%float.
Definition gaps_d : list float :=
  [1; 2; 3; 4; nan; 6; 7; 8; 9; nan; 11; 12; 13; 14; 15; 16; nan; nan;
   nan]%float.

Definition gaps_bc : list float :=
  [1; 2; nan; nan; 5; 6; 7; 8; 9; 9; 11; 12; 13; 14; 15; 16; 17; 18; 19;
   20]%float.
Definition gaps_c_aligned : list float :=
  [1; 1; nan; nan; 5; 5; 7; 7; 9; 9; 11; 11; 13; 13; 15; 15; 17; 17; 19;
   19]%float.

(** [ServerFetchResponse]; [Response] is a pointer, [None] when nil. *)
Record ServerFetchResponse : Type := mkServerFetchResponse {
  ResponsesMap : gmap string (list FetchResponse);
  Response : option (list FetchResponse);
  Stats : Types.Stats;
  Err : option error
}.

(** Lines 176-179: [metrics[first.Response.Metrics[i].Name] = i]. *)
Fixpoint index_names (i : nat) (ms : list FetchResponse)
    (metrics : gmap string nat) : gmap string nat :=
  match ms with
  | [] => metrics
  | m :: ms' => index_names (Datatypes.S i) ms' (<[Name m := i]> metrics)
  end.

(** Lines 181-191: one turn of [for i := range second.Response.Metrics].
    The state is the pair of metric slices of [first] and [second].  The
    pair-merge is called on [&first.Response.Metrics[i]] and
    [&second.Response.Metrics[j]], with [i] the position in [second] and [j]
    the position recorded for [first]; its error is dropped. *)
Definition merge_at (fuel : nat) (metrics : gmap string nat) (i : nat)
    (st : list FetchResponse * list FetchResponse)
    : outcome (list FetchResponse * list FetchResponse) :=
  let '(fm, sm) := st in
  m ←! index sm (Z.of_nat i);
  match metrics !! Name m with
  | Some j =>
      m1 ←! index fm (Z.of_nat i);
      m2 ←! index sm (Z.of_nat j);
      '(_, m1', m2') ←! mergeFetchResponses fuel m1 m2;
      Returned (<[i:=m1']> fm, <[j:=m2']> sm)
  | None => Returned (fm ++ [m], sm)
  end.

(** [func (first *ServerFetchResponse) Merge(second *ServerFetchResponse)].
    Samples are immutable lists here, so every metric owns its samples; in Go
    a metric appended to [first] shares its sample array with the metric of
    [second] it was copied from. *)
Definition Merge (fuel : nat) (first second : ServerFetchResponse)
    : outcome (ServerFetchResponse * ServerFetchResponse) :=
  let stats := Types.Stats_Merge (Stats first) (Stats second) in
  match Err second with
  | Some _ =>
      Returned ({| ResponsesMap := ResponsesMap first;
                   Response := Response first;
                   Stats := stats; Err := Err first |}, second)
  | None =>
      fm ←! deref (Response first);
      let metrics := index_names 0 fm ∅ in
      sm ←! deref (Response second);
      '(fm', sm') ←! for_range (length sm) 0 (merge_at fuel metrics) (fm, sm);
      Returned ({| ResponsesMap := ResponsesMap first;
                   Response := Some fm';
                   Stats := stats; Err := None |},
                {| ResponsesMap := ResponsesMap second;
                   Response := Some sm';
                   Stats := Stats second; Err := Err second |})
  end.

(** Small responses to run [Merge] on: metrics on the grid 0, 60 of step 60. *)
Definition metric (name : string) (vs : list float) : FetchResponse :=
  {| Name := name; StartTime := 0; StopTime := 120; StepTime := 60;
     ConsolidationFunc := "avg"; XFilesFactor := 0%float; Values := vs;
     AppliedFunctions := [] |}.

Definition no_stats : Types.Stats :=
  {| Types.Servers := []; Types.FailedServers := []; Types.RenderErrors := 0;
     Types.FindErrors := 0; Types.MemoryUsage := 0 |}.

Definition response (ms : list FetchResponse) : ServerFetchResponse :=
  {| ResponsesMap := ∅; Response := Some ms; Stats := no_stats; Err := None |}.

End Fetch.

(** ** Find merger ([zipper/types/response.go], lines 22-84) *)

Module Find.

(** Modelled from the spec: [protov3.GlobMatch] and [protov3.GlobResponse]
    are declared in the protocol package; these are the FindMetric of the
    data model and its matches. *)
Record GlobMatch : Type := mkGlobMatch {
  Path : string;
  IsLeaf : bool
}.

Record GlobResponse : Type := mkGlobResponse {
  Name : string;
  Matches : list GlobMatch
}.

(** [ServerFindResponse]; [Response] is a pointer, [None] when nil. *)
Record ServerFindResponse : Type := mkServerFindResponse {
  Response : option (list GlobResponse);
  Stats : Types.Stats;
  Err : option error
}.

(** The key of [seenMatches]: [m.Name + "." + mm.Path]. *)
Definition match_key (name path : string) : string :=
  name +:+ "." +:+ path.

(** Lines 56-61: the two indexes over [first.Response.Metrics]. *)
Definition see_matches (name : string) (mms : list GlobMatch)
    (seenMatches : gset string) : gset string :=
  foldl (λ seen mm, {[match_key name (Path mm)]} ∪ seen) seenMatches mms.

Fixpoint index_first (i : nat) (ms : list GlobResponse)
    (seenMetrics : gmap string nat) (seenMatches : gset string)
    : gmap string nat * gset string :=
  match ms with
  | [] => (seenMetrics, seenMatches)
  | m :: ms' =>
      index_first (Datatypes.S i) ms' (<[Name m := i]> seenMetrics)
                  (see_matches (Name m) (Matches m) seenMatches)
  end.

(** Lines 70-76: the matches of one metric of [second] go to
    [first.Response.Metrics[i]] unless their key was seen. *)
Fixpoint add_matches (i : nat) (mms : list GlobMatch)
    (st : list GlobResponse * gset string)
    : outcome (list GlobResponse * gset string) :=
  match mms with
  | [] => Returned st
  | mm :: mms' =>
      let '(fm, seenMatches) := st in
      fi ←! deref (fm !! i);
      let key := match_key (Name fi) (Path mm) in
      if decide (key ∈ seenMatches) then add_matches i mms' st
      else
        add_matches i mms'
          (<[i := {| Name := Name fi; Matches := Matches fi ++ [mm] |}]> fm,
           {[key]} ∪ seenMatches)
  end.

(** Lines 65-77: [for _, m := range second.Response.Metrics]. *)
Fixpoint merge_metrics (seenMetrics : gmap string nat)
    (sm : list GlobResponse) (st : list GlobResponse * gset string)
    : outcome (list GlobResponse * gset string) :=
  match sm with
  | [] => Returned st
  | m :: sm' =>
      match seenMetrics !! Name m with
      | None => merge_metrics seenMetrics sm' (st.1 ++ [m], st.2)
      | Some i =>
          st' ←! add_matches i (Matches m) st;
          merge_metrics seenMetrics sm' st'
      end
  end.

(** [func (first *ServerFindResponse) Merge(second *ServerFindResponse) error];
    [second] is only read. *)
Definition Merge (first second : ServerFindResponse)
    : outcome (option error * ServerFindResponse) :=
  let stats := Types.Stats_Merge (Stats first) (Stats second) in
  match Err second with
  | Some e =>
      Returned (Some e, {| Response := Response first; Stats := stats;
                           Err := Err first |})
  | None =>
      fm ←! deref (Response first);
      let '(seenMetrics, seenMatches) := index_first 0 fm ∅ ∅ in
      sm ←! deref (Response second);
      '(fm', _) ←! merge_metrics seenMetrics sm (fm, seenMatches);
      Returned (None, {| Response := Some fm'; Stats := stats; Err := None |})
  end.

(** The [(metric name, match path)] pairs of a response. *)
Definition pairs (ms : list GlobResponse) : list (string * string) :=
  m ← ms; (λ mm, (Name m, Path mm)) <$> Matches m.

Definition pair_set (ms : list GlobResponse) : gset (string * string) :=
  list_to_set (pairs ms).

Definition names (ms : list GlobResponse) : list string := Name <$> ms.

(** Unique metric names, and unique paths within each metric. *)
Definition well_formed (ms : list GlobResponse) : Prop :=
  NoDup (names ms) ∧ ∀ m, m ∈ ms → NoDup (Path <$> Matches m).

(** The key under which a pair sits in [seenMatches], and the condition that
    the keys of the pairs at hand tell the pairs apart. *)
Definition key_of (p : string * string) : string := match_key p.1 p.2.

Definition keys_injective (ps : list (string * string)) : Prop :=
  ∀ p q, p ∈ ps → q ∈ ps → key_of p = key_of q → p = q.

(** What the loop over [second.Response.Metrics] maintains.  [fm] is the
    metric list [first] came with, [dom] the pairs of both responses, [done]
    the names of the metrics of [second] dealt with so far and [P] the pairs
    [first] should hold by now. *)
Record merge_inv (fm : list GlobResponse) (dom : list (string * string))
    (done : list string) (P : gset (string * string))
    (cur : list GlobResponse) (seen : gset string) : Prop := {
  inv_names : ∀ k m, fm !! k = Some m →
                ∃ m', cur !! k = Some m' ∧ Name m' = Name m;
  inv_origin : ∀ m, m ∈ cur → Name m ∈ names fm ∨ Name m ∈ done;
  inv_nodup : NoDup (pairs cur);
  inv_seen : ∀ k, k ∈ seen → ∃ p, p ∈ pairs cur ∧ key_of p = k;
  inv_keys : ∀ p, p ∈ pairs cur → p.1 ∈ names fm → key_of p ∈ seen;
  inv_dom : ∀ p, p ∈ pairs cur → p ∈ dom;
  inv_pairs : pair_set cur = P
}.

(** What the loop maintains whether or not keys collide: the metrics of
    [first] keep their places and names, no pair occurs twice, every pair
    that [first] came with is still there, every pair comes from one of
    the two responses, and the metrics of [second] appended so far (their
    names are [done]) are there with all their pairs. *)
Record nodup_inv (fm sm : list GlobResponse) (done : list string)
    (cur : list GlobResponse) (seen : gset string) : Prop := {
  ni_names : ∀ k m, fm !! k = Some m →
               ∃ m', cur !! k = Some m' ∧ Name m' = Name m;
  ni_origin : ∀ m, m ∈ cur → Name m ∈ names fm ∨ Name m ∈ done;
  ni_nodup : NoDup (pairs cur);
  ni_keys : ∀ p, p ∈ pairs cur → p.1 ∈ names fm → key_of p ∈ seen;
  ni_first : ∀ p, p ∈ pairs fm → p ∈ pairs cur;
  ni_from : ∀ p, p ∈ pairs cur → p ∈ pairs fm ∨ p ∈ pairs sm;
  ni_new : ∀ p, p ∈ pairs sm → p.1 ∈ done → p ∈ pairs cur
}.

(** Responses to run [Merge] on. *)
Definition no_stats : Types.Stats :=
  {| Types.Servers := []; Types.FailedServers := []; Types.RenderErrors := 0;
     Types.FindErrors := 0; Types.MemoryUsage := 0 |}.

Definition response (ms : list GlobResponse) : ServerFindResponse :=
  {| Response := Some ms; Stats := no_stats; Err := None |}.

Definition leaf (path : string) : GlobMatch :=
  {| Path := path; IsLeaf := true |}.

(** Two responses whose keys collide: "a" + "." + "b.c" = "a.b" + "." + "c". *)
Definition colliding_A : list GlobResponse :=
  [ {| Name := "a"; Matches := [leaf "b.c"] |};
    {| Name := "a.b"; Matches := [leaf "d"] |} ].

Definition colliding_B : list GlobResponse :=
  [ {| Name := "a.b"; Matches := [leaf "c"] |} ].

(** Two responses of a backend pair for the globs "a.*" and "b.*". *)
Definition globs_A : list GlobResponse :=
  [ {| Name := "a.*"; Matches := [leaf "a.b"; leaf "a.c"] |} ].

Definition globs_B : list GlobResponse :=
  [ {| Name := "a.*"; Matches := [leaf "a.c"; leaf "a.d"] |};
    {| Name := "b.*"; Matches := [leaf "b.x"] |} ].

(** What merging [colliding_A] into [colliding_B] gives. *)
Definition colliding_BA : list GlobResponse :=
  [ {| Name := "a.b"; Matches := [leaf "c"; leaf "d"] |};
    {| Name := "a"; Matches := [leaf "b.c"] |} ].

End Find.

(** ** HTTP retry driver ([zipper/helper], HttpQuery) *)

Module Helper.

Record ServerResponse : Type := mkServerResponse {
  Server : string;
  Response : list Byte.byte
}.

(** The fields of [HttpQuery] that are fixed at construction; the mutable
    [counter] is the state threaded through the calls. *)
Record HttpQuery : Type := mkHttpQuery {
  groupName : string;
  servers : list string;
  maxTries : Z
}.

(** What one attempt does to the outside, in the order it happens; [Return]
    records the error result of a [doRequest] call. *)
Inductive event : Type :=
| PickServer
| Enter (key : string) (err : option error)
| Leave (key : string)
| Do (url : string)
| CloseBody
| Return (err : option error).

Global Instance event_eq_dec : EqDecision event.
Proof. solve_decision. Defined.

(** The answers of the libraries and of the backend during one attempt:
    [url.Parse], [http.NewRequest], [limiter.Enter] (by key), [client.Do]
    (a transport error or a status code) and [ioutil.ReadAll]. *)
Record Attempt : Type := mkAttempt {
  url_Parse : string → option error;
  http_NewRequest : string → option error;
  limiter_Enter : string → option error;
  client_Do : string → error + Z;
  ioutil_ReadAll : error + list Byte.byte
}.

(** Calls on an [HttpQuery]: from the counter to an outcome, the new counter
    and the events of the call. *)
Definition M (A : Type) : Type := Z → outcome A * Z * list event.

Definition ret {A} (a : A) : M A := λ s, (Returned a, s, []).

Definition bind {A B} (m : M A) (k : A → M B) : M B := λ s,
  match m s with
  | (Returned a, s', l) => let '(r, s'', l') := k a s' in (r, s'', l ++ l')
  | (Panicked, s', l) => (Panicked, s', l)
  | (OutOfFuel, s', l) => (OutOfFuel, s', l)
  end.

Definition emit (e : event) : M unit := λ s, (Returned tt, s, [e]).

Definition lift {A} (o : outcome A) : M A := λ s, (o, s, []).

(** [defer d] around [body]: [d] runs when [body] is left, also by a panic. *)
Definition defer {A} (d : M unit) (body : M A) : M A := λ s,
  let '(r, s', l) := body s in
  let '(_, s'', l') := d s' in (r, s'', l ++ l').

(** [atomic.AddUint64(&c.counter, delta)]. *)
Definition atomic_AddUint64 (delta : Z) : M Z := λ s,
  let s' := wrapU64 (s + delta) in (Returned s', s', []).

Global Instance M_ret : MRet M := @ret.
Global Instance M_bind : MBind M := λ A B k m, bind m k.

Definition uint64_rem (x y : Z) : outcome Z :=
  if decide (y = 0) then Panicked else Returned (x `mod` y).

Definition pickServer (c : HttpQuery) : M string :=
  _ ← emit PickServer;
  if decide (length (servers c) = 1%nat) then lift (index (servers c) 0)
  else
    counter ← atomic_AddUint64 1;
    idx ← lift (uint64_rem counter (Z.of_nat (length (servers c))));
    lift (index (servers c) idx).

Definition StatusOK : Z := 200.
Definition StatusNotFound : Z := 404.

Definition result : Type := option ServerResponse * option error.

Definition doRequest (c : HttpQuery) (a : Attempt) (uri : string) : M result :=
  server ← pickServer c;
  r ← match url_Parse a (server +:+ uri) with
      | Some e => ret (None, Some e)
      | None =>
      let u := server +:+ uri in
      match http_NewRequest a u with
      | Some e => ret (None, Some e)
      | None =>
      _ ← emit (Enter (groupName c) (limiter_Enter a (groupName c)));
      match limiter_Enter a (groupName c) with
      | Some e => ret (None, Some e)
      | None =>
      defer (emit (Leave server)) (
        _ ← emit (Do u);
        match client_Do a u with
        | inl e => ret (None, Some e)
        | inr status =>
        defer (emit CloseBody) (
          if decide (status = StatusNotFound) then ret (None, Some ErrNotFound)
          else if decide (status ≠ StatusOK)
          then ret (None, Some (ErrFailedToFetch (groupName c) status))
          else
            match ioutil_ReadAll a with
            | inl e => ret (None, Some e)
            | inr body =>
                ret (Some {| Server := server; Response := body |}, None)
            end)
        end)
      end end end;
  _ ← emit (Return r.2);
  ret r.

(** The loop of [DoQuery] with [n] turns left; [err] is the variable of that
    name, [env try] the outside world during attempt number [try]. *)
Fixpoint DoQuery_loop (c : HttpQuery) (env : nat → Attempt) (uri : string)
    (n : nat) (try : nat) (err : option error) : M result :=
  match n with
  | O => ret (None, err)
  | Datatypes.S n' =>
      r ← doRequest c (env try) uri;
      match r.2 with
      | Some e =>
          if decide (e = ErrNotFound) then ret (None, Some e)
          else DoQuery_loop c env uri n' (Datatypes.S try) (Some e)
      | None => ret (r.1, None)
      end
  end.

Definition attempts (c : HttpQuery) : Z :=
  if decide (Z.of_nat (length (servers c)) > maxTries c)
  then Z.of_nat (length (servers c)) else maxTries c.

Definition DoQuery (c : HttpQuery) (env : nat → Attempt) (uri : string)
    : M result :=
  DoQuery_loop c env uri (Z.to_nat (attempts c)) 0 None.

(** *** Reading a run *)

(** The number of attempts in a run: every [doRequest] starts with one call
    of [pickServer]. *)
Definition picks (l : list event) : nat :=
  length (filter (λ e, e = PickServer) l).

(** The error results of the attempts that returned, in order. *)
Definition returns (l : list event) : list (option error) :=
  omap (λ e, if e is Return r then Some r else None) l.

(** The error of the last attempt that returned, nil if there is none. *)
Definition last_error (l : list event) : option error :=
  default None (last (returns l)).

(** An attempt result that makes the loop go on. *)
Definition retryable (r : option error) : Prop :=
  ∃ e, r = Some e ∧ e ≠ ErrNotFound.

(** Events that are neither the start nor the end of an attempt. *)
Definition inner (e : event) : bool :=
  match e with
  | PickServer | Return _ => false
  | _ => true
  end.

(** A run stops at the first attempt that returns the error [e]. *)
Definition short_circuits (e : error) (run : outcome result * Z * list event)
    : Prop :=
  ∀ pre post,
    run.2 = pre ++ Return (Some e) :: post →
    post = [] ∧ run.1.1 = Returned (None, Some e).

(** The runs of the retry loop with [n] turns left. *)
Inductive loop_run : nat → option error → outcome result → list event → Prop :=
| run_exhausted err :
    loop_run O err (Returned (None, err)) []
| run_panic n err :
    loop_run (Datatypes.S n) err Panicked [PickServer]
| run_success n err body res :
    forallb inner body = true →
    loop_run (Datatypes.S n) err (Returned (Some res, None))
             (PickServer :: body ++ [Return None])
| run_not_found n err body :
    forallb inner body = true →
    loop_run (Datatypes.S n) err (Returned (None, Some ErrNotFound))
             (PickServer :: body ++ [Return (Some ErrNotFound)])
| run_retry n err e body r l :
    forallb inner body = true →
    e ≠ ErrNotFound →
    loop_run n (Some e) r l →
    loop_run (Datatypes.S n) err r (PickServer :: body ++ Return (Some e) :: l).

(** Slots of the limiter taken and not given back under [key]. *)
Definition held (key : string) (l : list event) : Z :=
  Z.of_nat (length (filter (λ e, e = Enter key None) l))
  - Z.of_nat (length (filter (λ e, e = Leave key) l)).

(** [k] calls of [pickServer] one after the other, as [k] attempts make
    them; the servers picked, in order. *)
Fixpoint pick_many (c : HttpQuery) (k : nat) : M (list string) :=
  match k with
  | O => ret []
  | Datatypes.S k' =>
      srv ← pickServer c;
      rest ← pick_many c k';
      ret (srv :: rest)
  end.

(** Slots taken and slots given back in a run, under whatever key. *)
Definition is_acquire (e : event) : bool :=
  if e is Enter _ None then true else false.

Definition is_release (e : event) : bool :=
  if e is Leave _ then true else false.

Definition acquired (l : list event) : nat :=
  length (filter (λ e, is_acquire e = true) l).

Definition released (l : list event) : nat :=
  length (filter (λ e, is_release e = true) l).

(** Worlds to run the driver in. *)
Definition healthy : Attempt :=
  {| url_Parse := λ _, None; http_NewRequest := λ _, None;
     limiter_Enter := λ _, None; client_Do := λ _, inr StatusOK;
     ioutil_ReadAll := inr [] |}.

Definition answering (status : Z) : Attempt :=
  {| url_Parse := λ _, None; http_NewRequest := λ _, None;
     limiter_Enter := λ _, None; client_Do := λ _, inr status;
     ioutil_ReadAll := inr [] |}.

(** A backend that answers 500 on the first attempt and 404 afterwards. *)
Definition failing_then_missing (try : nat) : Attempt :=
  if try is O then answering 500 else answering StatusNotFound.

(** The caller's cancellation signal has fired: the limiter, the transport
    and the body read all give up with the cancellation error. *)
Definition cancelled : Attempt :=
  {| url_Parse := λ _, None; http_NewRequest := λ _, None;
     limiter_Enter := λ _, Some ErrCancelled; client_Do := λ _, inl ErrCancelled;
     ioutil_ReadAll := inl ErrCancelled |}.

End Helper.

(** ** gRPC group client ([zipper/protocols/grpc/grpc_group.go]) *)

Module GRPC.

(** The generated protocol messages: all the group client asks of them is
    their [Size()]. *)
Class Message (T : Type) : Type := Size : T → Z.

Record ClientGRPCGroup : Type := mkClientGRPCGroup {
  groupName : string;
  servers : list string
}.

Definition Name (c : ClientGRPCGroup) : string := groupName c.

(** What a unary RPC of [protov3grpc.CarbonV1Client] hands back:
    [(res *T, err error)], either of which may be nil. *)
Definition rpc (T : Type) : Type := (option T * option error)%type.

Definition ZipperInfoResponse (T : Type) : Type := gmap string T.

Section Operations.

(** What the generated [Size()] does on a nil receiver: it returns a number,
    or ([None]) it panics.  The method lives in the protocol package, outside
    the repository. *)
Variable nilSize : option Z.

Context {MultiFetchResponse MultiGlobResponse MultiMetricsInfoResponse
         ListMetricsResponse MetricDetailsResponse : Type}
        `{!Message MultiFetchResponse, !Message MultiGlobResponse,
          !Message MultiMetricsInfoResponse, !Message ListMetricsResponse,
          !Message MetricDetailsResponse}.

Definition res_Size {T} `{!Message T} (res : option T) : outcome Z :=
  match res with
  | Some m => Returned (Size m)
  | None => if nilSize is Some n then Returned n else Panicked
  end.

(** The statements shared by the five operations: the fresh [stats], and
    the branch [if err != nil]. *)
Definition new_stats (c : ClientGRPCGroup) : Types.Stats :=
  {| Types.Servers := [Name c]; Types.FailedServers := [];
     Types.RenderErrors := 0; Types.FindErrors := 0;
     Types.MemoryUsage := 0 |}.

Definition on_error (err : option error) (stats : Types.Stats) : Types.Stats :=
  match err with
  | Some _ =>
      {| Types.Servers := []; Types.FailedServers := Types.Servers stats;
         Types.RenderErrors := wrap64 (Types.RenderErrors stats + 1);
         Types.FindErrors := Types.FindErrors stats;
         Types.MemoryUsage := Types.MemoryUsage stats |}
  | None => stats
  end.

Definition set_MemoryUsage (n : Z) (stats : Types.Stats) : Types.Stats :=
  {| Types.Servers := Types.Servers stats;
     Types.FailedServers := Types.FailedServers stats;
     Types.RenderErrors := Types.RenderErrors stats;
     Types.FindErrors := Types.FindErrors stats;
     Types.MemoryUsage := n |}.

Definition Fetch (c : ClientGRPCGroup) (FetchMetrics : rpc MultiFetchResponse)
    : outcome (option MultiFetchResponse * Types.Stats * option error) :=
  let '(res, err) := FetchMetrics in
  let stats := on_error err (new_stats c) in
  n ←! res_Size res;
  Returned (res, set_MemoryUsage n stats, err).

Definition Find (c : ClientGRPCGroup) (FindMetrics : rpc MultiGlobResponse)
    : outcome (option MultiGlobResponse * Types.Stats * option error) :=
  let '(res, err) := FindMetrics in
  let stats := on_error err (new_stats c) in
  n ←! res_Size res;
  Returned (res, set_MemoryUsage n stats, err).

Definition Info (c : ClientGRPCGroup)
    (MetricsInfo : rpc MultiMetricsInfoResponse)
    : outcome (option (ZipperInfoResponse MultiMetricsInfoResponse)
               * Types.Stats * option error) :=
  let '(res, err) := MetricsInfo in
  let stats := on_error err (new_stats c) in
  n ←! res_Size res;
  let stats := set_MemoryUsage n stats in
  info ←! deref res;
  Returned (Some {[ Name c := info ]}, stats, err).

Definition List (c : ClientGRPCGroup) (ListMetrics : rpc ListMetricsResponse)
    : outcome (option ListMetricsResponse * Types.Stats * option error) :=
  let '(res, err) := ListMetrics in
  let stats := on_error err (new_stats c) in
  n ←! res_Size res;
  Returned (res, set_MemoryUsage n stats, err).

Definition Stats (c : ClientGRPCGroup) (Stats_rpc : rpc MetricDetailsResponse)
    : outcome (option MetricDetailsResponse * Types.Stats * option error) :=
  let '(res, err) := Stats_rpc in
  let stats := on_error err (new_stats c) in
  n ←! res_Size res;
  Returned (res, set_MemoryUsage n stats, err).

End Operations.

(** *** [ProbeTLDs] *)

(** The two nested [range] loops of lines 213-217 over [res.Metrics], with
    [tlds] the slice appended to. *)
Definition collect_paths (metrics : list Find.GlobResponse) : list string :=
  foldl (λ tlds m,
           foldl (λ tlds v, tlds ++ [Find.Path v]) tlds (Find.Matches m))
        [] metrics.

(** [func (c *ClientGRPCGroup) ProbeTLDs(ctx) ([]string, error)]: a find for
    the glob "*" through [Find], whose stats are dropped.  A
    [MultiGlobResponse] is read through its [Metrics]; a nil slice is the
    empty list. *)
Definition ProbeTLDs (nilSize : option Z)
    `{!Message (list Find.GlobResponse)} (c : ClientGRPCGroup)
    (FindMetrics : rpc (list Find.GlobResponse))
    : outcome (list string * option error) :=
  '(res, _, err) ←! Find nilSize c FindMetrics;
  match err with
  | Some e => Returned ([], Some e)
  | None =>
      metrics ←! deref res;
      Returned (collect_paths metrics, None)
  end.

(** *** [NewClientGRPCGroup] *)

(** The fields of [types.BackendV2] that the constructor reads; [Timeouts]
    is a pointer. *)
Record BackendV2 (T : Type) : Type := mkBackendV2 {
  GroupName : string;
  Servers : list string;
  Timeouts : option T
}.
Arguments GroupName {T} _.
Arguments Servers {T} _.
Arguments Timeouts {T} _.

(** What the constructor does to the gRPC library, in the order it happens:
    it registers a manual resolver, hands it the addresses, dials, and calls
    the resolver's [cleanup]. *)
Inductive setup : Type :=
| RegisterResolver
| NewAddress (addrs : list string)
| Dial
| Cleanup.

Global Instance setup_eq_dec : EqDecision setup.
Proof. solve_decision. Defined.

(** [func NewClientGRPCGroup(config types.BackendV2) (types.ServerClient,
    error)]; [dial] is the error of [grpc.Dial], nil when it connects.  The
    client is returned with the timeouts it copied from the configuration,
    next to the error and the calls made. *)
Definition NewClientGRPCGroup {T} (config : BackendV2 T)
    (dial : option error)
    : outcome (option (ClientGRPCGroup * T) * option error) * list setup :=
  if decide (length (Servers config) = 0%nat)
  then (Returned (None, Some (ErrOther "no servers specified")), [])
  else
    let resolvedAddrs := foldl (λ acc addr, acc ++ [addr]) [] (Servers config) in
    let calls := [RegisterResolver; NewAddress resolvedAddrs; Dial] in
    match dial with
    | Some err => (Returned (None, Some err), calls ++ [Cleanup])
    | None =>
        (timeout ←! deref (Timeouts config);
         Returned (Some ({| groupName := GroupName config;
                            servers := Servers config |}, timeout), None),
         calls)
    end.

(** [NewClientGRPCGroupWithLimiter] passes the configuration on and drops
    the limiter. *)
Definition NewClientGRPCGroupWithLimiter {T L} (config : BackendV2 T)
    (limiter : L) (dial : option error)
    : outcome (option (ClientGRPCGroup * T) * option error) * list setup :=
  NewClientGRPCGroup config dial.

End GRPC.

(** * Properties *)

(** ** Generic facts *)

Lemma obind_Returned {A B} (m : outcome A) (k : A → outcome B) (b : B) :
  obind m k = Returned b → ∃ a, m = Returned a ∧ k a = Returned b.
Proof. destruct m; simpl; intros; [eauto | discriminate..]. Qed.

Lemma index_Returned {A} (s : list A) (idx : Z) (a : A) :
  index s idx = Returned a → 0 ≤ idx ∧ s !! Z.to_nat idx = Some a.
Proof.
  unfold index. case_decide; [discriminate|].
  destruct (s !! Z.to_nat idx) eqn:E; [|discriminate].
  intros [= ->]. split; [lia | done].
Qed.

Ltac inv_obind H :=
  let a := fresh "a" in
  let H1 := fresh H in
  apply obind_Returned in H as (a & H1 & H).

(** An invariant carried through a counted loop. *)
Lemma for_range_inv {S} (P : nat → S → Prop) (body : nat → S → outcome S) :
  (∀ i s s', P i s → body i s = Returned s' → P (Datatypes.S i) s') →
  ∀ n from s s',
    P from s → for_range n from body s = Returned s' → P (from + n)%nat s'.
Proof.
  intros Hstep n. induction n as [|n IH]; simpl; intros from s s' HP Hrun.
  - injection Hrun as <-. by rewrite Nat.add_0_r.
  - inv_obind Hrun. rewrite <- Nat.add_succ_comm. eauto.
Qed.

(** ** Fetch merger *)

Section FetchFacts.
Import Fetch.

(** *** Gap fill *)

Lemma fill_at_step (v1 v2 : list float) (i : nat) (vs vs' : list float) :
  filled_upto v1 v2 i vs → fill_at v2 i vs = Returned vs' →
  filled_upto v1 v2 (Datatypes.S i) vs'.
Proof.
  intros (Hlen & Hdone & Hrest) Hstep. unfold fill_at in Hstep.
  destruct (vs !! i) as [x|] eqn:Hx; [|discriminate].
  assert (Hx1 : v1 !! i = Some x) by (by rewrite <- Hrest).
  destruct (is_nan x) eqn:Hnan; simpl in Hstep.
  - inv_obind Hstep. apply index_Returned in Hstep0 as [_ Hy].
    rewrite Nat2Z.id in Hy.
    assert (Hvs' : vs' = if is_nan a then vs else <[i:=a]> vs)
      by (destruct (is_nan a); simpl in Hstep; congruence).
    clear Hstep. split; [|split].
    + subst vs'. destruct (is_nan a); by rewrite ?length_insert.
    + intros k z Hk Hz. destruct (decide (k = i)) as [->|Hne].
      * rewrite Hx1 in Hz. injection Hz as <-. rewrite Hnan.
        exists a. split; [done|]. subst vs'. destruct (is_nan a); [done|].
        apply list_lookup_insert_eq. by eapply lookup_lt_Some.
      * assert (Hlt : (k < i)%nat) by lia. specialize (Hdone k z Hlt Hz).
        subst vs'. destruct (is_nan a); [done|].
        by rewrite list_lookup_insert_ne.
    + intros k Hk. subst vs'. destruct (is_nan a); [apply Hrest; lia|].
      rewrite list_lookup_insert_ne by lia. apply Hrest; lia.
  - injection Hstep as <-. split; [done|]. split.
    + intros k z Hk Hz. destruct (decide (k = i)) as [->|Hne].
      * rewrite Hx1 in Hz. injection Hz as <-. by rewrite Hnan.
      * apply Hdone; [lia | done].
    + intros k Hk. apply Hrest; lia.
Qed.

Lemma fillGaps_spec (v1 v2 vs : list float) :
  fillGaps v1 v2 = Returned vs →
  length vs = length v1 ∧
  ∀ k x, v1 !! k = Some x →
    if is_nan x
    then ∃ y, v2 !! k = Some y ∧ vs !! k = Some (if is_nan y then x else y)
    else vs !! k = Some x.
Proof.
  unfold fillGaps. intros Hrun.
  apply (for_range_inv (filled_upto v1 v2)) in Hrun.
  - destruct Hrun as (Hlen & Hdone & _). split; [done|].
    intros k x Hk. apply Hdone; [|done]. simpl. by eapply lookup_lt_Some.
  - intros i s s'. apply fill_at_step.
  - split; [done|]. split; [intros; lia | done].
Qed.

(** *** Length equalization *)

Lemma swapFetchResponses_eq (m1 m2 : FetchResponse) :
  swapFetchResponses m1 m2 = (m2, m1).
Proof. by destruct m1, m2. Qed.

Lemma longer_first (m1 m2 : FetchResponse) :
  (length (Values m2) ≤ length (Values m1))%nat → longer m1 m2 = m1.
Proof. intros. unfold longer. by rewrite decide_False by lia. Qed.

Lemma shorter_second (m1 m2 : FetchResponse) :
  (length (Values m2) ≤ length (Values m1))%nat → shorter m1 m2 = m2.
Proof. intros. unfold shorter. by rewrite decide_False by lia. Qed.

(** The padding loop appends [ceil(d / 2)] samples for a difference [d]. *)
Lemma padNaN_spec (len1 : nat) :
  ∀ fuel i v,
    (len1 - (i + length v) ≤ 2 * fuel)%nat →
    padNaN fuel len1 i v
    = v ++ replicate (Nat.div2 (Datatypes.S (len1 - (i + length v)))) nan.
Proof.
  induction fuel as [|fuel IH]; intros i v Hfuel; simpl.
  - replace (len1 - (i + length v))%nat with O by lia. by rewrite app_nil_r.
  - case_decide as Hlt.
    + rewrite IH by (rewrite length_app; simpl; lia).
      rewrite length_app. simpl length. rewrite <- app_assoc. f_equal.
      destruct (len1 - (i + length v))%nat as [|[|d]] eqn:Hd; [lia| |].
      * replace (len1 - _)%nat with O by lia. done.
      * replace (len1 - _)%nat with d by lia. done.
    + replace (len1 - (i + length v))%nat with O by lia. by rewrite app_nil_r.
Qed.

Lemma equalize_spec fuel (m1 m2 : FetchResponse) err a' b' :
  equalize fuel m1 m2 = Returned (err, a', b') →
  (length (Values m1) = length (Values m2) ∧ err = None ∧ a' = m1 ∧ b' = m2)
  ∨ (length (Values m1) ≠ length (Values m2) ∧ a' = longer m1 m2 ∧
     let a := longer m1 m2 in
     let b := shorter m1 m2 in
     (err = Some ErrResponseLengthMismatch ∧ b' = b)
     ∨ (err = None ∧ ¬ StepTime a < StepTime b ∧ StartTime a = StartTime b ∧
        b' = set_Values
               (Values b ++
                replicate (Nat.div2 (Datatypes.S (length (Values a)
                                                  - length (Values b)))) nan) b)
     ∨ (err = None ∧ StepTime a < StepTime b ∧
        ∃ vs, resample fuel a b (StartTime a) [] = Returned vs ∧
              b' = set_grid (StepTime a) (StartTime a) (StopTime a)
                            (set_Values vs b))).
Proof.
  unfold equalize. case_decide as Hlen.
  { intros [= <- <- <-]. by left. }
  intros Hrun. right. split; [done|].
  assert (Hsw : (if decide (length (Values m1) < length (Values m2))%nat
                 then swapFetchResponses m1 m2 else (m1, m2))
                = (longer m1 m2, shorter m1 m2)).
  { unfold longer, shorter. case_decide; [apply swapFetchResponses_eq | done]. }
  rewrite Hsw in Hrun. clear Hsw.
  set (a := longer m1 m2) in *. set (b := shorter m1 m2) in *.
  destruct (bool_decide (StepTime a < StepTime b)) eqn:Hstep; simpl in Hrun.
  - apply bool_decide_eq_true in Hstep.
    inv_obind Hrun. case_decide.
    + injection Hrun as <- <- <-. split; [done|]. left. done.
    + inv_obind Hrun. injection Hrun as <- <- <-. split; [done|].
      right. right. eauto.
  - apply bool_decide_eq_false in Hstep.
    destruct (bool_decide (StartTime a = StartTime b)) eqn:Hstart;
      simpl in Hrun.
    + apply bool_decide_eq_true in Hstart.
      injection Hrun as <- <- <-. split; [done|]. right. left.
      repeat split; [done..|].
      by rewrite padNaN_spec by (simpl; lia).
    + injection Hrun as <- <- <-. split; [done|]. left. done.
Qed.

(** *** Fuel *)

(** More fuel does not change what the resampling loop returns. *)
Lemma resample_fuel_mono (m1 m2 : FetchResponse) :
  ∀ fuel fuel' ts values vs,
    (fuel ≤ fuel')%nat →
    resample fuel m1 m2 ts values = Returned vs →
    resample fuel' m1 m2 ts values = Returned vs.
Proof.
  induction fuel as [|fuel IH]; intros fuel' ts values vs Hle Hrun.
  - destruct fuel'; simpl in *; by case_decide.
  - destruct fuel' as [|fuel']; [lia|]. simpl in *.
    case_decide; [|done].
    destruct (int64_div _ _) as [idx| |]; [|done..]. simpl in *.
    destruct (index _ _) as [v| |]; [|done..]. simpl in *.
    apply (IH fuel'); [lia | done].
Qed.

(** The loop does not end when [m1] has step 0 and a start before its stop:
    no amount of fuel makes this merge return.  (The metrics have unequal
    lengths, [m2] has the larger step and the stop times agree.) *)
Lemma resample_step_zero_diverges (fuel : nat) :
  mergeFetchResponses fuel (series 0 60 0 [1; 2]%float) (series 0 60 60 [5]%float)
  = OutOfFuel.
Proof.
  unfold mergeFetchResponses, equalize. simpl.
  assert (Hloop : ∀ values,
            resample fuel (series 0 60 0 [1; 2]%float)
                     (series 0 60 60 [5]%float) 0 values = OutOfFuel).
  { induction fuel as [|fuel IH]; intros values; [done|]. simpl. apply IH. }
  by rewrite Hloop.
Qed.

(** *** The cases of [TestMergeValues] *)

Example test_simple_1 :
  ∃ m2',
    mergeFetchResponses 10 (series 60 660 60 one_to_ten)
                           (series 0 600 120 odd_to_nine)
    = Returned (None, series 60 660 60 one_to_ten, m2').
Proof. eexists. reflexivity. Qed.

Example test_simple_2 :
  ∃ m2',
    mergeFetchResponses 10 (series 0 600 120 odd_to_nine)
                           (series 60 660 60 one_to_ten)
    = Returned (None, series 60 660 60 one_to_ten, m2').
Proof. eexists. reflexivity. Qed.

Example test_fill_the_gaps_simple :
  ∃ m2',
    mergeFetchResponses 0 (series 60 1260 60 gaps_a) (series 60 1260 60 gaps_b)
    = Returned
        (None,
         series 60 1260 60
           [1; 2; 3; 4; 5; 6; 7; 8; 9; nan; 11; 12; 13; 14; 15; 16; 17; 18;
            nan; 20]%float, m2').
Proof. eexists. reflexivity. Qed.

Example test_fill_the_gaps_1 :
  ∃ m2',
    mergeFetchResponses 20 (series 0 1200 120 gaps_c) (series 60 1260 60 gaps_b)
    = Returned
        (None,
         series 60 1260 60 gaps_bc, m2').
Proof. eexists. reflexivity. Qed.

Example test_fill_end_of_metric :
  ∃ m2',
    mergeFetchResponses 0 (series 60 1200 60 gaps_d) (series 60 1260 60 gaps_b)
    = Returned
        (None,
         series 60 1260 60
           [1; 2; 3; 4; 5; 6; 7; 8; 9; nan; 11; 12; 13; 14; 15; 16; 17; 18;
            nan; 20]%float, m2').
Proof. eexists. reflexivity. Qed.

(** *** The pair-merge *)

Lemma mergeFetchResponses_ok fuel (m1 m2 m1' m2' : FetchResponse) :
  mergeFetchResponses fuel m1 m2 = Returned (None, m1', m2') →
  ∃ a vs,
    equalize fuel m1 m2 = Returned (None, a, m2') ∧
    StartTime a = StartTime m2' ∧
    fillGaps (Values a) (Values m2') = Returned vs ∧
    m1' = set_Values vs a.
Proof.
  unfold mergeFetchResponses. intros Hrun. inv_obind Hrun.
  destruct a as [[[e|] a] b]; [discriminate|].
  case_decide as Hstart; [discriminate|].
  inv_obind Hrun. injection Hrun as <- <-.
  exists a, a0. repeat split; try done.
Qed.

Lemma equalize_longer fuel (m1 m2 : FetchResponse) err a b :
  equalize fuel m1 m2 = Returned (err, a, b) → a = longer m1 m2.
Proof.
  intros [(Hlen & _ & -> & _)|(_ & -> & _)]%equalize_spec; [|done].
  unfold longer. case_decide; [lia | done].
Qed.

(** C2, as amended.  When the pair-merge returns without error, the merged
    series has the length of the longer of the two metrics and is the
    first-writer-wins gap fill of that longer metric from the grid-aligned
    samples of the other one; the longer metric is the first argument unless
    the first argument has fewer samples than the second. *)
Theorem fetch_merge_longer_wins fuel (m1 m2 m1' m2' : FetchResponse) :
  mergeFetchResponses fuel m1 m2 = Returned (None, m1', m2') →
  length (Values m1') = length (Values (longer m1 m2)) ∧
  first_writer_wins (Values (longer m1 m2)) (Values m2') (Values m1').
Proof.
  intros (a & vs & Heq & _ & Hfill & ->)%mergeFetchResponses_ok.
  apply equalize_longer in Heq as <-.
  apply fillGaps_spec in Hfill as [Hlen Hfill]. simpl. split; [done|].
  intros i x Hx. specialize (Hfill i x Hx). split.
  - intros Hnan. by rewrite Hnan in Hfill.
  - intros Hnan y Hy Hynan. rewrite Hnan in Hfill.
    destruct Hfill as (y' & Hy' & Hvs). rewrite Hy in Hy'.
    injection Hy' as <-. by rewrite Hynan in Hvs.
Qed.

Lemma fetch_merge_longer_wins_witness :
  let A := series 0 1200 120 gaps_c in
  let B := series 60 1260 60 gaps_b in
  let merged := series 60 1260 60 gaps_bc in
  let aligned := series 60 1260 60 gaps_c_aligned in
  mergeFetchResponses 20 A B = Returned (None, merged, aligned)
  ∧ length (Values merged) = length (Values (longer A B))
  ∧ first_writer_wins (Values (longer A B)) (Values aligned) (Values merged).
Proof.
  split; [reflexivity|].
  apply (fetch_merge_longer_wins 20 (series 0 1200 120 gaps_c)
                                 (series 60 1260 60 gaps_b)).
  reflexivity.
Defined.

(** The first argument itself does not win when it is the shorter one.  In
    the case "fill the gaps 1" of [TestMergeValues] the first metric has the
    sample 5 at index 2 and the merged series, as the test expects it, has NaN
    there. *)
Lemma fetch_merge_first_argument_loses :
  ¬ ∀ fuel m1' m2',
      mergeFetchResponses fuel (series 0 1200 120 gaps_c)
                               (series 60 1260 60 gaps_b)
      = Returned (None, m1', m2') →
      first_writer_wins gaps_c (Values m2') (Values m1').
Proof.
  intros H.
  destruct (H 20%nat (series 60 1260 60 gaps_bc)
              (series 60 1260 60 gaps_c_aligned) eq_refl 2%nat 5%float eq_refl)
    as [Hkeep _].
  specialize (Hkeep eq_refl).
  apply (f_equal (λ o, if o is Some f then PrimFloat.eqb f 5 else false))
    in Hkeep.
  discriminate Hkeep.
Qed.

(** C3.  When the start times of the pair differ once the lengths have been
    equalized, the pair-merge returns [ErrResponseStartTimeMismatch] and both
    metrics are exactly as they were passed in. *)
Theorem fetch_merge_start_time_mismatch fuel (m1 m2 a b : FetchResponse) :
  equalize fuel m1 m2 = Returned (None, a, b) →
  StartTime a ≠ StartTime b →
  ∀ fuel',
    mergeFetchResponses fuel' m1 m2
    = Returned (Some ErrResponseStartTimeMismatch, m1, m2).
Proof.
  intros Heq Hstart fuel'.
  apply equalize_spec in Heq
    as [(Hlen & _ & -> & ->)|(_ & -> & [[? _]|[Hpad|Hres]])].
  - unfold mergeFetchResponses, equalize.
    rewrite decide_True by done. simpl. by rewrite decide_True.
  - discriminate.
  - destruct Hpad as (_ & _ & Heqs & ->). by destruct Hstart.
  - destruct Hres as (_ & _ & vs & _ & ->). by destruct Hstart.
Qed.

Lemma fetch_merge_start_time_mismatch_witness :
  let A := series 0 600 60 one_to_ten in
  let B := series 60 660 60 one_to_ten in
  equalize 0 A B = Returned (None, A, B)
  ∧ StartTime A ≠ StartTime B
  ∧ ∀ fuel',
      mergeFetchResponses fuel' A B
      = Returned (Some ErrResponseStartTimeMismatch, A, B).
Proof.
  split; [reflexivity|]. split; [discriminate|].
  apply (fetch_merge_start_time_mismatch 0 (series 0 600 60 one_to_ten)
           (series 60 660 60 one_to_ten) (series 0 600 60 one_to_ten)
           (series 60 660 60 one_to_ten)); [reflexivity | discriminate].
Defined.

(** The mismatch is only ever reported for metrics of equal length, which the
    equalization does not touch. *)
Lemma start_time_mismatch_equal_length fuel (m1 m2 m1' m2' : FetchResponse) :
  mergeFetchResponses fuel m1 m2
  = Returned (Some ErrResponseStartTimeMismatch, m1', m2') →
  length (Values m1) = length (Values m2) ∧ m1' = m1 ∧ m2' = m2.
Proof.
  unfold mergeFetchResponses. intros Hrun. inv_obind Hrun.
  destruct a as [[err a] b].
  apply equalize_spec in Hrun0
    as [(? & -> & -> & ->)|(_ & -> & [[-> ->]|[Hpad|Hres]])].
  - case_decide; [by injection Hrun as <- <-|].
    by destruct (fillGaps _ _).
  - by injection Hrun.
  - destruct Hpad as (-> & _ & Heqs & ->).
    rewrite decide_False in Hrun by (simpl; by intros []).
    by destruct (fillGaps _ _).
  - destruct Hres as (-> & _ & vs & _ & ->).
    rewrite decide_False in Hrun by (simpl; by intros []).
    by destruct (fillGaps _ _).
Qed.

(** C10, as amended.  On a pair of unequal length the pair-merge first makes
    [m1] the longer metric (all fields trade places when the first one is the
    shorter); then it either rejects the pair with
    [ErrResponseLengthMismatch] and leaves it as swapped, or right-pads the
    samples of [m2] with NaN and keeps its step, start and stop, or replaces
    the samples of [m2] by the resampled ones and its step, start and stop by
    those of [m1].  When the first argument is the longer one and the merge
    succeeds, the second metric is no longer what the caller passed. *)
Theorem fetch_merge_second_argument fuel (m1 m2 m1' m2' : FetchResponse) err :
  length (Values m1) ≠ length (Values m2) →
  mergeFetchResponses fuel m1 m2 = Returned (err, m1', m2') →
  let a := longer m1 m2 in
  let b := shorter m1 m2 in
  ((err = Some ErrResponseLengthMismatch ∧ m1' = a ∧ m2' = b)
   ∨ (err = None ∧ ¬ StepTime a < StepTime b ∧ StartTime a = StartTime b ∧
      ∃ k, (0 < k ≤ length (Values a) - length (Values b))%nat ∧
           m2' = set_Values (Values b ++ replicate k nan) b)
   ∨ (err = None ∧ StepTime a < StepTime b ∧
      ∃ vs, resample fuel a b (StartTime a) [] = Returned vs ∧
            m2' = set_grid (StepTime a) (StartTime a) (StopTime a)
                           (set_Values vs b)))
  ∧ (err = None → (length (Values m2) < length (Values m1))%nat → m2' ≠ m2).
Proof.
  intros Hlen Hrun a b. unfold mergeFetchResponses in Hrun. inv_obind Hrun.
  destruct a0 as [[e a'] b'].
  apply equalize_spec in Hrun0 as [(? & _)|(_ & -> & Hcases)]; [done|].
  fold a b in Hcases.
  assert (Hab : (length (Values b) < length (Values a))%nat).
  { clear Hcases Hrun. subst a b. unfold longer, shorter.
    destruct (decide (length (Values m1) < length (Values m2))%nat); lia. }
  assert (Hb' : m2' = b' ∧ e = err ∨ err = Some ErrResponseStartTimeMismatch).
  { destruct e; [injection Hrun as <- <- <-; by left|].
    case_decide; [injection Hrun as <- <- <-; by right|].
    inv_obind Hrun. injection Hrun as <- <- <-. by left. }
  destruct Hcases as [[-> ->]|[Hpad|Hres]].
  - injection Hrun as <- <- <-. split; [by left | done].
  - destruct Hpad as (-> & Hstep & Hstart & ->).
    destruct Hb' as [[-> <-] | ->]; cycle 1.
    { simpl in Hrun. rewrite decide_False in Hrun by (by intros []).
      by destruct (fillGaps _ _). }
    destruct (length (Values a) - length (Values b))%nat as [|d] eqn:Hd;
      [lia|].
    assert (Hk : (0 < Nat.div2 (Datatypes.S (Datatypes.S d))
                  ≤ Datatypes.S d)%nat).
    { simpl. pose proof (Nat.le_div2_diag_l d) as Hle.
      revert Hle. generalize (Nat.div2 d). intros; lia. }
    split; [right; left; eauto 10|].
    intros _ Hlt Heq. apply (f_equal (λ m, length (Values m))) in Heq.
    subst a b.
    rewrite (shorter_second m1 m2) in Heq by lia.
    cbn [Values set_Values] in Heq.
    rewrite length_app, length_replicate in Heq.
    revert Hk Heq. generalize (Nat.div2 (Datatypes.S (Datatypes.S d))).
    intros; lia.
  - destruct Hres as (-> & Hstep & vs & Hvs & ->).
    destruct Hb' as [[-> <-] | ->]; cycle 1.
    { simpl in Hrun. rewrite decide_False in Hrun by (by intros []).
      by destruct (fillGaps _ _). }
    split; [right; right; eauto|].
    intros _ Hlt Heq. apply (f_equal StepTime) in Heq. simpl in Heq.
    subst a b.
    rewrite (longer_first m1 m2), (shorter_second m1 m2) in * by lia. lia.
Qed.

Lemma fetch_merge_second_argument_witness :
  let A := series 60 660 60 one_to_ten in
  let B := series 0 600 120 odd_to_nine in
  let B' := series 60 660 60 [1; 1; 3; 3; 5; 5; 7; 7; 9; 9]%float in
  length (Values A) ≠ length (Values B)
  ∧ mergeFetchResponses 10 A B = Returned (None, A, B')
  ∧ B' ≠ B.
Proof.
  split; [discriminate|]. split; [reflexivity|].
  apply (fetch_merge_second_argument 10 (series 60 660 60 one_to_ten)
           (series 0 600 120 odd_to_nine) (series 60 660 60 one_to_ten)
           (series 60 660 60 [1; 1; 3; 3; 5; 5; 7; 7; 9; 9]%float) None);
    [discriminate | reflexivity | reflexivity | simpl; lia].
Defined.

(** A successful merge of an unequal-length pair after which the second
    metric is, field for field, what it was: the first argument is the
    shorter one, so the metrics are swapped and the padding restores the
    samples that the second one came with. *)
Lemma fetch_merge_second_argument_kept :
  length (Values (series 0 120 60 [1]%float))
  ≠ length (Values (series 0 120 60 [1; nan]%float))
  ∧ mergeFetchResponses 0 (series 0 120 60 [1]%float)
                          (series 0 120 60 [1; nan]%float)
    = Returned (None, series 0 120 60 [1; nan]%float,
                series 0 120 60 [1; nan]%float)
  ∧ ¬ second_replaced (series 0 120 60 [1]%float)
                      (series 0 120 60 [1; nan]%float).
Proof.
  split; [discriminate|]. split; [reflexivity|].
  intros H. by apply (H O None (series 0 120 60 [1; nan]%float)
                        (series 0 120 60 [1; nan]%float)).
Qed.

(** *** The response-level merge *)

(** C1 at a failing input.  [first] holds the metrics x and y, [second] holds
    y and z.  The y of [second] is found in the index at position 1 of
    [first], and the pair-merge is then called on position 0 of [first] (x)
    and position 1 of [second] (z): the gap of x is filled from z, and the y
    of [first] receives nothing from the y of [second]. *)
Theorem fetch_response_merge_crossed_indices :
  Merge 0 (response [metric "x" [nan; 1]%float; metric "y" [nan; nan]])
          (response [metric "y" [5; 6]%float; metric "z" [7; 8]%float])
  = Returned
      (response [metric "x" [7; 1]%float; metric "y" [nan; nan];
                 metric "z" [7; 8]%float],
       response [metric "y" [5; 6]%float; metric "z" [7; 8]%float]).
Proof. reflexivity. Qed.

(** With the same crossed positions a name of [second] that [first] has at a
    position beyond the end of [second] makes the merge panic. *)
Lemma fetch_response_merge_out_of_range :
  Merge 0 (response [metric "x" [1; 2]%float; metric "y" [3; 4]%float])
          (response [metric "y" [5; 6]%float])
  = Panicked.
Proof. reflexivity. Qed.

End FetchFacts.





(** ** HTTP retry driver *)

Section HelperFacts.
Import Helper.

Lemma pickServer_spec (c : HttpQuery) (s : Z) :
  (∃ srv s', pickServer c s = (Returned srv, s', [PickServer]) ∧
             srv ∈ servers c)
  ∨ (servers c = [] ∧ ∃ s', pickServer c s = (Panicked, s', [PickServer])).
Proof.
  unfold pickServer, mbind, M_bind, bind, emit, lift, atomic_AddUint64. simpl.
  case_decide as Hone.
  - left. destruct (servers c) as [|srv [|]]; try discriminate.
    exists srv, s. split; [done | by left].
  - unfold uint64_rem. case_decide as Hlen; simpl.
    + right. split; [|eauto]. destruct (servers c); [done | simpl in Hlen; lia].
    + left. unfold index.
      assert (Hidx : 0 ≤ wrapU64 (s + 1) `mod` Z.of_nat (length (servers c))
                     < Z.of_nat (length (servers c)))
        by (apply Z.mod_pos_bound; lia).
      rewrite decide_False by lia.
      destruct (lookup_lt_is_Some_2 (servers c)
        (Z.to_nat (wrapU64 (s + 1) `mod` Z.of_nat (length (servers c)))))
        as [srv Hsrv]; [lia|].
      rewrite Hsrv. eexists _, _. split; [done|].
      by eapply list_elem_of_lookup_2.
Qed.

(** One attempt: a pick, inner events, and the return; or the panic of
    [pickServer] on an empty server list. *)
Lemma doRequest_spec (c : HttpQuery) (a : Attempt) (uri : string) (s : Z) :
  (∃ r s' body,
     doRequest c a uri s = (Returned r, s', PickServer :: body ++ [Return r.2]) ∧
     forallb inner body = true ∧
     (r.2 = None → ∃ res, r.1 = Some res))
  ∨ (servers c = [] ∧ ∃ s', doRequest c a uri s = (Panicked, s', [PickServer])).
Proof.
  unfold doRequest, mbind, M_bind, bind.
  destruct (pickServer_spec c s) as [(srv & s' & -> & _)|[Hnil (s' & ->)]];
    [left | right; eauto].
  unfold defer, emit, ret.
  destruct (url_Parse a _); [by eexists _, _, [] |].
  destruct (http_NewRequest a _); [by eexists _, _, [] |]. simpl.
  destruct (limiter_Enter a _); [by eexists _, _, [_] |].
  destruct (client_Do a _) as [e|status]; [by eexists _, _, [_; _; _] |].
  case_decide; [by eexists _, _, [_; _; _; _] |].
  case_decide; [by eexists _, _, [_; _; _; _] |].
  destruct (ioutil_ReadAll a); [by eexists _, _, [_; _; _; _] |].
  exists (Some {| Server := srv; Response := l |}, None), s',
    [Enter (groupName c) None; Do (srv +:+ uri); CloseBody; Leave srv].
  simpl. eauto.
Qed.

(** Every run of the loop is a [loop_run]. *)
Lemma DoQuery_loop_run (c : HttpQuery) (env : nat → Attempt) (uri : string) :
  ∀ n try err s,
    loop_run n err (DoQuery_loop c env uri n try err s).1.1
             (DoQuery_loop c env uri n try err s).2.
Proof.
  induction n as [|n IH]; intros try err s; simpl.
  - constructor.
  - unfold mbind, M_bind, bind.
    destruct (doRequest_spec c (env try) uri s)
      as [([res [e|]] & s' & body & -> & Hbody & Hres)|[_ (s' & ->)]];
      simpl in *.
    + case_decide as He.
      * subst e. unfold ret. simpl. rewrite app_nil_r.
        by apply run_not_found.
      * specialize (IH (Datatypes.S try) (Some e) s').
        destruct (DoQuery_loop c env uri n (Datatypes.S try) (Some e) s')
          as [[r s''] l]. simpl in *.
        rewrite <- app_assoc. simpl. by apply run_retry.
    + destruct (Hres eq_refl) as [res' ->]. unfold ret. simpl.
      rewrite app_nil_r. by apply run_success.
    + apply run_panic.
Qed.

(** *** Reading the events of a run *)

Lemma picks_inner (body : list event) :
  forallb inner body = true → picks body = O.
Proof.
  unfold picks. induction body as [|e body IH]; [done|]. simpl.
  intros [He Hbody]%andb_prop. rewrite filter_cons.
  case_decide; [by subst e | auto].
Qed.

Lemma picks_attempt (body rest : list event) :
  forallb inner body = true →
  picks (PickServer :: body ++ rest) = Datatypes.S (picks rest).
Proof.
  intros Hbody. unfold picks. rewrite filter_cons, decide_True by done.
  simpl. rewrite filter_app, length_app.
  fold (picks body). by rewrite picks_inner.
Qed.

Lemma picks_return (x : option error) (l : list event) :
  picks (Return x :: l) = picks l.
Proof. unfold picks. by rewrite filter_cons, decide_False. Qed.

Lemma returns_attempt (body rest : list event) (x : option error) :
  forallb inner body = true →
  returns (PickServer :: body ++ Return x :: rest) = x :: returns rest.
Proof.
  intros Hbody. unfold returns. simpl. rewrite omap_app. simpl.
  replace (omap _ body) with (@nil (option error)); [done|].
  induction body as [|e body IH]; [done|]. simpl in *.
  apply andb_prop in Hbody as [He Hbody]. destruct e; try done; by apply IH.
Qed.

(** Where a [Return] can sit in the events of an attempt followed by
    [rest]: at the end of the attempt, or inside [rest]. *)
Lemma attempt_split (body rest pre post : list event) (x y : option error) :
  forallb inner body = true →
  PickServer :: body ++ Return x :: rest = pre ++ Return y :: post →
  (pre = PickServer :: body ∧ x = y ∧ post = rest)
  ∨ (∃ pre', pre = PickServer :: body ++ Return x :: pre' ∧
             rest = pre' ++ Return y :: post).
Proof.
  intros Hbody Heq. destruct pre as [|p pre]; [discriminate|].
  injection Heq as <- Heq.
  revert pre Heq. induction body as [|e body IH]; intros pre Heq; simpl in *.
  - destruct pre as [|p pre]; simpl in Heq.
    + injection Heq as -> ->. by left.
    + injection Heq as <- ->. right. by exists pre.
  - apply andb_prop in Hbody as [He Hbody].
    destruct pre as [|p pre]; simpl in Heq.
    + injection Heq as -> _. discriminate.
    + injection Heq as <- Heq.
      destruct (IH Hbody pre Heq) as [([= ->] & -> & ->)|(pre' & [= ->] & ->)].
      * by left.
      * right. by exists pre'.
Qed.

(** *** Runs of the retry loop *)

Lemma loop_run_picks n err r l : loop_run n err r l → (picks l ≤ n)%nat.
Proof.
  induction 1 as [err|n err|n err body res Hbody|n err body Hbody
                  |n err e body r l Hbody He Hrun IH].
  - done.
  - change [PickServer] with (PickServer :: [] ++ []).
    rewrite (picks_attempt [] []) by done. cbv. lia.
  - rewrite picks_attempt, picks_return by done. cbv. lia.
  - rewrite picks_attempt, picks_return by done. cbv. lia.
  - rewrite picks_attempt, picks_return by done. lia.
Qed.

Lemma loop_run_starts n err r l :
  loop_run (Datatypes.S n) err r l → ∃ l', l = PickServer :: l'.
Proof. inversion 1; eauto. Qed.

Lemma loop_run_not_found n err r l pre post :
  loop_run n err r l →
  l = pre ++ Return (Some ErrNotFound) :: post →
  post = [] ∧ r = Returned (None, Some ErrNotFound).
Proof.
  intros Hrun. revert pre.
  induction Hrun as [err|n err|n err body res Hbody|n err body Hbody
                     |n err e body r l Hbody He Hrun IH]; intros pre Heq.
  - by destruct pre.
  - by destruct pre as [|? [|]].
  - apply attempt_split in Heq as [(_ & [=] & _)|(pre' & _ & Hnil)];
      [by destruct pre' | done].
  - apply attempt_split in Heq as [(_ & _ & ->)|(pre' & _ & Hnil)];
      [done | by destruct pre' | done].
  - apply attempt_split in Heq as [(_ & [= ->] & _)|(pre' & _ & ->)];
      [done | by eapply IH | done].
Qed.

Lemma loop_run_retry n err r l pre post e :
  loop_run n err r l →
  e ≠ ErrNotFound →
  l = pre ++ Return (Some e) :: post →
  ((picks pre < n)%nat → ∃ post', post = PickServer :: post')
  ∧ (picks pre = n → post = [] ∧ r = Returned (None, Some e)).
Proof.
  intros Hrun Hne. revert pre.
  induction Hrun as [err|n err|n err body res Hbody|n err body Hbody
                     |n err e' body r l Hbody He Hrun IH]; intros pre Heq.
  - by destruct pre.
  - by destruct pre as [|? [|]].
  - apply attempt_split in Heq as [(_ & [=] & _)|(pre' & _ & Hnil)];
      [by destruct pre' | done].
  - apply attempt_split in Heq as [(_ & [= <-] & _)|(pre' & _ & Hnil)];
      [by destruct Hne | by destruct pre' | done].
  - apply attempt_split in Heq as [(-> & [= ->] & ->)|(pre' & -> & ->)];
      [| |done].
    + replace (PickServer :: body) with (PickServer :: body ++ []) by
        (by rewrite app_nil_r).
      rewrite picks_attempt by done. unfold picks at 1 2. simpl. split.
      * intros Hlt. destruct n as [|n]; [lia|]. by eapply loop_run_starts.
      * intros [= <-]. by inversion Hrun.
    + rewrite picks_attempt by done.
      destruct (IH pre' eq_refl) as [IH1 IH2]. split.
      * intros Hlt. apply IH1. rewrite picks_return in Hlt. lia.
      * intros [= Hn]. apply IH2. by rewrite picks_return in Hn.
Qed.

Lemma loop_run_exhausted n err r l :
  loop_run n err r l →
  r ≠ Panicked →
  Forall retryable (returns l) →
  r = Returned (None, default err (last (returns l))).
Proof.
  induction 1 as [err|n err|n err body res Hbody|n err body Hbody
                  |n err e body r l Hbody He Hrun IH]; intros Hr Hall.
  - done.
  - done.
  - rewrite returns_attempt in Hall by done.
    apply Forall_cons in Hall as [(e & [=] & _) _].
  - rewrite returns_attempt in Hall by done.
    apply Forall_cons in Hall as [(e & [= <-] & He) _]. done.
  - rewrite returns_attempt in * by done.
    apply Forall_cons in Hall as [_ Hall].
    rewrite (IH Hr Hall). destruct (returns l); [done|].
    rewrite last_cons_cons. destruct (last (o :: l0)) eqn:Hlast; [done|].
    by apply last_None in Hlast.
Qed.

(** *** The retry driver *)

Lemma attempts_max (c : HttpQuery) :
  attempts c = Z.max (maxTries c) (Z.of_nat (length (servers c))).
Proof. unfold attempts. case_decide; lia. Qed.

Lemma DoQuery_run (c : HttpQuery) (env : nat → Attempt) (uri : string) (s : Z) :
  loop_run (Z.to_nat (attempts c)) None (DoQuery c env uri s).1.1
           (DoQuery c env uri s).2.
Proof. apply DoQuery_loop_run. Qed.

(** The driver panics only when the group has no server. *)
Lemma DoQuery_returns (c : HttpQuery) (env : nat → Attempt) (uri : string) (s : Z) :
  servers c ≠ [] → ∃ r, (DoQuery c env uri s).1.1 = Returned r.
Proof.
  intros Hsrv. unfold DoQuery.
  generalize (Z.to_nat (attempts c)) O (@None error).
  intros n. revert s. induction n as [|n IH]; intros s try err; simpl.
  - by eexists.
  - unfold mbind, M_bind, bind.
    destruct (doRequest_spec c (env try) uri s)
      as [([res [e|]] & s' & body & -> & _ & _)|[Hnil _]]; [| |done]; simpl.
    + case_decide; [by eexists|].
      destruct (IH s' (Datatypes.S try) (Some e)) as [r Hr].
      destruct (DoQuery_loop _ _ _ _ _ _ _) as [[? ?] ?]. simpl in *. eauto.
    + by eexists.
Qed.

(** C4.  As soon as an attempt returns [ErrNotFound] the run is over: no
    event (so no further attempt and no further server pick) follows that
    return, and [DoQuery] returns [(nil, ErrNotFound)]. *)
Theorem DoQuery_not_found_short_circuit (c : HttpQuery) (env : nat → Attempt)
    (uri : string) (s : Z) (pre post : list event) :
  (DoQuery c env uri s).2 = pre ++ Return (Some ErrNotFound) :: post →
  post = [] ∧ (DoQuery c env uri s).1.1 = Returned (None, Some ErrNotFound).
Proof.
  intros Heq. eapply loop_run_not_found; [apply DoQuery_run | exact Heq].
Qed.

Lemma DoQuery_not_found_short_circuit_witness :
  let c := {| groupName := "g"; servers := ["http://s1"; "http://s2"];
              maxTries := 3 |} in
  let pre := [PickServer; Enter "g" None; Do "http://s2/render"; CloseBody;
              Leave "http://s2"; Return (Some (ErrFailedToFetch "g" 500));
              PickServer; Enter "g" None; Do "http://s1/render"; CloseBody;
              Leave "http://s1"] in
  (DoQuery c failing_then_missing "/render" 0).2
  = pre ++ Return (Some ErrNotFound) :: []
  ∧ (DoQuery c failing_then_missing "/render" 0).1.1
    = Returned (None, Some ErrNotFound).
Proof.
  split; [reflexivity|].
  apply (DoQuery_not_found_short_circuit
           {| groupName := "g"; servers := ["http://s1"; "http://s2"];
              maxTries := 3 |} failing_then_missing "/render" 0
           [PickServer; Enter "g" None; Do "http://s2/render"; CloseBody;
            Leave "http://s2"; Return (Some (ErrFailedToFetch "g" 500));
            PickServer; Enter "g" None; Do "http://s1/render"; CloseBody;
            Leave "http://s1"] []).
  reflexivity.
Defined.

(** C5.  A run makes at most [max(maxTries, len(servers))] attempts; and
    when it does not panic and every attempt that returned did so with an
    error other than [ErrNotFound], [DoQuery] returns [nil] and the error of
    the last attempt (nil when no attempt was made). *)
Theorem DoQuery_attempts_and_last_error (c : HttpQuery) (env : nat → Attempt)
    (uri : string) (s : Z) :
  (picks (DoQuery c env uri s).2
   ≤ Z.to_nat (Z.max (maxTries c) (Z.of_nat (length (servers c)))))%nat
  ∧ ((DoQuery c env uri s).1.1 ≠ Panicked →
     Forall retryable (returns (DoQuery c env uri s).2) →
     (DoQuery c env uri s).1.1
     = Returned (None, last_error (DoQuery c env uri s).2)).
Proof.
  pose proof (DoQuery_run c env uri s) as Hrun. split.
  - rewrite <- attempts_max. by eapply loop_run_picks.
  - intros Hr Hall. by eapply loop_run_exhausted.
Qed.

Lemma DoQuery_attempts_and_last_error_witness :
  let c := {| groupName := "g"; servers := ["http://s1"; "http://s2"];
              maxTries := 3 |} in
  let run := DoQuery c (λ _, answering 503) "/render" 0 in
  picks run.2 = 3%nat
  ∧ returns run.2 = replicate 3 (Some (ErrFailedToFetch "g" 503))
  ∧ run.1.1 = Returned (None, Some (ErrFailedToFetch "g" 503)).
Proof.
  split; [reflexivity|]. split; [reflexivity|].
  apply (DoQuery_attempts_and_last_error
           {| groupName := "g"; servers := ["http://s1"; "http://s2"];
              maxTries := 3 |} (λ _, answering 503) "/render" 0).
  - discriminate.
  - repeat constructor; by eexists.
Defined.

(** C6, as amended.  An attempt that fails because the cancellation signal
    or the deadline fired is treated like every failure other than
    [ErrNotFound]: while fewer than [max(maxTries, len(servers))] attempts
    have been made the next thing that happens is the server pick of another
    attempt, and the cancellation error is what [DoQuery] returns only when
    it is the error of the last attempt. *)
Theorem DoQuery_cancelled_is_retried (c : HttpQuery) (env : nat → Attempt)
    (uri : string) (s : Z) (pre post : list event) :
  (DoQuery c env uri s).2 = pre ++ Return (Some ErrCancelled) :: post →
  ((picks pre < Z.to_nat (Z.max (maxTries c) (Z.of_nat (length (servers c)))))%nat
   → ∃ post', post = PickServer :: post')
  ∧ (picks pre = Z.to_nat (Z.max (maxTries c) (Z.of_nat (length (servers c))))
     → post = [] ∧
       (DoQuery c env uri s).1.1 = Returned (None, Some ErrCancelled)).
Proof.
  intros Heq. rewrite <- attempts_max.
  eapply loop_run_retry; [apply DoQuery_run | done | exact Heq].
Qed.

Lemma DoQuery_cancelled_is_retried_witness :
  let c := {| groupName := "g"; servers := ["http://s1"]; maxTries := 2 |} in
  let run := DoQuery c (λ _, cancelled) "/render" 0 in
  run.2 = [PickServer; Enter "g" (Some ErrCancelled)]
          ++ Return (Some ErrCancelled)
          :: [PickServer; Enter "g" (Some ErrCancelled);
              Return (Some ErrCancelled)]
  ∧ ∃ post', [PickServer; Enter "g" (Some ErrCancelled);
              Return (Some ErrCancelled)] = PickServer :: post'.
Proof.
  split; [reflexivity|].
  apply (DoQuery_cancelled_is_retried
           {| groupName := "g"; servers := ["http://s1"]; maxTries := 2 |}
           (λ _, cancelled) "/render" 0
           [PickServer; Enter "g" (Some ErrCancelled)]
           [PickServer; Enter "g" (Some ErrCancelled);
            Return (Some ErrCancelled)]); [reflexivity|].
  vm_compute. lia.
Defined.

(** A run in which the first attempt fails on the fired cancellation signal
    and a second attempt is made all the same. *)
Lemma DoQuery_cancelled_second_attempt :
  ¬ short_circuits ErrCancelled
      (DoQuery {| groupName := "g"; servers := ["http://s1"]; maxTries := 2 |}
               (λ _, cancelled) "/render" 0).
Proof.
  intros H.
  destruct (H [PickServer; Enter "g" (Some ErrCancelled)]
              [PickServer; Enter "g" (Some ErrCancelled);
               Return (Some ErrCancelled)] eq_refl) as [Hpost _].
  discriminate Hpost.
Qed.

(** *** The limiter *)

(** C7 at a failing input.  A successful attempt of the group "g" against
    its server "http://s1" takes the slot under the key "g" and gives a slot
    back under the key "http://s1": under "g" one slot stays taken, under
    "http://s1" one more is given back than was taken. *)
Theorem doRequest_leaves_under_server_key :
  let c := {| groupName := "g"; servers := ["http://s1"]; maxTries := 1 |} in
  let run := doRequest c healthy "/render" 0 in
  run.1.1 = Returned (Some {| Server := "http://s1"; Response := [] |}, None)
  ∧ run.2 = [PickServer; Enter "g" None; Do "http://s1/render"; CloseBody;
             Leave "http://s1"; Return None]
  ∧ held "g" run.2 = 1
  ∧ held "http://s1" run.2 = -1.
Proof. repeat split; reflexivity. Qed.

Ltac absurd_event H :=
  repeat (apply elem_of_cons in H as [H|H]; [discriminate H|]);
  apply elem_of_nil in H.

(** On every path: an attempt that took a slot gives one back under the name
    of the server it picked, whatever happens after [Enter]. *)
Lemma doRequest_leave_key (c : HttpQuery) (a : Attempt) (uri : string) (s : Z) :
  Enter (groupName c) None ∈ (doRequest c a uri s).2 →
  ∃ srv, srv ∈ servers c ∧
    filter (λ e, inner e ∧ e ≠ CloseBody) (doRequest c a uri s).2
    = [Enter (groupName c) None; Do (srv +:+ uri); Leave srv].
Proof.
  unfold doRequest, mbind, M_bind, bind.
  destruct (pickServer_spec c s) as [(srv & s' & -> & Hsrv)|[Hnil (s' & ->)]];
    cycle 1.
  { simpl. by intros [=]%list_elem_of_singleton. }
  unfold defer, emit, ret.
  destruct (url_Parse a _); [simpl; intros Hin; by absurd_event Hin|].
  destruct (http_NewRequest a _); [simpl; intros Hin; by absurd_event Hin|].
  simpl.
  destruct (limiter_Enter a _); [simpl; intros Hin; by absurd_event Hin|].
  intros _. exists srv. split; [done|].
  destruct (client_Do a _) as [e|status]; [done|].
  case_decide; [done|]. case_decide; [done|].
  by destruct (ioutil_ReadAll a).
Qed.

End HelperFacts.





(** ** Find merger *)

Section FindFacts.
Import Find.
#[local] Set Warnings "-clear-no-such-hyp".

(** *** Pairs *)

Lemma elem_of_pairs (ms : list GlobResponse) (n p : string) :
  (n, p) ∈ pairs ms ↔
  ∃ m mm, m ∈ ms ∧ mm ∈ Matches m ∧ n = Name m ∧ p = Path mm.
Proof.
  unfold pairs. rewrite list_elem_of_bind. split.
  - intros (m & (mm & [= -> ->] & Hmm)%list_elem_of_fmap & Hm). eauto 10.
  - intros (m & mm & Hm & Hmm & -> & ->). exists m. split; [|done].
    apply list_elem_of_fmap. eauto.
Qed.

Lemma pairs_app (l1 l2 : list GlobResponse) :
  pairs (l1 ++ l2) = pairs l1 ++ pairs l2.
Proof. unfold pairs. apply bind_app. Qed.

Lemma pairs_cons (m : GlobResponse) (ms : list GlobResponse) :
  pairs (m :: ms) = pairs [m] ++ pairs ms.
Proof. apply (pairs_app [m] ms). Qed.

Lemma pairs_singleton (m : GlobResponse) :
  pairs [m] = (λ p, (Name m, p)) <$> (Path <$> Matches m).
Proof.
  unfold pairs. simpl. rewrite app_nil_r. by rewrite <- list_fmap_compose.
Qed.

Lemma pair_set_app (l1 l2 : list GlobResponse) :
  pair_set (l1 ++ l2) = pair_set l1 ∪ pair_set l2.
Proof. unfold pair_set. rewrite pairs_app. apply list_to_set_app_L. Qed.

Lemma NoDup_pairs_singleton (m : GlobResponse) :
  NoDup (Path <$> Matches m) → NoDup (pairs [m]).
Proof.
  intros Hm. rewrite pairs_singleton. apply NoDup_fmap_2; [|done].
  by intros ? ? [=].
Qed.

Lemma elem_of_pairs_name (ms : list GlobResponse) (p : string * string) :
  p ∈ pairs ms → p.1 ∈ names ms.
Proof.
  destruct p as [n q]. intros (m & mm & Hm & _ & -> & _)%elem_of_pairs.
  simpl. apply list_elem_of_fmap. eauto.
Qed.

Lemma well_formed_NoDup_pairs (ms : list GlobResponse) :
  well_formed ms → NoDup (pairs ms).
Proof.
  intros [Hnames Hpaths]. induction ms as [|m ms IH]; [constructor|].
  rewrite pairs_cons.
  apply NoDup_cons in Hnames as [Hm Hnames].
  apply NoDup_app. split; [|split].
  - apply NoDup_pairs_singleton, Hpaths. by left.
  - intros p Hp Hp'. apply elem_of_pairs_name in Hp, Hp'.
    apply list_elem_of_singleton in Hp. unfold names in *. simpl in Hp.
    by rewrite Hp in Hp'.
  - apply IH; [done|]. intros m' Hm'. apply Hpaths. by right.
Qed.

(** Appending one match to the metric at position [i] adds one pair. *)
Lemma pairs_insert_match (cur : list GlobResponse) (i : nat)
    (fi : GlobResponse) (mm : GlobMatch) :
  cur !! i = Some fi →
  pairs (<[i := {| Name := Name fi; Matches := Matches fi ++ [mm] |}]> cur)
  ≡ₚ (Name fi, Path mm) :: pairs cur.
Proof.
  intros Hfi. pose proof (lookup_lt_Some _ _ _ Hfi) as Hlt.
  assert (Hcur : pairs cur
                 = pairs (take i cur) ++ pairs [fi] ++ pairs (drop (S i) cur)).
  { rewrite <- !pairs_app. simpl. by rewrite take_drop_middle. }
  rewrite Hcur, insert_take_drop by done.
  change (?x :: drop ?n ?l) with ([x] ++ drop n l).
  rewrite !pairs_app, !pairs_singleton. simpl.
  rewrite !fmap_app. simpl.
  rewrite <- !app_assoc. simpl.
  rewrite !app_assoc. by rewrite <- Permutation_middle.
Qed.

(** *** The indexes over [first] *)

Lemma see_matches_spec (name : string) (mms : list GlobMatch) :
  ∀ seen,
    see_matches name mms seen
    = seen ∪ list_to_set ((λ mm, match_key name (Path mm)) <$> mms).
Proof.
  unfold see_matches. induction mms as [|mm mms IH]; intros seen; simpl.
  - set_solver.
  - rewrite IH. set_solver.
Qed.

Lemma index_first_seen (ms : list GlobResponse) :
  ∀ i seenMetrics seen,
    (index_first i ms seenMetrics seen).2
    = seen ∪ list_to_set (key_of <$> pairs ms).
Proof.
  induction ms as [|m ms IH]; intros i seenMetrics seen.
  - simpl. set_solver.
  - rewrite pairs_cons, fmap_app, list_to_set_app_L, pairs_singleton.
    rewrite <- !list_fmap_compose.
    change (key_of ∘ (λ p, (Name m, p)) ∘ Path)
      with (λ mm, match_key (Name m) (Path mm)).
    cbn [index_first]. rewrite IH, see_matches_spec. set_solver.
Qed.

Lemma index_first_other (ms : list GlobResponse) :
  ∀ i seenMetrics seen n,
    n ∉ names ms →
    (index_first i ms seenMetrics seen).1 !! n = seenMetrics !! n.
Proof.
  induction ms as [|m ms IH]; intros i seenMetrics seen n Hn; [done|].
  simpl. apply not_elem_of_cons in Hn as [Hne Hn].
  rewrite IH by done. by rewrite lookup_insert_ne.
Qed.

Lemma index_first_found (ms : list GlobResponse) :
  ∀ i seenMetrics seen k m,
    NoDup (names ms) →
    ms !! k = Some m →
    (index_first i ms seenMetrics seen).1 !! Name m = Some (i + k)%nat.
Proof.
  induction ms as [|m0 ms IH]; intros i seenMetrics seen k m Hnd Hk; [done|].
  apply NoDup_cons in Hnd as [Hm0 Hnd]. destruct k as [|k]; simpl in *.
  - injection Hk as ->. rewrite index_first_other by done.
    rewrite lookup_insert_eq. f_equal. lia.
  - rewrite (IH _ _ _ k m) by done. f_equal. lia.
Qed.

(** With unique names the index sends a name to the position of the metric
    of that name, and knows every name of [first]. *)
Lemma index_first_spec (fm : list GlobResponse) :
  NoDup (names fm) →
  (∀ n, n ∈ names fm → is_Some ((index_first 0 fm ∅ ∅).1 !! n))
  ∧ (∀ n i, (index_first 0 fm ∅ ∅).1 !! n = Some i →
            ∃ m, fm !! i = Some m ∧ Name m = n).
Proof.
  intros Hnd.
  assert (Hin : ∀ n, n ∈ names fm →
            ∃ k m, fm !! k = Some m ∧ Name m = n ∧
                   (index_first 0 fm ∅ ∅).1 !! n = Some k).
  { intros n (m & -> & (k & Hk)%list_elem_of_lookup)%list_elem_of_fmap.
    exists k, m. repeat split; [done|].
    by rewrite (index_first_found fm 0 ∅ ∅ k m). }
  split.
  - intros n (k & m & _ & _ & ->)%Hin. by eexists.
  - intros n i Hi. destruct (decide (n ∈ names fm)) as [Hn|Hn].
    + destruct (Hin n Hn) as (k & m & Hk & Hm & Hlook).
      rewrite Hlook in Hi. injection Hi as <-. eauto.
    + rewrite index_first_other in Hi by done. by rewrite lookup_empty in Hi.
Qed.

(** *** The loop over [second] *)

Lemma merge_inv_init (fm : list GlobResponse) (dom : list (string * string)) :
  well_formed fm →
  (∀ p, p ∈ pairs fm → p ∈ dom) →
  merge_inv fm dom [] (pair_set fm) fm (index_first 0 fm ∅ ∅).2.
Proof.
  intros Hwf Hdom. rewrite index_first_seen. split.
  - eauto.
  - intros m Hm. left. apply list_elem_of_fmap. eauto.
  - by apply well_formed_NoDup_pairs.
  - intros k Hk. rewrite union_empty_l_L in Hk.
    apply elem_of_list_to_set, list_elem_of_fmap in Hk as (p & -> & Hp). eauto.
  - intros p Hp _. rewrite union_empty_l_L.
    apply elem_of_list_to_set, list_elem_of_fmap. eauto.
  - done.
  - done.
Qed.

(** One match of [second] against the metric at position [i]. *)
Lemma add_match_inv (fm : list GlobResponse) (dom : list (string * string))
    (done : list string) (P : gset (string * string))
    (cur : list GlobResponse) (seen : gset string)
    (i : nat) (fi : GlobResponse) (mm : GlobMatch) :
  keys_injective dom →
  merge_inv fm dom done P cur seen →
  cur !! i = Some fi →
  Name fi ∈ names fm →
  (Name fi, Path mm) ∈ dom →
  if decide (match_key (Name fi) (Path mm) ∈ seen)
  then (Name fi, Path mm) ∈ pairs cur
  else merge_inv fm dom done ({[ (Name fi, Path mm) ]} ∪ P)
         (<[i := {| Name := Name fi; Matches := Matches fi ++ [mm] |}]> cur)
         ({[ match_key (Name fi) (Path mm) ]} ∪ seen).
Proof.
  intros Hinj [Hnames Horigin Hnd Hseen Hkeys Hdom Hpairs] Hfi Hfm Hmm.
  case_decide as Hkey.
  - destruct (Hseen _ Hkey) as (p & Hp & Hk).
    by rewrite <- (Hinj p (Name fi, Path mm) (Hdom p Hp) Hmm Hk).
  - pose proof (pairs_insert_match cur i fi mm Hfi) as Hperm.
    assert (Hnew : (Name fi, Path mm) ∉ pairs cur).
    { intros Hin. apply Hkey. by apply (Hkeys _ Hin). }
    split.
    + intros k m Hk. destruct (Hnames k m Hk) as (m' & Hm' & Hname).
      destruct (decide (k = i)) as [->|Hne].
      * rewrite Hfi in Hm'. injection Hm' as <-.
        eexists. split;
          [apply list_lookup_insert_eq; by eapply lookup_lt_Some | done].
      * exists m'. by rewrite list_lookup_insert_ne.
    + intros m [j Hj]%list_elem_of_lookup.
      destruct (decide (j = i)) as [->|Hne].
      * rewrite list_lookup_insert_eq in Hj by (by eapply lookup_lt_Some).
        injection Hj as <-. by left.
      * rewrite list_lookup_insert_ne in Hj by done.
        apply Horigin. by eapply list_elem_of_lookup_2.
    + rewrite Hperm. by constructor.
    + intros k [->%elem_of_singleton|Hk]%elem_of_union.
      * exists (Name fi, Path mm). split; [|done]. rewrite Hperm. by left.
      * destruct (Hseen k Hk) as (p & Hp & Hpk). exists p.
        split; [|done]. rewrite Hperm. by right.
    + intros p Hp Hp1. rewrite Hperm in Hp.
      apply elem_of_cons in Hp as [->|Hp]; [set_solver|].
      apply elem_of_union_r. by apply Hkeys.
    + intros p Hp. rewrite Hperm in Hp.
      apply elem_of_cons in Hp as [->|Hp]; [done | by apply Hdom].
    + rewrite <- Hpairs. unfold pair_set. apply set_eq. intros p.
      rewrite elem_of_list_to_set, Hperm, elem_of_cons.
      rewrite elem_of_union, elem_of_singleton, elem_of_list_to_set. done.
Qed.

Lemma add_matches_spec (fm : list GlobResponse) (dom : list (string * string))
    (done : list string) (i : nat) (n : string) :
  keys_injective dom →
  n ∈ names fm →
  ∀ mms cur seen P,
    merge_inv fm dom done P cur seen →
    (∃ fi, cur !! i = Some fi ∧ Name fi = n) →
    (∀ mm, mm ∈ mms → (n, Path mm) ∈ dom) →
    ∃ cur' seen',
      add_matches i mms (cur, seen) = Returned (cur', seen') ∧
      merge_inv fm dom done
        (P ∪ list_to_set ((λ mm, (n, Path mm)) <$> mms)) cur' seen'.
Proof.
  intros Hinj Hn. induction mms as [|mm mms IH];
    intros cur seen P Hinv (fi & Hfi & <-) Hdom.
  - exists cur, seen. split; [done|]. simpl. by rewrite union_empty_r_L.
  - rewrite fmap_cons, list_to_set_cons.
    set (S := list_to_set ((λ mm, (Name fi, Path mm)) <$> mms)) in *.
    cbn [add_matches]. rewrite Hfi. cbn [deref obind].
    pose proof (add_match_inv fm dom done P cur seen i fi mm Hinj Hinv Hfi Hn)
      as Hstep.
    assert (Hmm : mm ∈ mm :: mms) by (by left).
    specialize (Hstep (Hdom mm Hmm)).
    fold (match_key (Name fi) (Path mm)). revert Hstep.
    destruct (decide (match_key (Name fi) (Path mm) ∈ seen)) as [Hkey|Hkey];
      intros Hstep.
    + destruct (IH cur seen P Hinv) as (cur' & seen' & Hrun & Hinv');
        [eauto | intros; apply Hdom; by right |].
      exists cur', seen'. split; [done|].
      replace (P ∪ ({[(Name fi, Path mm)]} ∪ S)) with (P ∪ S); [done|].
      assert (Hx : (Name fi, Path mm) ∈ P).
      { destruct Hinv as [_ _ _ _ _ _ <-]. by apply elem_of_list_to_set. }
      clear -Hx. set_solver.
    + destruct (IH _ _ _ Hstep) as (cur' & seen' & Hrun & Hinv').
      * eexists. split;
          [apply list_lookup_insert_eq; by eapply lookup_lt_Some | done].
      * intros; apply Hdom; by right.
      * exists cur', seen'. split; [done|].
        replace (P ∪ ({[(Name fi, Path mm)]} ∪ S))
          with ({[(Name fi, Path mm)]} ∪ P ∪ S); [done|].
        clear. set_solver.
Qed.

Lemma merge_inv_append (fm : list GlobResponse) (dom : list (string * string))
    (done : list string) (P : gset (string * string))
    (cur : list GlobResponse) (seen : gset string) (m : GlobResponse) :
  merge_inv fm dom done P cur seen →
  Name m ∉ names fm →
  Name m ∉ done →
  NoDup (Path <$> Matches m) →
  (∀ p, p ∈ pairs [m] → p ∈ dom) →
  merge_inv fm dom (Name m :: done) (P ∪ pair_set [m]) (cur ++ [m]) seen.
Proof.
  intros [Hnames Horigin Hnd Hseen Hkeys Hdom Hpairs] Hfm Hdone Hpaths Hm.
  assert (Hfresh : ∀ p, p ∈ pairs cur → p ∉ pairs [m]).
  { intros [n q] (m' & _ & Hm' & _ & -> & _)%elem_of_pairs
           Hp%elem_of_pairs_name.
    apply list_elem_of_singleton in Hp. simpl in Hp.
    destruct (Horigin m' Hm') as [Hin|Hin]; by rewrite Hp in Hin. }
  split.
  - intros k m0 Hk. destruct (Hnames k m0 Hk) as (m' & Hm' & Hname).
    exists m'. split; [|done]. by apply lookup_app_l_Some.
  - intros m' [Hm' | ->%list_elem_of_singleton]%elem_of_app.
    + destruct (Horigin m' Hm'); [by left | right; by right].
    + right. by left.
  - rewrite pairs_app. apply NoDup_app.
    split; [done|]. split; [done | by apply NoDup_pairs_singleton].
  - intros k Hk. destruct (Hseen k Hk) as (p & Hp & Hpk). exists p.
    split; [|done]. rewrite pairs_app. apply elem_of_app. by left.
  - intros p Hp Hp1. rewrite pairs_app in Hp.
    apply elem_of_app in Hp as [Hp|Hp]; [by apply Hkeys|].
    apply elem_of_pairs_name, list_elem_of_singleton in Hp. simpl in Hp.
    by rewrite Hp in Hp1.
  - intros p Hp. rewrite pairs_app in Hp.
    apply elem_of_app in Hp as [Hp|Hp]; [by apply Hdom | by apply Hm].
  - by rewrite pair_set_app, Hpairs.
Qed.

Lemma merge_metrics_spec (fm : list GlobResponse)
    (dom : list (string * string)) (seenMetrics : gmap string nat) :
  keys_injective dom →
  (∀ n, n ∈ names fm → is_Some (seenMetrics !! n)) →
  (∀ n i, seenMetrics !! n = Some i → ∃ m, fm !! i = Some m ∧ Name m = n) →
  ∀ sm done cur seen P,
    merge_inv fm dom done P cur seen →
    NoDup (names sm) →
    (∀ m, m ∈ sm → Name m ∉ done) →
    (∀ m, m ∈ sm → NoDup (Path <$> Matches m)) →
    (∀ p, p ∈ pairs sm → p ∈ dom) →
    ∃ cur' seen' done',
      merge_metrics seenMetrics sm (cur, seen) = Returned (cur', seen') ∧
      merge_inv fm dom done' (P ∪ pair_set sm) cur' seen'.
Proof.
  intros Hinj Hknown Hindex.
  induction sm as [|m sm IH]; intros done cur seen P Hinv Hnd Hdone Hpaths Hdom.
  { exists cur, seen, done. split; [done|].
    unfold pair_set. simpl. by rewrite union_empty_r_L. }
  apply NoDup_cons in Hnd as [Hm Hnd].
  assert (Hdom_m : ∀ p, p ∈ pairs [m] → p ∈ dom).
  { intros p Hp. apply Hdom. rewrite pairs_cons. apply elem_of_app. by left. }
  assert (Hdom_sm : ∀ p, p ∈ pairs sm → p ∈ dom).
  { intros p Hp. apply Hdom. rewrite pairs_cons. apply elem_of_app. by right. }
  assert (Hpaths_sm : ∀ m', m' ∈ sm → NoDup (Path <$> Matches m')).
  { intros m' Hm'. apply Hpaths. by right. }
  assert (HP : P ∪ pair_set (m :: sm) = P ∪ pair_set [m] ∪ pair_set sm).
  { change (m :: sm) with ([m] ++ sm). rewrite pair_set_app.
    clear. set_solver. }
  rewrite HP. cbn [merge_metrics].
  destruct (seenMetrics !! Name m) as [i|] eqn:Hlook.
  - destruct (Hindex _ _ Hlook) as (m0 & Hm0 & Hname).
    destruct (inv_names _ _ _ _ _ _ Hinv i m0 Hm0) as (fi & Hfi & Hfiname).
    assert (Hn : Name m ∈ names fm).
    { rewrite <- Hname. apply list_elem_of_fmap.
      exists m0. split; [done|]. by eapply list_elem_of_lookup_2. }
    destruct (add_matches_spec fm dom done i (Name m) Hinj Hn (Matches m)
                cur seen P Hinv) as (cur1 & seen1 & Hrun & Hinv1).
    { exists fi. split; [done | congruence]. }
    { intros mm Hmm. apply Hdom_m. apply elem_of_pairs.
      exists m, mm. repeat split; [by left | done]. }
    rewrite Hrun. cbn [obind].
    assert (Hset : list_to_set ((λ mm, (Name m, Path mm)) <$> Matches m)
                   = pair_set [m]).
    { unfold pair_set. rewrite pairs_singleton.
      by rewrite <- list_fmap_compose. }
    rewrite Hset in Hinv1.
    apply (IH done cur1 seen1 _ Hinv1); try done.
    intros m' Hm'. apply Hdone. by right.
  - assert (Hn : Name m ∉ names fm).
    { intros [? Hsome]%Hknown. by rewrite Hlook in Hsome. }
    simpl.
    apply (IH (Name m :: done)); try done.
    + apply merge_inv_append; try done.
      * apply Hdone. by left.
      * apply Hpaths. by left.
    + intros m' Hm' [Heq|Hin]%elem_of_cons.
      * apply Hm. rewrite <- Heq. apply list_elem_of_fmap. eauto.
      * by apply (Hdone m'); [right|].
Qed.

(** When no two pairs of the two responses share a key, merging [second]
    into [first] leaves in [first] the union of the pairs of both, each
    once. *)
Theorem find_merge_union (fm sm : list GlobResponse) (s1 s2 : Types.Stats)
    (e1 : option error) :
  well_formed fm →
  well_formed sm →
  keys_injective (pairs fm ++ pairs sm) →
  ∃ r,
    Merge {| Response := Some fm; Stats := s1; Err := e1 |}
          {| Response := Some sm; Stats := s2; Err := None |}
    = Returned (None, {| Response := Some r;
                         Stats := Types.Stats_Merge s1 s2; Err := None |})
    ∧ pair_set r = pair_set fm ∪ pair_set sm
    ∧ NoDup (pairs r).
Proof.
  intros Hfm [Hsm_names Hsm_paths] Hinj. unfold Merge. simpl.
  destruct (index_first 0 fm ∅ ∅) as [seenMetrics seenMatches] eqn:Hindex.
  destruct (index_first_spec fm (proj1 Hfm)) as [Hknown Hfound].
  rewrite Hindex in Hknown, Hfound. simpl in Hknown, Hfound.
  destruct (merge_metrics_spec fm (pairs fm ++ pairs sm) seenMetrics
              Hinj Hknown Hfound sm [] fm seenMatches (pair_set fm))
    as (r & seen' & done' & Hrun & Hinv); try done.
  - replace seenMatches with (index_first 0 fm ∅ ∅).2 by (by rewrite Hindex).
    apply merge_inv_init; [done|]. intros p Hp. apply elem_of_app. by left.
  - intros m _ Hin. by apply elem_of_nil in Hin.
  - intros p Hp. apply elem_of_app. by right.
  - rewrite Hrun. simpl. exists r. split; [done|].
    split; [by destruct Hinv | by destruct Hinv].
Qed.

(** Under the same condition the find merge gives the same set of pairs in
    either order, without duplicates. *)
Corollary find_merge_commutes (A B : list GlobResponse) (sA sB : Types.Stats) :
  well_formed A →
  well_formed B →
  keys_injective (pairs A ++ pairs B) →
  ∃ ab ba,
    Merge {| Response := Some A; Stats := sA; Err := None |}
          {| Response := Some B; Stats := sB; Err := None |}
    = Returned (None, {| Response := Some ab;
                         Stats := Types.Stats_Merge sA sB; Err := None |})
    ∧ Merge {| Response := Some B; Stats := sB; Err := None |}
            {| Response := Some A; Stats := sA; Err := None |}
      = Returned (None, {| Response := Some ba;
                           Stats := Types.Stats_Merge sB sA; Err := None |})
    ∧ pair_set ab = pair_set ba
    ∧ NoDup (pairs ab)
    ∧ NoDup (pairs ba).
Proof.
  intros HA HB Hinj.
  destruct (find_merge_union A B sA sB None HA HB Hinj)
    as (ab & Hab & Hab_set & Hab_nd).
  destruct (find_merge_union B A sB sA None HB HA)
    as (ba & Hba & Hba_set & Hba_nd).
  { intros p q Hp Hq. apply Hinj; apply elem_of_app;
      [apply elem_of_app in Hp | apply elem_of_app in Hq]; tauto. }
  exists ab, ba. repeat split; try done.
  rewrite Hab_set, Hba_set. apply union_comm_L.
Qed.

Lemma keys_injective_Forall (ps : list (string * string)) :
  Forall (λ p, Forall (λ q, key_of p = key_of q → p = q) ps) ps →
  keys_injective ps.
Proof.
  intros Hall p q Hp Hq. rewrite Forall_forall in Hall.
  specialize (Hall p Hp). rewrite Forall_forall in Hall. by apply Hall.
Qed.

Ltac by_compute := apply (bool_decide_unpack _); vm_compute; exact I.

Example find_merge_commutes_globs :
  ∃ ab ba,
    Merge (response globs_A) (response globs_B)
    = Returned (None, response ab)
    ∧ Merge (response globs_B) (response globs_A)
      = Returned (None, response ba)
    ∧ pair_set ab = pair_set ba
    ∧ NoDup (pairs ab)
    ∧ NoDup (pairs ba).
Proof.
  apply (find_merge_commutes globs_A globs_B no_stats no_stats).
  - split; [by_compute|].
    intros m ->%list_elem_of_singleton. by_compute.
  - split; [by_compute|].
    intros m Hm. repeat (apply elem_of_cons in Hm as [->|Hm]);
      [by_compute.. | by apply elem_of_nil in Hm].
  - apply keys_injective_Forall.
    repeat constructor;
      (reflexivity || (intros Hkey; vm_compute in Hkey; discriminate Hkey)).
Qed.

(** C8 at a failing input.  Both responses have unique metric names and
    unique paths per metric.  Merging B into A drops the match ("a.b", "c")
    of B, because its key "a.b.c" is the key of the match ("a", "b.c") of A;
    merging A into B keeps it.  The two merges differ as sets of pairs. *)
Theorem find_merge_key_collision :
  Merge (response colliding_A) (response colliding_B)
  = Returned (None, response colliding_A)
  ∧ Merge (response colliding_B) (response colliding_A)
    = Returned (None, response colliding_BA)
  ∧ (("a.b", "c") ∉ pairs colliding_A)
  ∧ (("a.b", "c") ∈ pairs colliding_BA)
  ∧ pair_set colliding_A ≠ pair_set colliding_BA.
Proof.
  assert (Hout : ("a.b", "c") ∉ pairs colliding_A).
  { intros Hin. simpl in Hin.
    repeat (apply elem_of_cons in Hin as [[=]|Hin]).
    by apply elem_of_nil in Hin. }
  assert (Hin : ("a.b", "c") ∈ pairs colliding_BA) by (simpl; by left).
  split; [reflexivity|]. split; [reflexivity|]. split; [done|]. split; [done|].
  unfold pair_set. intros Heq. apply Hout.
  apply (elem_of_list_to_set (C := gset (string * string))).
  rewrite Heq. by apply elem_of_list_to_set.
Qed.

End FindFacts.

(** ** gRPC group client *)

Section GRPCFacts.
Import GRPC.

Context {MultiFetchResponse MultiGlobResponse MultiMetricsInfoResponse
         ListMetricsResponse MetricDetailsResponse : Type}
        `{!Message MultiFetchResponse, !Message MultiGlobResponse,
          !Message MultiMetricsInfoResponse, !Message ListMetricsResponse,
          !Message MetricDetailsResponse}.

(** With a result in hand every operation returns. *)
Lemma operations_return_on_result (nilSize : option Z) (c : ClientGRPCGroup)
    (err : option error)
    (r1 : MultiFetchResponse) (r2 : MultiGlobResponse)
    (r3 : MultiMetricsInfoResponse) (r4 : ListMetricsResponse)
    (r5 : MetricDetailsResponse) :
  (∃ out, Fetch nilSize c (Some r1, err) = Returned out)
  ∧ (∃ out, Find nilSize c (Some r2, err) = Returned out)
  ∧ (∃ out, Info nilSize c (Some r3, err) = Returned out)
  ∧ (∃ out, List nilSize c (Some r4, err) = Returned out)
  ∧ (∃ out, Stats nilSize c (Some r5, err) = Returned out).
Proof. repeat split; by eexists. Qed.

(** On the error branch, [res] being nil, the four operations that only ask
    for [res.Size()] do what the generated [Size()] does on a nil
    receiver. *)
Lemma Fetch_on_error (nilSize : option Z) (c : ClientGRPCGroup) (e : error) :
  Fetch (MultiFetchResponse := MultiFetchResponse) nilSize c (None, Some e)
  = match nilSize with
    | Some n =>
        Returned (None, set_MemoryUsage n (on_error (Some e) (new_stats c)),
                  Some e)
    | None => Panicked
    end.
Proof. unfold Fetch, res_Size. by destruct nilSize. Qed.

(** C9 at a failing input.  When the RPC fails and hands back no result,
    [Info] panics: past [res.Size()] it evaluates [*res] on the nil
    pointer.  This holds whatever [Size()] does on a nil receiver. *)
Theorem Info_panics_on_error (nilSize : option Z) (c : ClientGRPCGroup)
    (e : error) :
  Info (MultiMetricsInfoResponse := MultiMetricsInfoResponse)
       nilSize c (None, Some e)
  = Panicked.
Proof. unfold Info, res_Size. by destruct nilSize. Qed.

End GRPCFacts.

(** * Further properties of the code *)

(** ** Fetch pair-merge *)

Section FetchMore.
Import Fetch.

Lemma set_Values_same (m : FetchResponse) : set_Values (Values m) m = m.
Proof. by destruct m. Qed.

(** The gap-fill loop keeps the length of [m1.Values], and it returns when
    [m2.Values] is at least as long. *)
Lemma fill_range_returns (v2 : list float) :
  ∀ n from v,
    (from + n ≤ length v)%nat →
    (length v ≤ length v2)%nat →
    ∃ vs, for_range n from (fill_at v2) v = Returned vs.
Proof.
  induction n as [|n IH]; intros from v Hn Hlen; simpl; [by eexists|].
  unfold fill_at at 1.
  destruct (lookup_lt_is_Some_2 v from) as [x Hx]; [lia|]. rewrite Hx.
  destruct (is_nan x); simpl; [|apply IH; lia].
  unfold index. rewrite decide_False by lia. rewrite Nat2Z.id.
  destruct (lookup_lt_is_Some_2 v2 from) as [y ->]; [lia|]. simpl.
  destruct (is_nan y); simpl; apply IH; rewrite ?length_insert; lia.
Qed.

Lemma fillGaps_returns (v1 v2 : list float) :
  (length v1 ≤ length v2)%nat → ∃ vs, fillGaps v1 v2 = Returned vs.
Proof. intros. apply fill_range_returns; [simpl; lia | done]. Qed.

Lemma fillGaps_same (v : list float) : fillGaps v v = Returned v.
Proof.
  destruct (fillGaps_returns v v) as [vs Hvs]; [done|]. rewrite Hvs. f_equal.
  apply fillGaps_spec in Hvs as [Hlen Hvs]. apply list_eq. intros k.
  destruct (v !! k) as [x|] eqn:Hx.
  - specialize (Hvs k x Hx). destruct (is_nan x) eqn:Hnan; [|done].
    destruct Hvs as (y & Hy & ->). rewrite Hx in Hy. injection Hy as <-.
    by rewrite Hnan.
  - apply lookup_ge_None. rewrite Hlen. by apply lookup_ge_None.
Qed.

(** X1.  Merging a metric with a copy of itself changes nothing: the merge
    returns without error, for every fuel, and both metrics are as they
    were. *)
Theorem fetch_merge_idempotent (fuel : nat) (m : FetchResponse) :
  mergeFetchResponses fuel m m = Returned (None, m, m).
Proof.
  unfold mergeFetchResponses, equalize. rewrite decide_True by done. simpl.
  rewrite decide_False by (by intros []). rewrite fillGaps_same. simpl.
  by rewrite set_Values_same.
Qed.

(** X2.  On two metrics with the same number of samples and the same start
    the merge cannot fail: for every fuel it returns without error, leaves
    the second metric alone, and changes nothing of the first but its
    samples, which keep their number and are the gap fill of the first from
    the second. *)
Theorem fetch_merge_equal_length (m1 m2 : FetchResponse) :
  length (Values m1) = length (Values m2) →
  StartTime m1 = StartTime m2 →
  ∃ vs,
    (∀ fuel, mergeFetchResponses fuel m1 m2
             = Returned (None, set_Values vs m1, m2))
    ∧ length vs = length (Values m1)
    ∧ first_writer_wins (Values m1) (Values m2) vs.
Proof.
  intros Hlen Hstart.
  destruct (fillGaps_returns (Values m1) (Values m2)) as [vs Hvs]; [lia|].
  exists vs. split; [|split].
  - intros fuel. unfold mergeFetchResponses, equalize.
    rewrite decide_True by done. simpl.
    rewrite decide_False by (by intros []). by rewrite Hvs.
  - by apply fillGaps_spec in Hvs as [? _].
  - apply fillGaps_spec in Hvs as [_ Hvs]. intros i x Hx.
    specialize (Hvs i x Hx). split.
    + intros Hnan. by rewrite Hnan in Hvs.
    + intros Hnan y Hy Hynan. rewrite Hnan in Hvs.
      destruct Hvs as (y' & Hy' & ->). rewrite Hy in Hy'. injection Hy' as <-.
      by rewrite Hynan.
Qed.

Lemma fetch_merge_equal_length_witness :
  let A := series 60 1260 60 gaps_a in
  let B := series 60 1260 60 gaps_b in
  length (Values A) = length (Values B)
  ∧ StartTime A = StartTime B
  ∧ ∃ vs,
      (∀ fuel, mergeFetchResponses fuel A B = Returned (None, set_Values vs A, B))
      ∧ length vs = length (Values A)
      ∧ first_writer_wins (Values A) (Values B) vs.
Proof.
  split; [reflexivity|]. split; [reflexivity|].
  apply (fetch_merge_equal_length (series 60 1260 60 gaps_a)
                                  (series 60 1260 60 gaps_b));
    reflexivity.
Defined.

(** *** Padding *)

(** When the gap-fill loop panics: exactly when [m1.Values] has a NaN at a
    position that [m2.Values] does not have. *)
Lemma fill_range_panics (v2 : list float) :
  ∀ n from v,
    (from + n)%nat = length v →
    for_range n from (fill_at v2) v = Panicked ↔
    ∃ k x, (from ≤ k)%nat ∧ v !! k = Some x ∧ is_nan x = true ∧
           (length v2 ≤ k)%nat.
Proof.
  induction n as [|n IH]; intros from v Hn; simpl.
  { split; [done|]. intros (k & x & Hk & Hx & _).
    apply lookup_lt_Some in Hx. lia. }
  unfold fill_at at 1.
  destruct (lookup_lt_is_Some_2 v from) as [x Hx]; [lia|]. rewrite Hx.
  destruct (is_nan x) eqn:Hnan; simpl.
  - unfold index. rewrite decide_False by lia. rewrite Nat2Z.id.
    destruct (v2 !! from) as [y|] eqn:Hy; simpl.
    + apply lookup_lt_Some in Hy as Hlt.
      set (v' := if negb (is_nan y) then <[from:=y]> v else v).
      assert (Hv' : ∀ k, k ≠ from → v' !! k = v !! k).
      { intros k Hk. subst v'. destruct (is_nan y); simpl; [done|].
        by rewrite list_lookup_insert_ne. }
      assert (Hlen : length v' = length v).
      { subst v'. destruct (is_nan y); simpl; by rewrite ?length_insert. }
      replace (obind (if negb (is_nan y) then Returned (<[from:=y]> v)
                      else Returned v) _)
        with (for_range n (Datatypes.S from) (fill_at v2) v')
        by (subst v'; by destruct (is_nan y)).
      rewrite IH by lia. split.
      * intros (k & z & Hk & Hz & Hz'). exists k, z.
        rewrite Hv' in Hz by lia. split; [lia | done].
      * intros (k & z & Hk & Hz & Hznan & Hzlen). exists k, z.
        rewrite Hv' by lia. split; [lia | done].
    + apply lookup_ge_None in Hy. split; [|done]. intros _. eauto 10.
  - rewrite IH by lia. split.
    + intros (k & z & Hk & Hz). exists k, z. split; [lia | done].
    + intros (k & z & Hk & Hz & Hznan & Hzlen). exists k, z.
      split; [|done]. destruct (decide (k = from)) as [->|]; [|lia].
      rewrite Hx in Hz. injection Hz as <-. congruence.
Qed.

Lemma fillGaps_panics (v1 v2 : list float) :
  fillGaps v1 v2 = Panicked ↔
  ∃ k x, v1 !! k = Some x ∧ is_nan x = true ∧ (length v2 ≤ k)%nat.
Proof.
  unfold fillGaps. rewrite fill_range_panics by done. split.
  - intros (k & x & _ & H). eauto.
  - intros (k & x & H). exists k, x. split; [lia | done].
Qed.

Lemma fillGaps_panics' (v1 v2 : list float) (n : nat) :
  fillGaps v1 (v2 ++ replicate n nan) = Panicked ↔
  ∃ k x, v1 !! k = Some x ∧ is_nan x = true ∧ (length v2 + n ≤ k)%nat.
Proof. by rewrite fillGaps_panics, length_app, length_replicate. Qed.

(** The padding branch of the length equalization. *)
Lemma equalize_pad (fuel : nat) (m1 m2 : FetchResponse) :
  (length (Values m2) < length (Values m1))%nat →
  ¬ StepTime m1 < StepTime m2 →
  StartTime m1 = StartTime m2 →
  equalize fuel m1 m2
  = Returned
      (None, m1,
       set_Values
         (Values m2 ++
          replicate (Nat.div2 (Datatypes.S (length (Values m1)
                                            - length (Values m2)))) nan) m2).
Proof.
  intros Hlen Hstep Hstart. unfold equalize.
  rewrite decide_False by lia. rewrite decide_False by lia.
  rewrite bool_decide_eq_false_2 by done.
  rewrite bool_decide_eq_true_2 by done. simpl.
  by rewrite padNaN_spec by (simpl; lia).
Qed.

(** X3.  Padding stops half-way.  When the first metric is longer by [d]
    samples, has no smaller step and the same start, then every merge that
    returns has appended ceil(d / 2) NaN samples to the second metric, not
    [d], and reports no error. *)
Theorem fetch_merge_pads_half (fuel : nat) (m1 m2 m1' m2' : FetchResponse) err :
  (length (Values m2) < length (Values m1))%nat →
  ¬ StepTime m1 < StepTime m2 →
  StartTime m1 = StartTime m2 →
  mergeFetchResponses fuel m1 m2 = Returned (err, m1', m2') →
  err = None
  ∧ Values m2'
    = Values m2 ++
      replicate (Nat.div2 (Datatypes.S (length (Values m1)
                                        - length (Values m2)))) nan
  ∧ (2 ≤ length (Values m1) - length (Values m2) →
     length (Values m2') < length (Values m1))%nat.
Proof.
  intros Hlen Hstep Hstart Hrun. unfold mergeFetchResponses in Hrun.
  rewrite equalize_pad in Hrun by done. simpl in Hrun.
  rewrite decide_False in Hrun by (by intros []).
  inv_obind Hrun. injection Hrun as <- <- <-. simpl.
  split; [done|]. split; [done|].
  intros Hd. rewrite length_app, length_replicate.
  destruct (length (Values m1) - length (Values m2))%nat
    as [|[|d]] eqn:Heq; [lia..|].
  change (Nat.div2 (Datatypes.S (Datatypes.S (Datatypes.S d))))
    with (Datatypes.S (Nat.div2 (Datatypes.S d))).
  pose proof (Nat.le_div2 d) as Hle.
  revert Hle. generalize (Nat.div2 (Datatypes.S d)). intros; lia.
Qed.

Lemma fetch_merge_pads_half_witness :
  let A := series 0 240 60 [1; 2; 3; 4]%float in
  let B := series 0 240 60 [nan]%float in
  mergeFetchResponses 0 A B
  = Returned (None, A, series 0 240 60 [nan; nan; nan]%float)
  ∧ (length (Values (series 0 240 60 [nan; nan; nan]%float))
     < length (Values A))%nat.
Proof.
  split; [reflexivity|].
  apply (fetch_merge_pads_half 0 (series 0 240 60 [1; 2; 3; 4]%float)
           (series 0 240 60 [nan]%float) (series 0 240 60 [1; 2; 3; 4]%float)
           (series 0 240 60 [nan; nan; nan]%float) None);
    [simpl; lia | simpl; lia | reflexivity | reflexivity | simpl; lia].
Defined.

(** X4.  On the padding branch the merge panics exactly when the longer
    metric has a NaN at a position at or beyond the padded length of the
    shorter one: the gap fill then reads [m2.Values] out of range. *)
Theorem fetch_merge_pad_panics (fuel : nat) (m1 m2 : FetchResponse) :
  (length (Values m2) < length (Values m1))%nat →
  ¬ StepTime m1 < StepTime m2 →
  StartTime m1 = StartTime m2 →
  mergeFetchResponses fuel m1 m2 = Panicked ↔
  ∃ k x, Values m1 !! k = Some x ∧ is_nan x = true ∧
         (length (Values m2)
          + Nat.div2 (Datatypes.S (length (Values m1) - length (Values m2)))
          ≤ k)%nat.
Proof.
  intros Hlen Hstep Hstart. unfold mergeFetchResponses.
  rewrite equalize_pad by done. simpl.
  rewrite decide_False by (by intros []).
  etrans; [|apply fillGaps_panics'].
  by destruct (fillGaps _ _).
Qed.

Lemma fetch_merge_pad_panics_witness :
  let A := series 0 240 60 [1; 2; 3; nan]%float in
  let B := series 0 240 60 [5]%float in
  mergeFetchResponses 0 A B = Panicked.
Proof.
  apply (fetch_merge_pad_panics 0 (series 0 240 60 [1; 2; 3; nan]%float)
           (series 0 240 60 [5]%float)); [simpl; lia | simpl; lia | reflexivity |].
  exists 3%nat, nan. repeat split; simpl; lia.
Defined.

(** *** Resampling *)

Lemma wrap64_id (z : Z) : - 2 ^ 63 ≤ z < 2 ^ 63 → wrap64 z = z.
Proof. intros Hz. unfold wrap64. rewrite Z.mod_small; lia. Qed.

(** The resampling branch of the length equalization, up to the loop. *)
Lemma equalize_resample (fuel : nat) (m1 m2 : FetchResponse) :
  (length (Values m2) < length (Values m1))%nat →
  StepTime m1 < StepTime m2 →
  StepTime m2 ≠ 0 →
  wrap64 (StopTime m1 - Z.rem (StopTime m1) (StepTime m2)) = StopTime m2 →
  equalize fuel m1 m2
  = (values ←! resample fuel m1 m2 (StartTime m1) [];
     Returned (None, m1,
               set_grid (StepTime m1) (StartTime m1) (StopTime m1)
                        (set_Values values m2))).
Proof.
  intros Hlen Hstep Hnz Hguard. unfold equalize.
  rewrite decide_False by lia. rewrite decide_False by lia.
  rewrite bool_decide_eq_true_2 by done. simpl.
  unfold int64_rem. rewrite decide_False by done. simpl.
  by rewrite decide_False by (by intros []).
Qed.

(** X5.  A longer metric with step 0 makes the merge hang.  When the first
    metric is the longer one, has step 0 and a start before its stop, and the
    second has a positive step, a stop that passes the guard and at least one
    sample, the resampling loop never advances: no amount of fuel makes the
    merge return or panic. *)
Theorem fetch_merge_step_zero_hangs (m1 m2 : FetchResponse) :
  (length (Values m2) < length (Values m1))%nat →
  StepTime m1 = 0 →
  0 < StepTime m2 →
  - 2 ^ 63 ≤ StartTime m1 →
  StartTime m1 < StopTime m1 →
  StopTime m1 < 2 ^ 63 →
  wrap64 (StopTime m1 - Z.rem (StopTime m1) (StepTime m2)) = StopTime m2 →
  Values m2 ≠ [] →
  ∀ fuel, mergeFetchResponses fuel m1 m2 = OutOfFuel.
Proof.
  intros Hlen Hstep1 Hstep2 Hlo Hlt Hhi Hguard Hne fuel.
  unfold mergeFetchResponses.
  rewrite equalize_resample by (done || lia).
  assert (Hloop : ∀ values,
            resample fuel m1 m2 (StartTime m1) values = OutOfFuel).
  { induction fuel as [|fuel IH]; intros values; simpl;
      rewrite decide_True by done; [done|].
    unfold int64_div. rewrite decide_False by lia.
    rewrite Z.sub_diag. change (wrap64 0) with 0. rewrite Z.quot_0_l by lia.
    change (wrap64 0) with 0. simpl.
    destruct (Values m2) as [|v vs]; [done|]. simpl.
    rewrite Hstep1, Z.add_0_r, wrap64_id by lia. apply IH. }
  by rewrite Hloop.
Qed.

Lemma fetch_merge_step_zero_hangs_witness :
  mergeFetchResponses 1000 (series 0 60 0 [1; 2]%float)
                           (series 0 60 60 [5]%float)
  = OutOfFuel.
Proof.
  apply (fetch_merge_step_zero_hangs (series 0 60 0 [1; 2]%float)
                                     (series 0 60 60 [5]%float));
    simpl; (lia || done).
Defined.

(** What the loop has done after [j] turns from [start]: [j] samples, the
    one at position [k] read at [k * step1 / step2] in [m2.Values]. *)
Lemma resample_loop (m1 m2 : FetchResponse) :
  0 ≤ StartTime m1 →
  0 < StepTime m1 →
  0 < StepTime m2 →
  StopTime m1 + StepTime m1 ≤ 2 ^ 63 →
  ∀ fuel (j : nat) values vs,
    StartTime m1 + Z.of_nat j * StepTime m1 < 2 ^ 63 →
    length values = j →
    (∀ k x, values !! k = Some x →
            Values m2 !! Z.to_nat (Z.of_nat k * StepTime m1 / StepTime m2)
            = Some x) →
    resample fuel m1 m2 (StartTime m1 + Z.of_nat j * StepTime m1) values
    = Returned vs →
    StopTime m1 ≤ StartTime m1 + Z.of_nat (length vs) * StepTime m1
    ∧ (j ≤ length vs)%nat
    ∧ ((j < length vs)%nat →
       StartTime m1 + (Z.of_nat (length vs) - 1) * StepTime m1 < StopTime m1)
    ∧ (∀ k x, vs !! k = Some x →
              Values m2 !! Z.to_nat (Z.of_nat k * StepTime m1 / StepTime m2)
              = Some x).
Proof.
  intros Hstart Hstep1 Hstep2 Hmax.
  induction fuel as [|fuel IH]; intros j values vs Hj Hlen Hvals Hrun;
    simpl in Hrun; case_decide as Hts; try done.
  { injection Hrun as <-. rewrite Hlen. repeat split; [lia | lia | lia | done]. }
  2: { injection Hrun as <-. rewrite Hlen.
       repeat split; [lia | lia | lia | done]. }
  - assert (Hoff : wrap64 (StartTime m1 + Z.of_nat j * StepTime m1
                           - StartTime m1) = Z.of_nat j * StepTime m1).
    { rewrite wrap64_id; nia. }
    rewrite Hoff in Hrun. unfold int64_div in Hrun.
    rewrite decide_False in Hrun by lia. simpl in Hrun.
    rewrite Z.quot_div_nonneg in Hrun by nia.
    assert (Hq : 0 ≤ Z.of_nat j * StepTime m1 / StepTime m2
                 ≤ Z.of_nat j * StepTime m1).
    { split; [apply Z.div_pos; nia|].
      apply Z.div_le_upper_bound; nia. }
    rewrite wrap64_id in Hrun by nia.
    inv_obind Hrun. apply index_Returned in Hrun0 as [_ Hidx].
    rewrite wrap64_id in Hrun by nia.
    replace (StartTime m1 + Z.of_nat j * StepTime m1 + StepTime m1)
      with (StartTime m1 + Z.of_nat (Datatypes.S j) * StepTime m1) in Hrun
      by lia.
    apply IH in Hrun as (Hend & Hge & Hlast & Hall).
    + repeat split; [done | lia | | done].
      intros _. destruct (decide (Datatypes.S j = length vs)) as [Heq|Hneq].
      * rewrite <- Heq. lia.
      * apply Hlast. lia.
    + lia.
    + rewrite length_app. simpl. lia.
    + intros k x Hk. apply lookup_app_Some in Hk as [Hk|[Hge Hk]].
      * by apply Hvals.
      * rewrite Hlen in Hge, Hk.
        destruct (k - j)%nat as [|?] eqn:Hkj; [|done].
        injection Hk as <-. replace k with j by lia. done.
Qed.

Lemma resample_fuel_enough (m1 m2 : FetchResponse) :
  0 ≤ StartTime m1 →
  0 < StepTime m1 →
  0 < StepTime m2 →
  StopTime m1 + StepTime m1 ≤ 2 ^ 63 →
  ∀ fuel (j : nat) values,
    StartTime m1 + Z.of_nat j * StepTime m1 < 2 ^ 63 →
    StopTime m1
    ≤ StartTime m1 + (Z.of_nat j + Z.of_nat fuel) * StepTime m1 →
    resample fuel m1 m2 (StartTime m1 + Z.of_nat j * StepTime m1) values
    ≠ OutOfFuel.
Proof.
  intros Hstart Hstep1 Hstep2 Hmax.
  induction fuel as [|fuel IH]; intros j values Hj Hfuel; simpl;
    case_decide as Hts; try done; [exfalso; nia|].
  rewrite wrap64_id by nia. unfold int64_div.
  rewrite decide_False by lia. simpl.
  unfold index. case_decide; [done|].
  destruct (Values m2 !! _); simpl; [|done].
  rewrite wrap64_id by nia.
  replace (StartTime m1 + Z.of_nat j * StepTime m1 + StepTime m1)
    with (StartTime m1 + Z.of_nat (Datatypes.S j) * StepTime m1) by lia.
  apply IH; nia.
Qed.

(** X6.  What resampling produces.  For a non-negative start, positive steps
    and a stop that leaves room for one more step in an [int64], the loop
    needs at most ceil((stop - start) / step1) turns of fuel; and when it
    returns, it returns that many samples, the one at position [k] being
    [m2.Values[k * step1 / step2]], the nearest sample of [m2] at or below. *)
Theorem resample_nearest_lower (fuel : nat) (m1 m2 : FetchResponse) :
  0 ≤ StartTime m1 < 2 ^ 63 →
  0 < StepTime m1 →
  0 < StepTime m2 →
  StopTime m1 + StepTime m1 ≤ 2 ^ 63 →
  let turns :=
    Z.to_nat ((StopTime m1 - StartTime m1 + StepTime m1 - 1) / StepTime m1) in
  ((turns ≤ fuel)%nat → resample fuel m1 m2 (StartTime m1) [] ≠ OutOfFuel)
  ∧ ∀ vs,
      resample fuel m1 m2 (StartTime m1) [] = Returned vs →
      length vs = turns
      ∧ ∀ k x, vs !! k = Some x →
               Values m2 !! Z.to_nat (Z.of_nat k * StepTime m1 / StepTime m2)
               = Some x.
Proof.
  intros [Hstart Hstart'] Hstep1 Hstep2 Hmax turns. split.
  - intros Hfuel.
    replace (StartTime m1) with (StartTime m1 + Z.of_nat 0 * StepTime m1) at 1
      by lia.
    apply resample_fuel_enough; try done; [lia|].
    subst turns.
    pose proof (Z.div_mod (StopTime m1 - StartTime m1 + StepTime m1 - 1)
                  (StepTime m1)) as Hdm.
    pose proof (Z.mod_pos_bound
                  (StopTime m1 - StartTime m1 + StepTime m1 - 1)
                  (StepTime m1) Hstep1) as Hr.
    revert Hfuel Hdm Hr.
    generalize ((StopTime m1 - StartTime m1 + StepTime m1 - 1)
                `mod` StepTime m1).
    generalize ((StopTime m1 - StartTime m1 + StepTime m1 - 1)
                / StepTime m1).
    intros q r Hfuel Hdm Hr.
    assert (Hq : q ≤ Z.of_nat fuel) by lia.
    specialize (Hdm ltac:(lia)). nia.
  - intros vs Hrun.
    replace (StartTime m1) with (StartTime m1 + Z.of_nat 0 * StepTime m1)
      in Hrun at 1 by lia.
    apply resample_loop in Hrun as (Hend & _ & Hlast & Hall);
      [|done..|lia|done|done].
    split; [|done]. subst turns.
    assert (Hlast' : length vs ≠ O →
              StartTime m1 + (Z.of_nat (length vs) - 1) * StepTime m1
              < StopTime m1) by (intros; apply Hlast; lia).
    clear Hlast Hall. revert Hend Hlast'.
    generalize (length vs). intros n Hend Hlast.
    pose proof (Z.div_mod (StopTime m1 - StartTime m1 + StepTime m1 - 1)
                  (StepTime m1)) as Hdm.
    pose proof (Z.mod_pos_bound
                  (StopTime m1 - StartTime m1 + StepTime m1 - 1)
                  (StepTime m1) Hstep1) as Hr.
    revert Hdm Hr.
    generalize ((StopTime m1 - StartTime m1 + StepTime m1 - 1)
                `mod` StepTime m1).
    generalize ((StopTime m1 - StartTime m1 + StepTime m1 - 1)
                / StepTime m1).
    intros q r Hdm Hr. specialize (Hdm ltac:(lia)).
    destruct n as [|n].
    + assert (q ≤ 0) by nia. lia.
    + specialize (Hlast ltac:(done)).
      assert (q = Z.of_nat (Datatypes.S n)) by nia. lia.
Qed.

Lemma resample_nearest_lower_witness :
  let A := series 60 660 60 one_to_ten in
  let B := series 0 600 120 odd_to_nine in
  resample 10 A B 60 [] = Returned [1; 1; 3; 3; 5; 5; 7; 7; 9; 9]%float
  ∧ length [1; 1; 3; 3; 5; 5; 7; 7; 9; 9]%float
    = Z.to_nat ((660 - 60 + 60 - 1) / 60).
Proof.
  split; [reflexivity|].
  apply (resample_nearest_lower 10 (series 60 660 60 one_to_ten)
           (series 0 600 120 odd_to_nine)); simpl; (lia || reflexivity).
Defined.

(** *** Errors and what a merge leaves behind *)

(** X7.  The two errors of the pair-merge.  An error it returns is
    [ErrResponseLengthMismatch], for metrics of different lengths, which it
    leaves swapped when the first was the shorter; or it is
    [ErrResponseStartTimeMismatch], for metrics of the same length and
    different starts, which it leaves untouched.  Nothing else is ever
    returned as an error. *)
Theorem fetch_merge_errors (fuel : nat) (m1 m2 m1' m2' : FetchResponse) e :
  mergeFetchResponses fuel m1 m2 = Returned (Some e, m1', m2') →
  (e = ErrResponseLengthMismatch
   ∧ length (Values m1) ≠ length (Values m2)
   ∧ m1' = longer m1 m2 ∧ m2' = shorter m1 m2)
  ∨ (e = ErrResponseStartTimeMismatch
     ∧ length (Values m1) = length (Values m2)
     ∧ StartTime m1 ≠ StartTime m2
     ∧ m1' = m1 ∧ m2' = m2).
Proof.
  unfold mergeFetchResponses. intros Hrun. inv_obind Hrun.
  destruct a as [[err a] b].
  apply equalize_spec in Hrun0
    as [(Hlen & -> & -> & ->)|(Hlen & -> & [[-> ->]|[Hpad|Hres]])].
  - case_decide as Hstart; [|by destruct (fillGaps _ _)].
    injection Hrun as <- <- <-. by right.
  - injection Hrun as <- <- <-. by left.
  - destruct Hpad as (-> & _ & Heqs & ->).
    rewrite decide_False in Hrun by (simpl; by intros []).
    by destruct (fillGaps _ _).
  - destruct Hres as (-> & _ & vs & _ & ->).
    rewrite decide_False in Hrun by (simpl; by intros []).
    by destruct (fillGaps _ _).
Qed.

Lemma fetch_merge_errors_witness :
  let A := series 0 120 60 [1; 2]%float in
  let B := series 60 240 60 [1; 2; 3]%float in
  mergeFetchResponses 0 A B = Returned (Some ErrResponseLengthMismatch, B, A)
  ∧ ((ErrResponseLengthMismatch = ErrResponseLengthMismatch
      ∧ length (Values A) ≠ length (Values B)
      ∧ B = longer A B ∧ A = shorter A B)
     ∨ (ErrResponseLengthMismatch = ErrResponseStartTimeMismatch
        ∧ length (Values A) = length (Values B)
        ∧ StartTime A ≠ StartTime B
        ∧ B = A ∧ A = B)).
Proof.
  split; [reflexivity|].
  apply (fetch_merge_errors 0 (series 0 120 60 [1; 2]%float)
           (series 60 240 60 [1; 2; 3]%float)).
  reflexivity.
Defined.

(** X8.  What the merged metric is made of.  After a merge without error the
    first metric is the longer of the two inputs in everything but its
    samples (name, start, stop, step, consolidation, ...), and the second
    metric starts where the first does. *)
Theorem fetch_merge_keeps_longer (fuel : nat) (m1 m2 m1' m2' : FetchResponse) :
  mergeFetchResponses fuel m1 m2 = Returned (None, m1', m2') →
  m1' = set_Values (Values m1') (longer m1 m2)
  ∧ StartTime m2' = StartTime m1'.
Proof.
  intros (a & vs & Heq & Hstart & _ & ->)%mergeFetchResponses_ok.
  apply equalize_longer in Heq as <-. by destruct a.
Qed.

Lemma fetch_merge_keeps_longer_witness :
  let A := series 0 1200 120 gaps_c in
  let B := series 60 1260 60 gaps_b in
  mergeFetchResponses 20 A B
  = Returned (None, series 60 1260 60 gaps_bc,
              series 60 1260 60 gaps_c_aligned)
  ∧ series 60 1260 60 gaps_bc = set_Values gaps_bc (longer A B)
  ∧ StartTime (series 60 1260 60 gaps_c_aligned) = 60.
Proof.
  split; [reflexivity|].
  apply (fetch_merge_keeps_longer 20 (series 0 1200 120 gaps_c)
           (series 60 1260 60 gaps_b) (series 60 1260 60 gaps_bc)
           (series 60 1260 60 gaps_c_aligned)).
  reflexivity.
Defined.

End FetchMore.

(** ** Fetch response-level merge *)

Section FetchResponseMore.
Import Fetch.

Lemma index_names_other (ms : list FetchResponse) :
  ∀ i metrics n,
    n ∉ Name <$> ms → index_names i ms metrics !! n = metrics !! n.
Proof.
  induction ms as [|m ms IH]; intros i metrics n Hn; [done|].
  simpl in *. apply not_elem_of_cons in Hn as [Hne Hn].
  rewrite IH by done. by rewrite lookup_insert_ne.
Qed.

Lemma index_names_found (ms : list FetchResponse) :
  ∀ i metrics k m,
    NoDup (Name <$> ms) →
    ms !! k = Some m →
    index_names i ms metrics !! Name m = Some (i + k)%nat.
Proof.
  induction ms as [|m0 ms IH]; intros i metrics k m Hnd Hk; [done|].
  simpl in Hnd. apply NoDup_cons in Hnd as [Hm0 Hnd].
  destruct k as [|k]; simpl in *.
  - injection Hk as ->. rewrite index_names_other by done.
    rewrite lookup_insert_eq. f_equal. lia.
  - rewrite (IH _ _ k m) by done. f_equal. lia.
Qed.

(** X9.  Responses without a common metric name are concatenated.  When no
    metric of [second] has the name of a metric of [first] and [second] has
    no error, the merge returns for every fuel, [first] holds its own metrics
    followed by those of [second] in their order, its error is cleared, and
    [second] is as it was. *)
Theorem fetch_response_merge_disjoint (fuel : nat)
    (first second : ServerFetchResponse) (fm sm : list FetchResponse) :
  Response first = Some fm →
  Response second = Some sm →
  Err second = None →
  (∀ m, m ∈ sm → Name m ∉ Name <$> fm) →
  Merge fuel first second
  = Returned ({| ResponsesMap := ResponsesMap first;
                 Response := Some (fm ++ sm);
                 Stats := Types.Stats_Merge (Stats first) (Stats second);
                 Err := None |}, second).
Proof.
  intros Hfm Hsm Herr Hnew. unfold Merge. rewrite Herr, Hfm, Hsm. simpl.
  assert (Hloop : ∀ n i,
            (i + n)%nat = length sm →
            for_range n i (merge_at fuel (index_names 0 fm ∅))
                      (fm ++ take i sm, sm)
            = Returned (fm ++ sm, sm)).
  { induction n as [|n IH]; intros i Hn; simpl.
    - by rewrite take_ge by lia.
    - unfold index. rewrite decide_False by lia. rewrite Nat2Z.id.
      destruct (lookup_lt_is_Some_2 sm i) as [m Hm]; [lia|].
      rewrite Hm. simpl.
      rewrite index_names_other
        by (apply Hnew; by eapply list_elem_of_lookup_2).
      rewrite lookup_empty. simpl.
      rewrite <- app_assoc, <- (take_S_r sm i m) by done. apply IH. lia. }
  specialize (Hloop (length sm) O eq_refl). rewrite take_0, app_nil_r in Hloop.
  rewrite Hloop. simpl. destruct second; simpl in *. by subst.
Qed.

Lemma fetch_response_merge_disjoint_witness :
  Merge 0 (response [metric "x" [1; nan]%float])
          (response [metric "y" [5; 6]%float; metric "z" [7; 8]%float])
  = Returned (response [metric "x" [1; nan]%float; metric "y" [5; 6]%float;
                        metric "z" [7; 8]%float],
              response [metric "y" [5; 6]%float; metric "z" [7; 8]%float]).
Proof.
  apply (fetch_response_merge_disjoint 0
           (response [metric "x" [1; nan]%float])
           (response [metric "y" [5; 6]%float; metric "z" [7; 8]%float])
           [metric "x" [1; nan]%float]
           [metric "y" [5; 6]%float; metric "z" [7; 8]%float]);
    try reflexivity.
  intros m Hm Hin. apply list_elem_of_singleton in Hin.
  repeat (apply elem_of_cons in Hm as [->|Hm]); try discriminate Hin.
  by apply elem_of_nil in Hm.
Defined.

(** X10.  Responses that list the same metrics in the same order are merged
    position by position.  When the names of [first] and [second] are the
    same list without repetition, a merge that returns has called the
    pair-merge on the metrics at position [i] of both, for every [i], and
    left its two results at position [i] of both; no metric is added. *)
Theorem fetch_response_merge_aligned (fuel : nat)
    (first second first' second' : ServerFetchResponse)
    (fm sm : list FetchResponse) :
  Response first = Some fm →
  Response second = Some sm →
  Err second = None →
  Name <$> fm = Name <$> sm →
  NoDup (Name <$> fm) →
  Merge fuel first second = Returned (first', second') →
  ∃ fm' sm',
    Response first' = Some fm' ∧ Response second' = Some sm' ∧
    length fm' = length fm ∧ length sm' = length sm ∧
    ∀ i m1 m2,
      fm !! i = Some m1 → sm !! i = Some m2 →
      ∃ e m1' m2',
        mergeFetchResponses fuel m1 m2 = Returned (e, m1', m2') ∧
        fm' !! i = Some m1' ∧ sm' !! i = Some m2'.
Proof.
  intros Hfm Hsm Herr Hnames Hnd Hrun. unfold Merge in Hrun.
  rewrite Herr, Hfm, Hsm in Hrun. simpl in Hrun.
  inv_obind Hrun. destruct a as [fm' sm']. injection Hrun as <- <-.
  exists fm', sm'. split; [done|]. split; [done|].
  set (P := λ (i : nat) (st : list FetchResponse * list FetchResponse),
         length st.1 = length fm ∧ length st.2 = length sm ∧
         (∀ k, (i ≤ k)%nat → st.1 !! k = fm !! k ∧ st.2 !! k = sm !! k) ∧
         (∀ k m1 m2, (k < i)%nat → fm !! k = Some m1 → sm !! k = Some m2 →
            ∃ e m1' m2',
              mergeFetchResponses fuel m1 m2 = Returned (e, m1', m2') ∧
              st.1 !! k = Some m1' ∧ st.2 !! k = Some m2')).
  apply (for_range_inv P) in Hrun0.
  - destruct Hrun0 as (Hlen1 & Hlen2 & _ & Hdone). simpl in *.
    split; [done|]. split; [done|]. intros i m1 m2 Hm1 Hm2.
    apply (Hdone i m1 m2); [|done..]. by eapply lookup_lt_Some.
  - clear Hrun0. intros i [fc sc] [fc' sc'] (Hlen1 & Hlen2 & Hrest & Hdone)
      Hstep. simpl in *.
    apply obind_Returned in Hstep as (a & Hm & Hstep).
    apply index_Returned in Hm as [_ Hm].
    rewrite Nat2Z.id in Hm.
    destruct (Hrest i) as [Hfi Hsi]; [lia|]. rewrite Hsi in Hm.
    assert (Hfmi : is_Some (fm !! i)).
    { apply lookup_lt_is_Some. apply lookup_lt_Some in Hm.
      apply (f_equal length) in Hnames. rewrite !length_fmap in Hnames. lia. }
    destruct Hfmi as [m1 Hm1].
    assert (Hname : Name m1 = Name a).
    { apply (f_equal (λ l, l !! i)) in Hnames.
      rewrite !list_lookup_fmap, Hm1, Hm in Hnames. by injection Hnames. }
    rewrite <- Hname, (index_names_found fm 0 ∅ i m1) in Hstep by done.
    simpl in Hstep.
    apply obind_Returned in Hstep as (x1 & Ha0 & Hstep).
    apply obind_Returned in Hstep as (x2 & Ha1 & Hstep).
    apply index_Returned in Ha0 as [_ Ha0], Ha1 as [_ Ha1].
    rewrite Nat2Z.id in Ha0, Ha1. rewrite Hfi, Hm1 in Ha0.
    rewrite Hsi, Hm in Ha1. injection Ha0 as <-. injection Ha1 as <-.
    apply obind_Returned in Hstep as ([[e m1'] m2'] & Hmerge & Hstep).
    injection Hstep as <- <-. repeat split; simpl.
    + by rewrite length_insert.
    + by rewrite length_insert.
    + rewrite list_lookup_insert_ne by lia. apply Hrest. lia.
    + rewrite list_lookup_insert_ne by lia. apply Hrest. lia.
    + intros k n1 n2 Hk Hn1 Hn2. destruct (decide (k = i)) as [->|Hne].
      * rewrite Hm1 in Hn1. rewrite Hm in Hn2.
        injection Hn1 as <-. injection Hn2 as <-.
        exists e, m1', m2'. split; [done|].
        rewrite !list_lookup_insert_eq; [done|..];
          [rewrite Hlen2 | rewrite Hlen1]; by eapply lookup_lt_Some.
      * rewrite !list_lookup_insert_ne by done.
        apply Hdone; [lia | done..].
  - repeat split; simpl; try done. intros; lia.
Qed.

Lemma fetch_response_merge_aligned_witness :
  let fm := [metric "x" [nan; 1]%float; metric "y" [nan; nan]] in
  let sm := [metric "x" [5; 6]%float; metric "y" [7; 8]%float] in
  Merge 0 (response fm) (response sm)
  = Returned (response [metric "x" [5; 1]%float; metric "y" [7; 8]%float],
              response sm)
  ∧ ∃ fm' sm',
      Some [metric "x" [5; 1]%float; metric "y" [7; 8]%float] = Some fm' ∧
      Some sm = Some sm' ∧
      length fm' = length fm ∧ length sm' = length sm ∧
      ∀ i m1 m2,
        fm !! i = Some m1 → sm !! i = Some m2 →
        ∃ e m1' m2',
          mergeFetchResponses 0 m1 m2 = Returned (e, m1', m2') ∧
          fm' !! i = Some m1' ∧ sm' !! i = Some m2'.
Proof.
  split; [reflexivity|].
  apply (fetch_response_merge_aligned 0
           (response [metric "x" [nan; 1]%float; metric "y" [nan; nan]])
           (response [metric "x" [5; 6]%float; metric "y" [7; 8]%float])
           (response [metric "x" [5; 1]%float; metric "y" [7; 8]%float])
           (response [metric "x" [5; 6]%float; metric "y" [7; 8]%float]));
    try reflexivity.
  apply (bool_decide_unpack _). vm_compute. exact I.
Defined.

End FetchResponseMore.

(** ** Find merger, continued *)

Section FindMore.
Import Find.
#[local] Set Warnings "-clear-no-such-hyp".

(** *** The index, without any assumption on the names *)

Lemma index_first_known (ms : list GlobResponse) :
  ∀ i seenMetrics seen n,
    n ∈ names ms → is_Some ((index_first i ms seenMetrics seen).1 !! n).
Proof.
  induction ms as [|m ms IH]; intros i seenMetrics seen n Hn.
  { by apply elem_of_nil in Hn. }
  simpl. destruct (decide (n ∈ names ms)) as [Hin|Hout]; [by apply IH|].
  apply elem_of_cons in Hn as [->|Hn]; [|done].
  rewrite index_first_other by done. rewrite lookup_insert_eq. by eexists.
Qed.

Lemma index_first_name (ms : list GlobResponse) :
  ∀ i seenMetrics seen n j,
    (index_first i ms seenMetrics seen).1 !! n = Some j →
    seenMetrics !! n = Some j
    ∨ ((i ≤ j)%nat ∧ ∃ m, ms !! (j - i)%nat = Some m ∧ Name m = n).
Proof.
  induction ms as [|m0 ms IH]; intros i seenMetrics seen n j Hj; [by left|].
  simpl in Hj. apply IH in Hj as [Hj|(Hle & m & Hm & Hn)].
  - destruct (decide (Name m0 = n)) as [<-|Hne].
    + rewrite lookup_insert_eq in Hj. injection Hj as <-. right.
      split; [done|]. exists m0. by rewrite Nat.sub_diag.
    + rewrite lookup_insert_ne in Hj by done. by left.
  - right. split; [lia|]. exists m. split; [|done].
    replace (j - i)%nat with (Datatypes.S (j - Datatypes.S i)) by lia. done.
Qed.

(** The index knows exactly the names of [first] and points into it. *)
Lemma index_first_domain (fm : list GlobResponse) :
  (∀ n, n ∈ names fm ↔ is_Some ((index_first 0 fm ∅ ∅).1 !! n))
  ∧ (∀ n j, (index_first 0 fm ∅ ∅).1 !! n = Some j →
            ∃ m, fm !! j = Some m ∧ Name m = n).
Proof.
  split.
  - intros n. split; [apply index_first_known|].
    intros [j Hj]. destruct (decide (n ∈ names fm)) as [|Hn]; [done|].
    rewrite index_first_other in Hj by done. by rewrite lookup_empty in Hj.
  - intros n j [Hj|(_ & m & Hm & Hn)]%index_first_name.
    + by rewrite lookup_empty in Hj.
    + rewrite Nat.sub_0_r in Hm. eauto.
Qed.

(** *** The merge always returns, and in which order *)

Lemma names_insert_match (cur : list GlobResponse) (i : nat)
    (fi : GlobResponse) (mms : list GlobMatch) :
  cur !! i = Some fi →
  names (<[i := {| Name := Name fi; Matches := mms |}]> cur) = names cur.
Proof.
  intros Hfi. unfold names. rewrite list_fmap_insert. simpl.
  apply list_insert_id. by rewrite list_lookup_fmap, Hfi.
Qed.

Lemma add_matches_names (i : nat) :
  ∀ mms cur seen,
    (i < length cur)%nat →
    ∃ cur' seen',
      add_matches i mms (cur, seen) = Returned (cur', seen') ∧
      names cur' = names cur.
Proof.
  induction mms as [|mm mms IH]; intros cur seen Hi; [by eexists _, _|].
  cbn [add_matches].
  destruct (lookup_lt_is_Some_2 cur i Hi) as [fi Hfi]. rewrite Hfi.
  cbn [deref obind]. case_decide; [by apply IH|].
  destruct (IH (<[i := {| Name := Name fi; Matches := Matches fi ++ [mm] |}]>
                  cur)
               ({[match_key (Name fi) (Path mm)]} ∪ seen))
    as (cur' & seen' & Hrun & Hnames); [by rewrite length_insert|].
  exists cur', seen'. split; [done|].
  by rewrite Hnames, names_insert_match.
Qed.

Lemma merge_metrics_names (fm : list GlobResponse)
    (seenMetrics : gmap string nat) :
  (∀ n, n ∈ names fm ↔ is_Some (seenMetrics !! n)) →
  (∀ n j, seenMetrics !! n = Some j → (j < length fm)%nat) →
  ∀ sm cur seen,
    (length fm ≤ length cur)%nat →
    ∃ cur' seen',
      merge_metrics seenMetrics sm (cur, seen) = Returned (cur', seen') ∧
      names cur' = names cur ++ filter (λ n, n ∉ names fm) (names sm).
Proof.
  intros Hknown Hbound.
  induction sm as [|m sm IH]; intros cur seen Hlen.
  { exists cur, seen. split; [done|]. by rewrite app_nil_r. }
  cbn [merge_metrics]. change (names (m :: sm)) with (Name m :: names sm).
  rewrite filter_cons.
  destruct (seenMetrics !! Name m) as [i|] eqn:Hlook.
  - rewrite decide_False
      by (intros Hn; apply Hn, Hknown; by rewrite Hlook).
    destruct (add_matches_names i (Matches m) cur seen)
      as (cur1 & seen1 & -> & Hnames1).
    { apply Hbound in Hlook. lia. }
    cbn [obind].
    destruct (IH cur1 seen1) as (cur' & seen' & Hrun & Hnames).
    { apply (f_equal length) in Hnames1. unfold names in Hnames1.
      rewrite !length_fmap in Hnames1. lia. }
    exists cur', seen'. split; [done|]. by rewrite Hnames, Hnames1.
  - rewrite decide_True
      by (intros [? Hn]%Hknown; by rewrite Hlook in Hn).
    simpl.
    destruct (IH (cur ++ [m]) seen) as (cur' & seen' & Hrun & Hnames).
    { rewrite length_app. lia. }
    exists cur', seen'. split; [done|].
    rewrite Hnames. unfold names at 1. rewrite fmap_app. simpl.
    by rewrite <- app_assoc.
Qed.

(** X11.  The find merge always returns, and keeps the order "first, then
    what is new in second".  Whatever the two responses hold, merging an
    error-free [second] into [first] returns without error, and the metric
    names of [first] afterwards are its own names, in place, followed by the
    names of [second] that [first] did not have, in the order of [second]. *)
Theorem find_merge_returns_in_order (fm sm : list GlobResponse)
    (s1 s2 : Types.Stats) (e1 : option error) :
  ∃ r,
    Merge {| Response := Some fm; Stats := s1; Err := e1 |}
          {| Response := Some sm; Stats := s2; Err := None |}
    = Returned (None, {| Response := Some r;
                         Stats := Types.Stats_Merge s1 s2; Err := None |})
    ∧ names r = names fm ++ filter (λ n, n ∉ names fm) (names sm).
Proof.
  unfold Merge. simpl.
  destruct (index_first 0 fm ∅ ∅) as [seenMetrics seenMatches] eqn:Hindex.
  destruct (index_first_domain fm) as [Hknown Hfound].
  rewrite Hindex in Hknown, Hfound. simpl in Hknown, Hfound.
  destruct (merge_metrics_names fm seenMetrics Hknown) with (sm := sm)
    (cur := fm) (seen := seenMatches) as (r & seen' & Hrun & Hnames);
    [|done|].
  { intros n j (m & Hm & _)%Hfound. by eapply lookup_lt_Some. }
  rewrite Hrun. simpl. eauto.
Qed.

(** *** No pair twice, whatever the keys *)

Lemma nodup_inv_init (fm sm : list GlobResponse) :
  well_formed fm →
  nodup_inv fm sm [] fm (index_first 0 fm ∅ ∅).2.
Proof.
  intros Hwf. rewrite index_first_seen. split.
  - eauto.
  - intros m Hm. left. apply list_elem_of_fmap. eauto.
  - by apply well_formed_NoDup_pairs.
  - intros p Hp _. rewrite union_empty_l_L.
    apply elem_of_list_to_set, list_elem_of_fmap. eauto.
  - done.
  - by left.
  - intros p _ Hp. by apply elem_of_nil in Hp.
Qed.

(** A match whose key is new is a pair that [first] does not hold yet. *)
Lemma add_match_nodup (fm sm : list GlobResponse) (done : list string)
    (cur : list GlobResponse) (seen : gset string)
    (i : nat) (fi : GlobResponse) (mm : GlobMatch) :
  nodup_inv fm sm done cur seen →
  cur !! i = Some fi →
  Name fi ∈ names fm →
  (Name fi, Path mm) ∈ pairs sm →
  match_key (Name fi) (Path mm) ∉ seen →
  nodup_inv fm sm done
    (<[i := {| Name := Name fi; Matches := Matches fi ++ [mm] |}]> cur)
    ({[ match_key (Name fi) (Path mm) ]} ∪ seen).
Proof.
  intros [Hnames Horigin Hnd Hkeys Hfirst Hfrom Hnew] Hfi Hfm Hmm Hkey.
  pose proof (pairs_insert_match cur i fi mm Hfi) as Hperm.
  assert (Hfresh : (Name fi, Path mm) ∉ pairs cur).
  { intros Hin. apply Hkey. by apply (Hkeys _ Hin). }
  split.
  - intros k m Hk. destruct (Hnames k m Hk) as (m' & Hm' & Hname).
    destruct (decide (k = i)) as [->|Hne].
    + rewrite Hfi in Hm'. injection Hm' as <-.
      eexists. split;
        [apply list_lookup_insert_eq; by eapply lookup_lt_Some | done].
    + exists m'. by rewrite list_lookup_insert_ne.
  - intros m [j Hj]%list_elem_of_lookup.
    destruct (decide (j = i)) as [->|Hne].
    + rewrite list_lookup_insert_eq in Hj by (by eapply lookup_lt_Some).
      injection Hj as <-. by left.
    + rewrite list_lookup_insert_ne in Hj by done.
      apply Horigin. by eapply list_elem_of_lookup_2.
  - rewrite Hperm. by constructor.
  - intros p Hp Hp1. rewrite Hperm in Hp.
    apply elem_of_cons in Hp as [->|Hp]; [set_solver|].
    apply elem_of_union_r. by apply Hkeys.
  - intros p Hp. rewrite Hperm. right. by apply Hfirst.
  - intros p Hp. rewrite Hperm in Hp.
    apply elem_of_cons in Hp as [->|Hp]; [by right | by apply Hfrom].
  - intros p Hp Hdone. rewrite Hperm. right. by apply Hnew.
Qed.

Lemma add_matches_nodup (fm sm : list GlobResponse) (done : list string)
    (i : nat) (n : string) :
  n ∈ names fm →
  ∀ mms cur seen,
    nodup_inv fm sm done cur seen →
    (∃ fi, cur !! i = Some fi ∧ Name fi = n) →
    (∀ mm, mm ∈ mms → (n, Path mm) ∈ pairs sm) →
    ∃ cur' seen',
      add_matches i mms (cur, seen) = Returned (cur', seen') ∧
      nodup_inv fm sm done cur' seen'.
Proof.
  intros Hn. induction mms as [|mm mms IH];
    intros cur seen Hinv (fi & Hfi & <-) Hsm; [by eexists _, _|].
  cbn [add_matches]. rewrite Hfi. cbn [deref obind].
  case_decide as Hkey.
  - apply IH; [done | eauto | intros; apply Hsm; by right].
  - apply IH.
    + apply add_match_nodup; [done.. | apply Hsm; by left | done].
    + eexists. split;
        [apply list_lookup_insert_eq; by eapply lookup_lt_Some | done].
    + intros; apply Hsm; by right.
Qed.

Lemma nodup_inv_append (fm sm : list GlobResponse) (done : list string)
    (cur : list GlobResponse) (seen : gset string) (m : GlobResponse) :
  nodup_inv fm sm done cur seen →
  Name m ∉ names fm →
  Name m ∉ done →
  NoDup (Path <$> Matches m) →
  (∀ p, p ∈ pairs sm → p.1 = Name m → p ∈ pairs [m]) →
  (∀ p, p ∈ pairs [m] → p ∈ pairs sm) →
  nodup_inv fm sm (Name m :: done) (cur ++ [m]) seen.
Proof.
  intros [Hnames Horigin Hnd Hkeys Hfirst Hfrom Hnew] Hfm Hdone Hpaths
    Hall Hm.
  assert (Hfresh : ∀ p, p ∈ pairs cur → p ∉ pairs [m]).
  { intros [n q] (m' & _ & Hm' & _ & -> & _)%elem_of_pairs
           Hp%elem_of_pairs_name.
    apply list_elem_of_singleton in Hp. simpl in Hp.
    destruct (Horigin m' Hm') as [Hin|Hin]; by rewrite Hp in Hin. }
  split.
  - intros k m0 Hk. destruct (Hnames k m0 Hk) as (m' & Hm' & Hname).
    exists m'. split; [|done]. by apply lookup_app_l_Some.
  - intros m' [Hm' | ->%list_elem_of_singleton]%elem_of_app.
    + destruct (Horigin m' Hm'); [by left | right; by right].
    + right. by left.
  - rewrite pairs_app. apply NoDup_app.
    split; [done|]. split; [done | by apply NoDup_pairs_singleton].
  - intros p Hp Hp1. rewrite pairs_app in Hp.
    apply elem_of_app in Hp as [Hp|Hp]; [by apply Hkeys|].
    apply elem_of_pairs_name, list_elem_of_singleton in Hp. simpl in Hp.
    by rewrite Hp in Hp1.
  - intros p Hp. rewrite pairs_app. apply elem_of_app. left. by apply Hfirst.
  - intros p Hp. rewrite pairs_app in Hp.
    apply elem_of_app in Hp as [Hp|Hp]; [by apply Hfrom | right; by apply Hm].
  - intros p Hp Hin. rewrite pairs_app. apply elem_of_app.
    apply elem_of_cons in Hin as [Heq|Hin]; [right; by apply Hall|].
    left. by apply Hnew.
Qed.

(** With unique names, the pairs under a name are those of one metric. *)
Lemma pairs_of_name (ms : list GlobResponse) (m : GlobResponse)
    (p : string * string) :
  NoDup (names ms) → m ∈ ms → p ∈ pairs ms → p.1 = Name m → p ∈ pairs [m].
Proof.
  intros Hnd [j Hj]%list_elem_of_lookup Hp Hname. destruct p as [n q].
  apply elem_of_pairs in Hp as (m' & mm & [k Hk]%list_elem_of_lookup
                                  & Hmm & -> & ->).
  simpl in Hname.
  assert (k = j) as ->.
  { apply (NoDup_lookup (names ms) k j (Name m')); [done|..];
      unfold names; rewrite list_lookup_fmap.
    - by rewrite Hk.
    - by rewrite Hj, Hname. }
  rewrite Hj in Hk. injection Hk as ->.
  apply elem_of_pairs. exists m', mm. repeat split; [by left | done].
Qed.

Lemma merge_metrics_nodup (fm sm0 : list GlobResponse)
    (seenMetrics : gmap string nat) :
  NoDup (names sm0) →
  (∀ n, n ∈ names fm → is_Some (seenMetrics !! n)) →
  (∀ n i, seenMetrics !! n = Some i → ∃ m, fm !! i = Some m ∧ Name m = n) →
  ∀ sm done cur seen,
    nodup_inv fm sm0 done cur seen →
    NoDup (names sm) →
    (∀ m, m ∈ sm → m ∈ sm0) →
    (∀ m, m ∈ sm → Name m ∉ done) →
    (∀ m, m ∈ sm → NoDup (Path <$> Matches m)) →
    ∃ cur' seen' done',
      merge_metrics seenMetrics sm (cur, seen) = Returned (cur', seen') ∧
      nodup_inv fm sm0 done' cur' seen' ∧
      ∀ n, n ∈ done ∨ (n ∈ names sm ∧ n ∉ names fm) → n ∈ done'.
Proof.
  intros Hnd0 Hknown Hindex.
  induction sm as [|m sm IH]; intros done cur seen Hinv Hnd Hsub Hdone Hpaths.
  { exists cur, seen, done. split; [done|]. split; [done|].
    intros n [Hn|[Hn _]]; [done | by apply elem_of_nil in Hn]. }
  apply NoDup_cons in Hnd as [Hm Hnd].
  assert (Hm0 : m ∈ sm0) by (apply Hsub; by left).
  assert (Hpairs_m : ∀ p, p ∈ pairs [m] → p ∈ pairs sm0).
  { intros [n q] (m' & mm & ->%list_elem_of_singleton & Hmm & -> & ->)
      %elem_of_pairs.
    apply elem_of_pairs. eauto 10. }
  cbn [merge_metrics].
  destruct (seenMetrics !! Name m) as [i|] eqn:Hlook.
  - destruct (Hindex _ _ Hlook) as (m1 & Hm1 & Hname).
    destruct (ni_names _ _ _ _ _ Hinv i m1 Hm1) as (fi & Hfi & Hfiname).
    assert (Hn : Name m ∈ names fm).
    { rewrite <- Hname. apply list_elem_of_fmap.
      exists m1. split; [done|]. by eapply list_elem_of_lookup_2. }
    destruct (add_matches_nodup fm sm0 done i (Name m) Hn (Matches m)
                cur seen Hinv) as (cur1 & seen1 & Hrun & Hinv1).
    { exists fi. split; [done | congruence]. }
    { intros mm Hmm. apply Hpairs_m. apply elem_of_pairs.
      exists m, mm. repeat split; [by left | done]. }
    rewrite Hrun. cbn [obind].
    destruct (IH done cur1 seen1 Hinv1) as (cur' & seen' & done' & Hrun'
                                            & Hinv' & Hdone'); try done.
    + intros m' Hm'. apply Hsub. by right.
    + intros m' Hm'. apply Hdone. by right.
    + intros m' Hm'. apply Hpaths. by right.
    + exists cur', seen', done'. split; [done|]. split; [done|].
      intros n [Hin|[[->|Hin]%elem_of_cons Hout]]; [| done |];
        apply Hdone'; auto.
  - assert (Hn : Name m ∉ names fm).
    { intros [? Hsome]%Hknown. by rewrite Hlook in Hsome. }
    simpl.
    destruct (IH (Name m :: done) (cur ++ [m]) seen)
      as (cur' & seen' & done' & Hrun' & Hinv' & Hdone'); try done.
    + apply nodup_inv_append; try done.
      * apply Hdone. by left.
      * apply Hpaths. by left.
      * intros p Hp Hname. by apply (pairs_of_name sm0).
    + intros m' Hm'. apply Hsub. by right.
    + intros m' Hm' [Heq|Hin]%elem_of_cons.
      * apply Hm. rewrite <- Heq. apply list_elem_of_fmap. eauto.
      * by apply (Hdone m'); [right|].
    + intros m' Hm'. apply Hpaths. by right.
    + exists cur', seen', done'. split; [done|]. split; [done|].
      intros n [Hin|[[->|Hin]%elem_of_cons Hout]]; apply Hdone'.
      * left. by right.
      * left. by left.
      * by right.
Qed.

(** X12.  The find merge never duplicates a pair and never loses one of
    [first]; it can only drop pairs of [second] under a name that [first]
    has too.  For responses with unique metric names and unique paths per
    metric, whatever the keys do: the merge returns, no (name, path) pair
    occurs twice in the result, every pair of [first] is in it, every pair
    in it comes from [first] or [second], and every pair of [second] under a
    metric name that [first] did not have is in it. *)
Theorem find_merge_no_duplicates (fm sm : list GlobResponse)
    (s1 s2 : Types.Stats) (e1 : option error) :
  well_formed fm →
  well_formed sm →
  ∃ r,
    Merge {| Response := Some fm; Stats := s1; Err := e1 |}
          {| Response := Some sm; Stats := s2; Err := None |}
    = Returned (None, {| Response := Some r;
                         Stats := Types.Stats_Merge s1 s2; Err := None |})
    ∧ NoDup (pairs r)
    ∧ (∀ p, p ∈ pairs fm → p ∈ pairs r)
    ∧ (∀ p, p ∈ pairs r → p ∈ pairs fm ∨ p ∈ pairs sm)
    ∧ (∀ p, p ∈ pairs sm → p.1 ∉ names fm → p ∈ pairs r).
Proof.
  intros Hfm [Hsm_names Hsm_paths]. unfold Merge. simpl.
  destruct (index_first 0 fm ∅ ∅) as [seenMetrics seenMatches] eqn:Hindex.
  destruct (index_first_domain fm) as [Hknown Hfound].
  rewrite Hindex in Hknown, Hfound. simpl in Hknown, Hfound.
  destruct (merge_metrics_nodup fm sm seenMetrics Hsm_names) with (sm := sm)
    (done := @nil string) (cur := fm) (seen := seenMatches)
    as (r & seen' & done' & Hrun & Hinv & Hdone); try done.
  - intros n Hn. by apply Hknown.
  - replace seenMatches with (index_first 0 fm ∅ ∅).2 by (by rewrite Hindex).
    by apply nodup_inv_init.
  - intros m _ Hin. by apply elem_of_nil in Hin.
  - rewrite Hrun. simpl. exists r. split; [done|].
    destruct Hinv as [_ _ Hnd _ Hfirst Hfrom Hnew].
    repeat split; try done.
    intros p Hp Hout. apply Hnew; [done|]. apply Hdone. right.
    split; [by apply elem_of_pairs_name | done].
Qed.

Ltac by_vm := apply (bool_decide_unpack _); vm_compute; exact I.

Lemma find_merge_no_duplicates_witness :
  ∃ r,
    Merge (response colliding_A) (response colliding_B)
    = Returned (None, response r)
    ∧ NoDup (pairs r)
    ∧ (∀ p, p ∈ pairs colliding_A → p ∈ pairs r)
    ∧ (∀ p, p ∈ pairs r → p ∈ pairs colliding_A ∨ p ∈ pairs colliding_B)
    ∧ (∀ p, p ∈ pairs colliding_B → p.1 ∉ names colliding_A → p ∈ pairs r).
Proof.
  apply (find_merge_no_duplicates colliding_A colliding_B no_stats no_stats).
  - split; [by_vm|].
    intros m Hm. repeat (apply elem_of_cons in Hm as [->|Hm]);
      [by_vm.. | by apply elem_of_nil in Hm].
  - split; [by_vm|].
    intros m ->%list_elem_of_singleton. by_vm.
Defined.

(** *** The union, and what a second merge adds *)

(** X13.  When keys tell pairs apart, the find merge is the union.  For
    responses with unique metric names and unique paths per metric such that
    no two different (name, path) pairs of the two responses give the same
    string name + "." + path, the merge returns and a pair is in the result
    exactly when it is in [first] or in [second], each pair once. *)
Theorem find_merge_pairs_union (fm sm : list GlobResponse)
    (s1 s2 : Types.Stats) (e1 : option error) :
  well_formed fm →
  well_formed sm →
  keys_injective (pairs fm ++ pairs sm) →
  ∃ r,
    Merge {| Response := Some fm; Stats := s1; Err := e1 |}
          {| Response := Some sm; Stats := s2; Err := None |}
    = Returned (None, {| Response := Some r;
                         Stats := Types.Stats_Merge s1 s2; Err := None |})
    ∧ NoDup (pairs r)
    ∧ ∀ p, p ∈ pairs r ↔ p ∈ pairs fm ∨ p ∈ pairs sm.
Proof.
  intros Hfm Hsm Hinj.
  destruct (find_merge_union fm sm s1 s2 e1 Hfm Hsm Hinj)
    as (r & Hrun & Hset & Hnd).
  exists r. split; [done|]. split; [done|]. intros p.
  rewrite <- (elem_of_list_to_set (C := gset (string * string)) p (pairs r)).
  fold (pair_set r). rewrite Hset. unfold pair_set.
  by rewrite elem_of_union, !elem_of_list_to_set.
Qed.

Lemma find_merge_pairs_union_witness :
  ∃ r,
    Merge (response globs_B) (response globs_A)
    = Returned (None, response r)
    ∧ NoDup (pairs r)
    ∧ ∀ p, p ∈ pairs r ↔ p ∈ pairs globs_B ∨ p ∈ pairs globs_A.
Proof.
  apply (find_merge_pairs_union globs_B globs_A no_stats no_stats).
  - split; [by_vm|].
    intros m Hm. repeat (apply elem_of_cons in Hm as [->|Hm]);
      [by_vm.. | by apply elem_of_nil in Hm].
  - split; [by_vm|].
    intros m ->%list_elem_of_singleton. by_vm.
  - apply keys_injective_Forall.
    repeat constructor;
      (reflexivity || (intros Hkey; vm_compute in Hkey; discriminate Hkey)).
Defined.

Lemma add_matches_seen (i : nat) (fi : GlobResponse)
    (cur : list GlobResponse) (seen : gset string) :
  cur !! i = Some fi →
  ∀ mms,
    (∀ mm, mm ∈ mms → match_key (Name fi) (Path mm) ∈ seen) →
    add_matches i mms (cur, seen) = Returned (cur, seen).
Proof.
  intros Hfi. induction mms as [|mm mms IH]; intros Hseen; [done|].
  cbn [add_matches]. rewrite Hfi. cbn [deref obind].
  rewrite decide_True by (apply Hseen; by left).
  apply IH. intros mm' Hmm'. apply Hseen. by right.
Qed.

Lemma merge_metrics_seen (fm : list GlobResponse)
    (seenMetrics : gmap string nat) (seen : gset string) :
  (∀ n i, seenMetrics !! n = Some i → ∃ m, fm !! i = Some m ∧ Name m = n) →
  ∀ sm,
    (∀ n, n ∈ names sm → is_Some (seenMetrics !! n)) →
    (∀ p, p ∈ pairs sm → key_of p ∈ seen) →
    merge_metrics seenMetrics sm (fm, seen) = Returned (fm, seen).
Proof.
  intros Hindex. induction sm as [|m sm IH]; intros Hknown Hseen; [done|].
  cbn [merge_metrics].
  destruct (Hknown (Name m)) as [i Hi]; [by left|]. rewrite Hi.
  destruct (Hindex _ _ Hi) as (fi & Hfi & Hname).
  rewrite (add_matches_seen i fi fm seen Hfi).
  - cbn [obind]. apply IH.
    + intros n Hn. apply Hknown. by right.
    + intros p Hp. apply Hseen. rewrite pairs_cons. apply elem_of_app.
      by right.
  - intros mm Hmm. rewrite Hname.
    apply (Hseen (Name m, Path mm)). apply elem_of_pairs.
    exists m, mm. repeat split; [by left | done].
Qed.

(** X14.  Merging what [first] already has changes nothing but the stats.
    If every metric name of [second] is a name of [first] and every
    (name, path) pair of [second] is a pair of [first], the merge returns
    and the metric list of [first] is the one it came with, match for match
    and in the same order.  In particular a response merged into itself, or
    the same [second] merged a second time, adds nothing. *)
Theorem find_merge_absorbs (fm sm : list GlobResponse)
    (s1 s2 : Types.Stats) (e1 : option error) :
  (∀ n, n ∈ names sm → n ∈ names fm) →
  (∀ p, p ∈ pairs sm → p ∈ pairs fm) →
  Merge {| Response := Some fm; Stats := s1; Err := e1 |}
        {| Response := Some sm; Stats := s2; Err := None |}
  = Returned (None, {| Response := Some fm;
                       Stats := Types.Stats_Merge s1 s2; Err := None |}).
Proof.
  intros Hnames Hpairs. unfold Merge. simpl.
  destruct (index_first 0 fm ∅ ∅) as [seenMetrics seenMatches] eqn:Hindex.
  destruct (index_first_domain fm) as [Hknown Hfound].
  pose proof (index_first_seen fm 0 ∅ ∅) as Hseen.
  rewrite Hindex in Hknown, Hfound, Hseen. simpl in Hknown, Hfound, Hseen.
  rewrite (merge_metrics_seen fm seenMetrics seenMatches Hfound sm); [done|..].
  - intros n Hn. by apply Hknown, Hnames.
  - intros p Hp. rewrite Hseen, union_empty_l_L.
    apply elem_of_list_to_set, list_elem_of_fmap. eauto.
Qed.

Lemma find_merge_absorbs_witness :
  Merge (response colliding_BA) (response colliding_A)
  = Returned (None, response colliding_BA).
Proof.
  apply (find_merge_absorbs colliding_BA colliding_A no_stats no_stats).
  - intros n Hn. vm_compute in Hn.
    repeat (apply elem_of_cons in Hn as [->|Hn]);
      [by_vm.. | by apply elem_of_nil in Hn].
  - intros p Hp. vm_compute in Hp.
    repeat (apply elem_of_cons in Hp as [->|Hp]);
      [by_vm.. | by apply elem_of_nil in Hp].
Defined.

(** X26.  When the find merge returns.  If [second] carries an error the
    merge returns that error and leaves the response and the error of
    [first] alone; only the stats are merged.  If it carries none, the merge
    panics exactly when one of the two responses is nil, as the response of
    a failed [first] is, and returns otherwise.  The stats of both
    are present throughout, as [Types.Stats_Merge] takes them. *)
Theorem find_merge_outcome (first second : ServerFindResponse) :
  match Err second with
  | Some e =>
      Merge first second
      = Returned (Some e,
                  {| Response := Response first;
                     Stats := Types.Stats_Merge (Stats first) (Stats second);
                     Err := Err first |})
  | None =>
      (Merge first second = Panicked
       ↔ Response first = None ∨ Response second = None)
      ∧ (Merge first second ≠ Panicked → ∃ r, Merge first second
                                              = Returned (None, r))
  end.
Proof.
  unfold Merge. destruct (Err second) as [e|]; [done|].
  destruct (Response first) as [fm|]; cbn [deref obind].
  2: { split; [by split; [left|] | done]. }
  destruct (index_first 0 fm ∅ ∅) as [seenMetrics seenMatches] eqn:Hindex.
  destruct (Response second) as [sm|]; cbn [deref obind].
  2: { split; [by split; [right|] | done]. }
  destruct (index_first_domain fm) as [Hknown Hfound].
  rewrite Hindex in Hknown, Hfound. simpl in Hknown, Hfound.
  destruct (merge_metrics_names fm seenMetrics Hknown) with (sm := sm)
    (cur := fm) (seen := seenMatches) as (r & seen' & -> & _); [|done|].
  { intros n j (m & Hm & _)%Hfound. by eapply lookup_lt_Some. }
  cbn [obind]. split; [|by eexists].
  split; [done | by intros [?|?]].
Qed.

End FindMore.

(** ** HTTP retry driver, continued *)

Section HelperMore.
Import Helper.

(** *** The server picker *)

(** With several servers a pick moves the counter on by one and takes the
    server at the counter's remainder. *)
Lemma pickServer_next (c : HttpQuery) (s : Z) :
  (2 ≤ length (servers c))%nat →
  0 ≤ s → s + 1 < 2 ^ 64 →
  ∃ srv,
    pickServer c s = (Returned srv, s + 1, [PickServer]) ∧
    servers c !! Z.to_nat ((s + 1) `mod` Z.of_nat (length (servers c)))
    = Some srv.
Proof.
  intros Hlen Hs Hmax.
  unfold pickServer, mbind, M_bind, bind, emit, lift, atomic_AddUint64. simpl.
  rewrite decide_False by lia.
  unfold wrapU64. rewrite (Z.mod_small (s + 1)) by lia.
  unfold uint64_rem. rewrite decide_False by lia. simpl.
  assert (Hidx : 0 ≤ (s + 1) `mod` Z.of_nat (length (servers c))
                 < Z.of_nat (length (servers c)))
    by (apply Z.mod_pos_bound; lia).
  unfold index. rewrite decide_False by lia.
  destruct (lookup_lt_is_Some_2 (servers c)
    (Z.to_nat ((s + 1) `mod` Z.of_nat (length (servers c)))))
    as [srv Hsrv]; [lia|].
  rewrite Hsrv. by exists srv.
Qed.

Lemma pick_many_spec (c : HttpQuery) :
  (2 ≤ length (servers c))%nat →
  ∀ k s,
    0 ≤ s → s + Z.of_nat k < 2 ^ 64 →
    ∃ l,
      pick_many c k s = (Returned l, s + Z.of_nat k, replicate k PickServer) ∧
      length l = k ∧
      ∀ i, (i < k)%nat →
        l !! i = servers c !! Z.to_nat ((s + 1 + Z.of_nat i)
                                        `mod` Z.of_nat (length (servers c))).
Proof.
  intros Hlen. induction k as [|k IH]; intros s Hs Hmax.
  - exists []. simpl. unfold ret. rewrite Z.add_0_r.
    split; [done|]. split; [done|]. intros i Hi. lia.
  - destruct (pickServer_next c s Hlen Hs) as (srv & Hpick & Hsrv); [lia|].
    destruct (IH (s + 1)) as (l & Hrun & Hl & Hlook); [lia..|].
    exists (srv :: l). cbn [pick_many]. unfold mbind, M_bind, bind.
    rewrite Hpick, Hrun. unfold ret. cbn [app].
    split; [|split; [by rewrite <- Hl|]].
    { rewrite app_nil_r. do 2 f_equal. lia. }
    intros [|i] Hi; cbn [lookup list_lookup].
    + by rewrite Z.add_0_r.
    + rewrite Hlook by lia. do 3 f_equal. lia.
Qed.

(** X15.  The picker is a round robin.  With at least two servers and the
    counter not about to wrap, as many consecutive picks as there are
    servers visit every server exactly once: the servers picked are the
    server list read cyclically from position (counter + 1) mod n.  Every
    pick moves the counter on by one. *)
Theorem pickServer_round_robin (c : HttpQuery) (s : Z) :
  (2 ≤ length (servers c))%nat →
  0 ≤ s → s + Z.of_nat (length (servers c)) < 2 ^ 64 →
  let n := length (servers c) in
  let r := Z.to_nat ((s + 1) `mod` Z.of_nat n) in
  pick_many c n s
  = (Returned (drop r (servers c) ++ take r (servers c)),
     s + Z.of_nat n, replicate n PickServer)
  ∧ drop r (servers c) ++ take r (servers c) ≡ₚ servers c.
Proof.
  intros Hlen Hs Hmax n r.
  assert (Hr : 0 ≤ (s + 1) `mod` Z.of_nat n < Z.of_nat n)
    by (apply Z.mod_pos_bound; lia).
  split; [|by rewrite Permutation_app_comm, take_drop].
  destruct (pick_many_spec c Hlen n s Hs Hmax) as (l & -> & Hl & Hlook).
  do 2 f_equal. f_equal. apply list_eq. intros i.
  destruct (decide (i < n)%nat) as [Hi|Hi].
  2: { rewrite !lookup_ge_None_2; [done|..].
       - rewrite length_app, length_drop, length_take. lia.
       - lia. }
  rewrite Hlook by done.
  replace (s + 1 + Z.of_nat i) with ((s + 1) + Z.of_nat i) by lia.
  rewrite <- Zplus_mod_idemp_l. fold n.
  replace ((s + 1) `mod` Z.of_nat n) with (Z.of_nat r) by lia.
  destruct (decide (r + i < n)%nat) as [Hlow|Hhigh].
  - rewrite lookup_app_l by (rewrite length_drop; lia).
    rewrite lookup_drop, Z.mod_small by lia. f_equal. lia.
  - rewrite lookup_app_r by (rewrite length_drop; lia).
    rewrite length_drop, lookup_take_lt by lia.
    replace (Z.of_nat r + Z.of_nat i)
      with ((Z.of_nat r + Z.of_nat i - Z.of_nat n) + 1 * Z.of_nat n) by lia.
    rewrite Z_mod_plus_full, Z.mod_small by lia. f_equal. lia.
Qed.

Lemma pickServer_round_robin_witness :
  let c := {| groupName := "g"; servers := ["a"; "b"; "c"]; maxTries := 1 |} in
  pick_many c 3 4 = (Returned ["c"; "a"; "b"], 7, replicate 3 PickServer)
  ∧ ["c"; "a"; "b"] ≡ₚ ["a"; "b"; "c"].
Proof.
  apply (pickServer_round_robin
           {| groupName := "g"; servers := ["a"; "b"; "c"]; maxTries := 1 |} 4);
    simpl; lia.
Defined.

(** *** One attempt *)

(** Unfolds an attempt down to the answers of the outside world. *)
Ltac attempt_cases c a :=
  unfold defer, emit, ret;
  destruct (url_Parse a _); [|
  destruct (http_NewRequest a _); [|
  cbn [bind fst snd];
  destruct (limiter_Enter a (groupName c)); [|
  destruct (client_Do a _) as [?|?]; [|
  case_decide; [|
  case_decide; [|
  destruct (ioutil_ReadAll a) as [?|?]]]]]]].

(** Only [pickServer] touches the counter. *)
Lemma doRequest_counter (c : HttpQuery) (a : Attempt) (uri : string) (s : Z) :
  (doRequest c a uri s).1.2 = (pickServer c s).1.2.
Proof.
  unfold doRequest, mbind, M_bind, bind.
  destruct (pickServer c s) as [[[srv| |] s'] l]; [|done..].
  attempt_cases c a; reflexivity.
Qed.

Lemma pickServer_counter (c : HttpQuery) (s : Z) :
  (pickServer c s).1.2
  = if decide (length (servers c) = 1%nat) then s else wrapU64 (s + 1).
Proof.
  unfold pickServer, mbind, M_bind, bind, emit, lift, atomic_AddUint64.
  cbn [fst snd]. case_decide.
  - by destruct (index (servers c) 0).
  - destruct (uint64_rem _ _) as [idx| |]; [|done..].
    by destruct (index (servers c) idx).
Qed.

(** A response comes from a server of the group. *)
Lemma doRequest_server (c : HttpQuery) (a : Attempt) (uri : string) (s : Z)
    (res : ServerResponse) (e : option error) :
  (doRequest c a uri s).1.1 = Returned (Some res, e) →
  Server res ∈ servers c.
Proof.
  unfold doRequest, mbind, M_bind, bind.
  destruct (pickServer_spec c s) as [(srv & s' & -> & Hsrv)|[_ (s' & ->)]];
    [|done].
  attempt_cases c a; simpl; intros [= <- <-]; done.
Qed.

(** Every slot taken in an attempt is given back in it; slots are asked for
    under the group name and given back under the name of a server. *)
Lemma doRequest_slots (c : HttpQuery) (a : Attempt) (uri : string) (s : Z) :
  acquired (doRequest c a uri s).2 = released (doRequest c a uri s).2
  ∧ (∀ k r, Enter k r ∈ (doRequest c a uri s).2 → k = groupName c)
  ∧ (∀ k, Leave k ∈ (doRequest c a uri s).2 → k ∈ servers c).
Proof.
  unfold doRequest, mbind, M_bind, bind.
  destruct (pickServer_spec c s) as [(srv & s' & -> & Hsrv)|[_ (s' & ->)]].
  2: { split; [done|]. split; intros ?; [intros ?|];
         intros Hin%list_elem_of_singleton; discriminate. }
  attempt_cases c a; cbn [bind fst snd app];
    (split; [reflexivity|]; split; [intros k r Hin | intros k Hin];
     repeat (apply elem_of_cons in Hin as [Heq|Hin];
             [try discriminate Heq; by injection Heq as -> |]);
     by apply elem_of_nil in Hin).
Qed.

(** *** The retry driver *)

Lemma picks_app (l1 l2 : list event) :
  picks (l1 ++ l2) = (picks l1 + picks l2)%nat.
Proof. unfold picks. by rewrite filter_app, length_app. Qed.

Lemma acquired_app (l1 l2 : list event) :
  acquired (l1 ++ l2) = (acquired l1 + acquired l2)%nat.
Proof. unfold acquired. by rewrite filter_app, length_app. Qed.

Lemma released_app (l1 l2 : list event) :
  released (l1 ++ l2) = (released l1 + released l2)%nat.
Proof. unfold released. by rewrite filter_app, length_app. Qed.

(** One turn of the loop, read off the attempt it makes. *)
Lemma DoQuery_loop_turn (c : HttpQuery) (env : nat → Attempt) (uri : string)
    (n try : nat) (err : option error) (s : Z) :
  let att := doRequest c (env try) uri s in
  DoQuery_loop c env uri (Datatypes.S n) try err s
  = match att.1.1 with
    | Returned (res, Some e) =>
        if decide (e = ErrNotFound)
        then (Returned (None, Some e), att.1.2, att.2)
        else
          let rest := DoQuery_loop c env uri n (Datatypes.S try) (Some e)
                        att.1.2 in
          (rest.1.1, rest.1.2, att.2 ++ rest.2)
    | Returned (res, None) => (Returned (res, None), att.1.2, att.2)
    | Panicked => (Panicked, att.1.2, att.2)
    | OutOfFuel => (OutOfFuel, att.1.2, att.2)
    end.
Proof.
  cbn [DoQuery_loop]. unfold mbind, M_bind, bind.
  destruct (doRequest c (env try) uri s) as [[[[res [e|]]| |] s'] l];
    cbn [fst snd]; try done.
  - case_decide.
    + unfold ret. by rewrite app_nil_r.
    + by destruct (DoQuery_loop _ _ _ _ _ _ _) as [[? ?] ?].
  - unfold ret. by rewrite app_nil_r.
Qed.

Lemma doRequest_picks (c : HttpQuery) (a : Attempt) (uri : string) (s : Z) :
  picks (doRequest c a uri s).2 = 1%nat.
Proof.
  destruct (doRequest_spec c a uri s)
    as [(r & s' & body & -> & Hbody & _)|[_ (s' & ->)]]; [|done].
  cbn [snd]. by rewrite picks_attempt.
Qed.

Lemma DoQuery_loop_counter (c : HttpQuery) (env : nat → Attempt)
    (uri : string) :
  length (servers c) ≠ 1%nat →
  ∀ n try err s,
    wrapU64 (DoQuery_loop c env uri n try err s).1.2
    = wrapU64 (s + Z.of_nat (picks (DoQuery_loop c env uri n try err s).2)).
Proof.
  intros Hlen. induction n as [|n IH]; intros try err s.
  { simpl. by rewrite Z.add_0_r. }
  rewrite DoQuery_loop_turn. cbv zeta.
  pose proof (doRequest_counter c (env try) uri s) as Hs.
  pose proof (doRequest_picks c (env try) uri s) as Hp.
  rewrite pickServer_counter, decide_False in Hs by done.
  assert (Hone : wrapU64 (doRequest c (env try) uri s).1.2
                 = wrapU64 (s + Z.of_nat
                                  (picks (doRequest c (env try) uri s).2))).
  { rewrite Hs, Hp. unfold wrapU64. by rewrite Z.mod_mod. }
  destruct ((doRequest c (env try) uri s).1.1) as [[res [e|]]| |];
    cbn [fst snd]; try done.
  case_decide; [done|]. cbn [fst snd].
  rewrite IH, picks_app, Hp, Hs. unfold wrapU64.
  rewrite Zplus_mod_idemp_l. f_equal. lia.
Qed.

Lemma DoQuery_loop_single (c : HttpQuery) (env : nat → Attempt)
    (uri : string) :
  length (servers c) = 1%nat →
  ∀ n try err s, (DoQuery_loop c env uri n try err s).1.2 = s.
Proof.
  intros Hlen. induction n as [|n IH]; intros try err s; [done|].
  rewrite DoQuery_loop_turn. cbv zeta.
  pose proof (doRequest_counter c (env try) uri s) as Hs.
  rewrite pickServer_counter, decide_True in Hs by done.
  destruct ((doRequest c (env try) uri s).1.1) as [[res [e|]]| |];
    cbn [fst snd]; try done.
  case_decide; [done|]. cbn [fst snd]. by rewrite IH.
Qed.

(** X16.  The counter counts the attempts.  A call of [DoQuery] on a group
    with one server leaves the counter as it was; on any other group it
    leaves it advanced by the number of attempts made, modulo 2^64. *)
Theorem DoQuery_counter (c : HttpQuery) (env : nat → Attempt) (uri : string)
    (s : Z) :
  0 ≤ s < 2 ^ 64 →
  (DoQuery c env uri s).1.2
  = if decide (length (servers c) = 1%nat) then s
    else wrapU64 (s + Z.of_nat (picks (DoQuery c env uri s).2)).
Proof.
  intros Hs. unfold DoQuery. case_decide as Hlen.
  - by apply DoQuery_loop_single.
  - rewrite <- DoQuery_loop_counter by done.
    unfold wrapU64. symmetry. apply Z.mod_small.
    generalize (Z.to_nat (attempts c)) O (@None error). clear -Hs.
    intros n. revert s Hs. induction n as [|n IH]; intros s Hs try err;
      [done|].
    rewrite DoQuery_loop_turn. cbv zeta.
    pose proof (doRequest_counter c (env try) uri s) as Hs'.
    assert (Hb : 0 ≤ (doRequest c (env try) uri s).1.2 < 2 ^ 64).
    { rewrite Hs', pickServer_counter. case_decide; [done|].
      apply Z.mod_pos_bound. lia. }
    destruct ((doRequest c (env try) uri s).1.1) as [[res [e|]]| |];
      cbn [fst snd]; try done.
    case_decide; [done|]. cbn [fst snd]. by apply IH.
Qed.

Lemma DoQuery_counter_witness :
  let c := {| groupName := "g"; servers := ["http://s1"; "http://s2"];
              maxTries := 3 |} in
  (DoQuery c (λ _, answering 503) "/render" (2 ^ 64 - 2)).1.2
  = wrapU64 (2 ^ 64 - 2 + 3).
Proof.
  apply (DoQuery_counter
           {| groupName := "g"; servers := ["http://s1"; "http://s2"];
              maxTries := 3 |} (λ _, answering 503) "/render" (2 ^ 64 - 2)).
  lia.
Defined.

(** *** How a call ends *)

Lemma loop_run_success n err r l pre post :
  loop_run n err r l →
  l = pre ++ Return None :: post →
  post = [] ∧ ∃ res, r = Returned (Some res, None).
Proof.
  intros Hrun. revert pre.
  induction Hrun as [err|n err|n err body res Hbody|n err body Hbody
                     |n err e body r l Hbody He Hrun IH]; intros pre Heq.
  - by destruct pre.
  - by destruct pre as [|? [|]].
  - apply attempt_split in Heq as [(_ & _ & ->)|(pre' & _ & Hnil)];
      [eauto | by destruct pre' | done].
  - apply attempt_split in Heq as [(_ & [=] & _)|(pre' & _ & Hnil)];
      [by destruct pre' | done].
  - apply attempt_split in Heq as [(_ & [=] & _)|(pre' & _ & ->)];
      [by eapply IH | done].
Qed.

Lemma DoQuery_loop_server (c : HttpQuery) (env : nat → Attempt)
    (uri : string) (res : ServerResponse) (e : option error) :
  ∀ n try err s,
    (DoQuery_loop c env uri n try err s).1.1 = Returned (Some res, e) →
    Server res ∈ servers c.
Proof.
  induction n as [|n IH]; intros try err s; [done|].
  rewrite DoQuery_loop_turn. cbv zeta.
  pose proof (doRequest_server c (env try) uri s) as Hsrv.
  destruct ((doRequest c (env try) uri s).1.1) as [[res' [e'|]]| |];
    cbn [fst snd]; try done.
  - case_decide; [done|]. cbn [fst snd]. apply IH.
  - intros [= -> <-]. by eapply Hsrv.
Qed.

(** X17.  The first success ends the call.  In the events of any run of
    [DoQuery], nothing follows the return of an attempt without error: no
    further pick, no further attempt.  [DoQuery] then returns the response
    of that attempt with a nil error, and the response names a server of
    the group. *)
Theorem DoQuery_success_short_circuit (c : HttpQuery) (env : nat → Attempt)
    (uri : string) (s : Z) (pre post : list event) :
  (DoQuery c env uri s).2 = pre ++ Return None :: post →
  post = [] ∧
  ∃ res, (DoQuery c env uri s).1.1 = Returned (Some res, None) ∧
         Server res ∈ servers c.
Proof.
  intros Heq.
  destruct (loop_run_success _ _ _ _ pre post (DoQuery_run c env uri s) Heq)
    as (Hpost & res & Hres).
  split; [done|]. exists res. split; [done|].
  by eapply DoQuery_loop_server.
Qed.

Lemma DoQuery_success_short_circuit_witness :
  let c := {| groupName := "g"; servers := ["http://s1"; "http://s2"];
              maxTries := 3 |} in
  let world (try : nat) := if try is O then answering 500 else healthy in
  let pre := [PickServer; Enter "g" None; Do "http://s2/render"; CloseBody;
              Leave "http://s2"; Return (Some (ErrFailedToFetch "g" 500));
              PickServer; Enter "g" None; Do "http://s1/render"; CloseBody;
              Leave "http://s1"] in
  (DoQuery c world "/render" 0).2 = pre ++ Return None :: []
  ∧ ∃ res, (DoQuery c world "/render" 0).1.1 = Returned (Some res, None) ∧
           Server res ∈ servers c.
Proof.
  split; [reflexivity|].
  apply (DoQuery_success_short_circuit
           {| groupName := "g"; servers := ["http://s1"; "http://s2"];
              maxTries := 3 |}
           (λ try : nat, if try is O then answering 500 else healthy)
           "/render" 0
           [PickServer; Enter "g" None; Do "http://s2/render"; CloseBody;
            Leave "http://s2"; Return (Some (ErrFailedToFetch "g" 500));
            PickServer; Enter "g" None; Do "http://s1/render"; CloseBody;
            Leave "http://s1"] []).
  reflexivity.
Defined.

(** X18.  A group without servers.  With an empty server list [DoQuery]
    makes [maxTries] the number of attempts: when that is not positive it
    returns [(nil, nil)] at once, with no event and the counter untouched;
    when it is positive the first pick divides by the number of servers,
    zero, and the call panics, the counter already moved on. *)
Theorem DoQuery_no_servers (c : HttpQuery) (env : nat → Attempt)
    (uri : string) (s : Z) :
  servers c = [] →
  DoQuery c env uri s
  = if decide (maxTries c ≤ 0) then (Returned (None, None), s, [])
    else (Panicked, wrapU64 (s + 1), [PickServer]).
Proof.
  intros Hsrv.
  assert (Hn : Z.to_nat (attempts c) = Z.to_nat (maxTries c)).
  { rewrite attempts_max, Hsrv. simpl. lia. }
  unfold DoQuery. rewrite Hn. clear Hn. case_decide as Hmax.
  - replace (Z.to_nat (maxTries c)) with O by lia. done.
  - destruct (Z.to_nat (maxTries c)) as [|n] eqn:Hn; [lia|].
    cbn [DoQuery_loop]. unfold mbind, M_bind, bind, doRequest, pickServer.
    unfold mbind, M_bind, bind, emit, lift, atomic_AddUint64, uint64_rem.
    rewrite Hsrv. reflexivity.
Qed.

Lemma DoQuery_no_servers_witness :
  DoQuery {| groupName := "g"; servers := []; maxTries := 3 |}
          (λ _, healthy) "/render" 7
  = (Panicked, 8, [PickServer]).
Proof.
  apply (DoQuery_no_servers
           {| groupName := "g"; servers := []; maxTries := 3 |}
           (λ _, healthy) "/render" 7).
  reflexivity.
Defined.

Lemma loop_run_result n err r l (x : option ServerResponse)
    (e : option error) :
  loop_run n err r l →
  r = Returned (x, e) →
  match x, e with
  | Some _, Some _ => False
  | Some _, None => l ≠ []
  | None, Some _ => True
  | None, None => n = O ∧ err = None
  end.
Proof.
  induction 1 as [err|n err|n err body res Hbody|n err body Hbody
                  |n err e' body r l Hbody He Hrun IH].
  - intros [= <- <-]. by destruct err.
  - done.
  - by intros [= <- <-].
  - by intros [= <- <-].
  - intros Hr. specialize (IH Hr). destruct x, e; try done. by destruct IH.
Qed.

(** X19.  What [DoQuery] can return.  It never returns a response together
    with an error; a response it returns names a server of the group; and
    it returns neither a response nor an error only when it made no attempt
    at all, which takes an empty server list and a [maxTries] that is not
    positive. *)
Theorem DoQuery_result (c : HttpQuery) (env : nat → Attempt) (uri : string)
    (s : Z) (x : option ServerResponse) (e : option error) :
  (DoQuery c env uri s).1.1 = Returned (x, e) →
  match x, e with
  | Some _, Some _ => False
  | Some res, None => Server res ∈ servers c
  | None, Some _ => True
  | None, None => servers c = [] ∧ maxTries c ≤ 0
  end.
Proof.
  intros Hr.
  pose proof (loop_run_result _ _ _ _ x e (DoQuery_run c env uri s) Hr) as H.
  destruct x as [res|], e as [e|]; try done.
  - by eapply DoQuery_loop_server.
  - destruct H as [Hn _]. rewrite attempts_max in Hn.
    split; [|lia]. destruct (servers c); [done | simpl in Hn; lia].
Qed.

Lemma DoQuery_result_witness :
  Server {| Server := "http://s1"; Response := [] |}
  ∈ servers {| groupName := "g"; servers := ["http://s1"]; maxTries := 1 |}.
Proof.
  apply (DoQuery_result
           {| groupName := "g"; servers := ["http://s1"]; maxTries := 1 |}
           (λ _, healthy) "/render" 0
           (Some {| Server := "http://s1"; Response := [] |}) None).
  reflexivity.
Defined.

(** X20.  Slots are given back, but under another name.  In any run of
    [DoQuery] there are as many releases of a limiter slot as there are
    successful acquisitions; every acquisition is made under the group name
    and every release under the name of a server of the group. *)
Theorem DoQuery_slots (c : HttpQuery) (env : nat → Attempt) (uri : string)
    (s : Z) :
  acquired (DoQuery c env uri s).2 = released (DoQuery c env uri s).2
  ∧ (∀ k r, Enter k r ∈ (DoQuery c env uri s).2 → k = groupName c)
  ∧ (∀ k, Leave k ∈ (DoQuery c env uri s).2 → k ∈ servers c).
Proof.
  unfold DoQuery.
  generalize (Z.to_nat (attempts c)) O (@None error). intros n. revert s.
  induction n as [|n IH]; intros s try err.
  { split; [done|]. split; intros ?; [intros ?|];
      intros Hin; by apply elem_of_nil in Hin. }
  rewrite DoQuery_loop_turn. cbv zeta.
  destruct (doRequest_slots c (env try) uri s) as (Hbal & Henter & Hleave).
  destruct ((doRequest c (env try) uri s).1.1) as [[res [e|]]| |];
    cbn [fst snd]; try done.
  case_decide; [done|]. cbn [fst snd].
  destruct (IH (doRequest c (env try) uri s).1.2 (Datatypes.S try) (Some e))
    as (Hbal' & Henter' & Hleave').
  split; [by rewrite acquired_app, released_app, Hbal, Hbal'|].
  split.
  - intros k r [Hin|Hin]%elem_of_app; eauto.
  - intros k [Hin|Hin]%elem_of_app; eauto.
Qed.

(** *** Reaching a healthy server *)

Section Healthy.

Variables (c : HttpQuery) (a : Attempt) (uri : string)
          (body : list Byte.byte).

(** The library calls go through, the limiter has room and bodies can be
    read; what differs from server to server is the answer to the request,
    and no server answers "not found". *)
Hypothesis parse_ok : ∀ u, url_Parse a u = None.
Hypothesis request_ok : ∀ u, http_NewRequest a u = None.
Hypothesis slot_free : limiter_Enter a (groupName c) = None.
Hypothesis read_ok : ioutil_ReadAll a = inr body.
Hypothesis found : ∀ srv,
  srv ∈ servers c →
  client_Do a (srv +:+ uri) ≠ inr StatusNotFound ∧
  client_Do a (srv +:+ uri) ≠ inl ErrNotFound.

Lemma doRequest_clean (s s' : Z) (srv : string) :
  pickServer c s = (Returned srv, s', [PickServer]) →
  (doRequest c a uri s).1
  = (match client_Do a (srv +:+ uri) with
     | inl e => Returned (None, Some e)
     | inr status =>
         if decide (status = StatusOK)
         then Returned (Some {| Server := srv; Response := body |}, None)
         else Returned (None, Some (ErrFailedToFetch (groupName c) status))
     end, s')
  ∨ client_Do a (srv +:+ uri) = inr StatusNotFound.
Proof.
  intros Hpick. unfold doRequest, mbind, M_bind, bind. rewrite Hpick.
  unfold defer, emit, ret. rewrite parse_ok, request_ok. cbn [bind fst snd].
  rewrite slot_free.
  destruct (client_Do a (srv +:+ uri)) as [e|status]; [by left|].
  destruct (decide (status = StatusNotFound)) as [->|Hnf]; [by right|]. left.
  destruct (decide (status = StatusOK)) as [->|Hok].
  - rewrite decide_False by (by intros ?). by rewrite read_ok.
  - by rewrite decide_True.
Qed.

(** A turn of the loop whose pick is [srv]: the call ends with a response
    of [srv], or [srv] is not healthy and the loop goes on from the
    counter the pick left. *)
Lemma DoQuery_loop_pick (n try : nat) (err : option error) (s s' : Z)
    (srv : string) :
  pickServer c s = (Returned srv, s', [PickServer]) →
  srv ∈ servers c →
  (client_Do a (srv +:+ uri) = inr StatusOK ∧
   (DoQuery_loop c (λ _, a) uri (Datatypes.S n) try err s).1.1
   = Returned (Some {| Server := srv; Response := body |}, None))
  ∨ (client_Do a (srv +:+ uri) ≠ inr StatusOK ∧
     ∃ e, (DoQuery_loop c (λ _, a) uri (Datatypes.S n) try err s).1.1
          = (DoQuery_loop c (λ _, a) uri n (Datatypes.S try) (Some e) s').1.1).
Proof.
  intros Hpick Hsrv. rewrite DoQuery_loop_turn. cbv zeta.
  destruct (found srv Hsrv) as [Hnf Hnf'].
  destruct (doRequest_clean s s' srv Hpick) as [Hreq|Hreq]; [|done].
  destruct (doRequest c a uri s) as [[r s''] l]. cbn [fst snd] in *.
  injection Hreq as -> ->.
  destruct (client_Do a (srv +:+ uri)) as [e|status] eqn:Hdo.
  - right. split; [done|]. exists e.
    rewrite decide_False by (intros ->; by apply Hnf'). done.
  - case_decide as Hok.
    + left. by subst status.
    + right. split; [by intros [= ->]|]. eexists.
      by rewrite decide_False.
Qed.

Lemma DoQuery_loop_reaches (healthy_srv : string) :
  (2 ≤ length (servers c))%nat →
  client_Do a (healthy_srv +:+ uri) = inr StatusOK →
  ∀ j n try err s,
    (j < n)%nat → 0 ≤ s → s + Z.of_nat j + 1 < 2 ^ 64 →
    servers c !! Z.to_nat ((s + 1 + Z.of_nat j)
                           `mod` Z.of_nat (length (servers c)))
    = Some healthy_srv →
    ∃ res,
      (DoQuery_loop c (λ _, a) uri n try err s).1.1
      = Returned (Some res, None) ∧
      client_Do a (Server res +:+ uri) = inr StatusOK.
Proof.
  intros Hlen Hhealthy.
  induction j as [|j IH]; intros n try err s Hn Hs Hmax Hlook;
    (destruct n as [|n]; [lia|]);
    (destruct (pickServer_next c s Hlen Hs) as (srv & Hpick & Hsrv); [lia|]);
    (destruct (DoQuery_loop_pick n try err s (s + 1) srv Hpick)
       as [[Hok ->]|[Hbad [e ->]]];
     [by eapply list_elem_of_lookup_2 | by eexists | ]).
  - rewrite Z.add_0_r, Hsrv in Hlook. by injection Hlook as ->.
  - apply IH; [lia..|]. rewrite <- Hlook. do 3 f_equal. lia.
Qed.

(** X25.  A healthy server is reached.  Let the library calls and the
    limiter let every attempt through, let no server of the group answer
    "not found", and let one server answer 200.  With the counter not about
    to wrap, [DoQuery] returns a response, without error, of a server that
    answered 200: the attempts go round the servers, and there are at least
    as many attempts as servers. *)
Theorem DoQuery_reaches_healthy (healthy_srv : string) (s : Z) :
  healthy_srv ∈ servers c →
  client_Do a (healthy_srv +:+ uri) = inr StatusOK →
  0 ≤ s → s + Z.of_nat (length (servers c)) < 2 ^ 64 →
  ∃ res,
    (DoQuery c (λ _, a) uri s).1.1 = Returned (Some res, None) ∧
    client_Do a (Server res +:+ uri) = inr StatusOK.
Proof.
  intros [h Hh]%list_elem_of_lookup Hhealthy Hs Hmax.
  pose proof (lookup_lt_Some _ _ _ Hh) as Hlt.
  pose proof (attempts_max c) as Hatt. unfold DoQuery.
  destruct (decide (length (servers c) = 1%nat)) as [Hone|Hmany].
  - destruct (Z.to_nat (attempts c)) as [|n] eqn:Hn; [lia|].
    assert (Hpick : pickServer c s = (Returned healthy_srv, s, [PickServer])).
    { unfold pickServer, mbind, M_bind, bind, emit, lift. cbn [fst snd].
      rewrite decide_True by done.
      destruct (servers c) as [|srv [|]]; try discriminate.
      destruct h; [|done]. by injection Hh as ->. }
    destruct (DoQuery_loop_pick n O None s s healthy_srv Hpick)
      as [[_ ->]|[Hbad _]]; [by eapply list_elem_of_lookup_2 | | done].
    by eexists.
  - set (n := Z.of_nat (length (servers c))) in *.
    set (j := (Z.of_nat h - (s + 1)) `mod` n).
    assert (Hj : 0 ≤ j < n) by (apply Z.mod_pos_bound; lia).
    apply (DoQuery_loop_reaches healthy_srv) with (j := Z.to_nat j);
      [lia | done | lia | done | lia |].
    rewrite <- Hh. f_equal. fold n. rewrite Z2Nat.id by lia. unfold j.
    rewrite Zplus_mod_idemp_r.
    replace (s + 1 + (Z.of_nat h - (s + 1))) with (Z.of_nat h) by lia.
    rewrite Z.mod_small by lia. lia.
Qed.

End Healthy.

Lemma DoQuery_reaches_healthy_witness :
  let c := {| groupName := "g"; servers := ["http://s1"; "http://s2"];
              maxTries := 1 |} in
  let a := {| url_Parse := λ _, None; http_NewRequest := λ _, None;
              limiter_Enter := λ _, None;
              client_Do := λ u, if decide (u = "http://s1/render")
                                then inr StatusOK else inr 500;
              ioutil_ReadAll := inr [] |} in
  ∃ res,
    (DoQuery c (λ _, a) "/render" 0).1.1 = Returned (Some res, None) ∧
    client_Do a (Server res +:+ "/render") = inr StatusOK.
Proof.
  intros c a.
  apply (DoQuery_reaches_healthy c a "/render" [])
    with (healthy_srv := "http://s1"); try done.
  - intros srv Hsrv. subst c. cbn [servers] in Hsrv.
    repeat (apply elem_of_cons in Hsrv as [->|Hsrv]);
      [by vm_compute.. | by apply elem_of_nil in Hsrv].
  - by left.
Defined.

End HelperMore.

(** ** gRPC group client, continued *)

Section GRPCMore.
Import GRPC.

Context {MultiGlobResponse MultiMetricsInfoResponse : Type}
        `{!Message MultiGlobResponse, !Message MultiMetricsInfoResponse}.

(** X21.  A failed find is booked as a render error.  Whenever [Find]
    returns, it hands back the result and the error of the RPC as they are,
    and stats in which the group is listed once: under [Servers] with no
    error counted when the RPC succeeded, under [FailedServers] with
    [RenderErrors] at one when it failed.  [FindErrors] is zero either way,
    and [MemoryUsage] is what [Size()] said of the result. *)
Theorem Find_stats (nilSize : option Z) (c : ClientGRPCGroup)
    (res out : option MultiGlobResponse) (err err' : option error)
    (stats : Types.Stats) :
  Find nilSize c (res, err) = Returned (out, stats, err') →
  out = res ∧ err' = err
  ∧ Types.FindErrors stats = 0
  ∧ res_Size nilSize res = Returned (Types.MemoryUsage stats)
  ∧ (Types.Servers stats, Types.FailedServers stats, Types.RenderErrors stats)
    = if err is None then ([Name c], [], 0) else ([], [Name c], 1).
Proof.
  unfold Find. intros Hrun.
  apply obind_Returned in Hrun as (n & Hn & [= <- <- <-]).
  repeat split; try done; by destruct err.
Qed.

(** X22.  [Info] returns exactly when the RPC handed back a result.  With a
    result, and whether or not the RPC also reported an error, [Info]
    returns that error and a map with one entry, the result under the group
    name; without a result it panics, error or not. *)
Theorem Info_returns_iff_result (nilSize : option Z) (c : ClientGRPCGroup)
    (res : option MultiMetricsInfoResponse) (err : option error) :
  match res with
  | Some r =>
      ∃ stats,
        Info nilSize c (res, err)
        = Returned (Some {[ Name c := r ]}, stats, err)
  | None => Info nilSize c (res, err) = Panicked
  end.
Proof.
  unfold Info, res_Size. destruct res as [r|]; [by eexists|].
  by destruct nilSize.
Qed.

(** *** [ProbeTLDs] *)

Lemma collect_paths_spec (metrics : list Find.GlobResponse) :
  collect_paths metrics = (Find.pairs metrics).*2.
Proof.
  unfold collect_paths.
  assert (Hinner : ∀ mms (acc : list string),
            foldl (λ tlds v, tlds ++ [Find.Path v]) acc mms
            = acc ++ (Find.Path <$> mms)).
  { induction mms as [|mm mms IH]; intros acc; simpl.
    - by rewrite app_nil_r.
    - by rewrite IH, <- app_assoc. }
  assert (Houter : ∀ ms (acc : list string),
            foldl (λ tlds m,
                     foldl (λ tlds v, tlds ++ [Find.Path v]) tlds
                           (Find.Matches m)) acc ms
            = acc ++ (Find.pairs ms).*2).
  { induction ms as [|m ms IH]; intros acc.
    - simpl. by rewrite app_nil_r.
    - cbn [foldl]. rewrite IH, Hinner, pairs_cons, fmap_app, pairs_singleton.
      rewrite <- app_assoc. do 2 f_equal.
      generalize (Find.Path <$> Find.Matches m). intros l.
      induction l as [|x l IHl]; [done|]. cbn [fmap list_fmap].
      f_equal. exact IHl. }
  apply (Houter metrics []).
Qed.

(** X23.  What [ProbeTLDs] hands back.  When the find RPC succeeds with a
    result, [ProbeTLDs] returns the paths of all matches of all metrics of
    the result, metric by metric and in order, nothing dropped and nothing
    de-duplicated.  When the RPC fails it returns the error and no path,
    whatever result came with it, provided [Find] got past [Size()]: with no
    result and a [Size()] that does not tolerate a nil receiver it panics.
    It also panics when the RPC hands back neither result nor error. *)
Theorem ProbeTLDs_spec (nilSize : option Z)
    (size : Message (list Find.GlobResponse)) (c : ClientGRPCGroup)
    (res : option (list Find.GlobResponse)) (err : option error) :
  ProbeTLDs nilSize c (res, err)
  = match err, res with
    | None, Some metrics => Returned ((Find.pairs metrics).*2, None)
    | None, None => Panicked
    | Some e, Some _ => Returned ([], Some e)
    | Some e, None => if nilSize is Some _ then Returned ([], Some e)
                      else Panicked
    end.
Proof.
  unfold ProbeTLDs, Find, res_Size.
  destruct err as [e|], res as [metrics|], nilSize as [n|]; simpl; try done;
    by rewrite collect_paths_spec.
Qed.

(** *** [NewClientGRPCGroup] *)



End GRPCMore.

(** *** Runs of the group client *)

Section GRPCRuns.
Import GRPC.

Lemma Find_stats_witness :
  let c := {| groupName := "g"; servers := ["s1"; "s2"] |} in
  let stats := {| Types.Servers := []; Types.FailedServers := ["g"];
                  Types.RenderErrors := 1; Types.FindErrors := 0;
                  Types.MemoryUsage := 0 |} in
  @Find (Some 0) (list Find.GlobResponse) (λ ms, Z.of_nat (length ms)) c
        (None, Some ErrCancelled)
  = Returned (None, stats, Some ErrCancelled)
  ∧ Types.FindErrors stats = 0
  ∧ (Types.Servers stats, Types.FailedServers stats, Types.RenderErrors stats)
    = ([], ["g"], 1).
Proof.
  split; [reflexivity|].
  destruct (@Find_stats (list Find.GlobResponse)
              (λ ms, Z.of_nat (length ms)) (Some 0)
              {| groupName := "g"; servers := ["s1"; "s2"] |}
              None None (Some ErrCancelled) (Some ErrCancelled)
              {| Types.Servers := []; Types.FailedServers := ["g"];
                 Types.RenderErrors := 1; Types.FindErrors := 0;
                 Types.MemoryUsage := 0 |} eq_refl) as (_ & _ & H1 & _ & H2).
  exact (conj H1 H2).
Defined.

End GRPCRuns.
